(** * PointerTree: an adaptive quad/octree mesh addressed by Morton indices

    A shallow embedding of [SimPEG/Mesh/PointerTree.py] (Python 2).

    Conventions of the embedding
    - Python integers are unbounded, so they are [Z]; [/] and [%] on
      integers are floor division and its remainder, [Z.div] and
      [Z.modulo] for the positive divisors that occur.
    - numpy floats are modelled by the exact rationals [Qc]: sums and
      products are exact, rounding is outside the model.
    - a raised exception is the [Raise] branch of [Result]; methods that
      mutate the mesh thread the [Tree] record explicitly and hand back
      the mesh as it is when the exception leaves the method.
    - an attribute that may be absent (the lazily computed tables) is an
      [option] field; [getattr(self, name, None) is None] is [None].
    - Python's recursion limit is the [fuel] of the recursive methods. *)

From Stdlib Require Import ZArith List Lia Bool QArith Qcanon.
From stdpp Require Import base option list numbers sorting gmap.

Local Open Scope Z_scope.

(** ** Exceptions *)

Inductive exn : Set :=
  | AssertionError | IndexError | KeyError | AttributeError
  | RecursionError | UnboundLocalError | ValueError.

Inductive Result (A : Type) : Type :=
  | Ok (a : A)
  | Raise (e : exn).
Arguments Ok {A} a.
Arguments Raise {A} e.

#[global] Instance Result_ret : MRet Result := fun A a => Ok a.
#[global] Instance Result_bind : MBind Result := fun A B f m =>
  match m with Ok a => f a | Raise e => Raise e end.
#[global] Instance Result_fmap : FMap Result := fun A B f m =>
  match m with Ok a => Ok (f a) | Raise e => Raise e end.

Definition assert (b : bool) : Result unit :=
  if b then Ok tt else Raise AssertionError.

Definition is_Ok {A} (r : Result A) : bool :=
  match r with Ok _ => true | Raise _ => false end.

(** [foldM f l b]: a [for] loop over [l] whose body may raise. *)
Fixpoint foldM {A B} (f : B -> A -> Result B) (l : list A) (b : B) : Result B :=
  match l with
  | [] => Ok b
  | x :: l => b' ← f b x; foldM f l b'
  end.

(** ** Python lists *)

(** [range(n)] *)
Definition range (n : Z) : list Z := map Z.of_nat (seq 0 (Z.to_nat n)).

(** [l[i]], with Python's wrap-around of negative indices. *)
Definition py_get {A} (l : list A) (i : Z) : Result A :=
  let n := Z.of_nat (length l) in
  let j := if i <? 0 then i + n else i in
  if (0 <=? j) && (j <? n)
  then match l !! Z.to_nat j with Some x => Ok x | None => Raise IndexError end
  else Raise IndexError.

(** [l[i] = f(l[i])] *)
Definition py_update {A} (l : list A) (i : Z) (f : A -> A) : Result (list A) :=
  x ← py_get l i;
  let n := Z.of_nat (length l) in
  let j := if i <? 0 then i + n else i in
  Ok (<[Z.to_nat j := f x]> l).

(** [l[a:b]], step 1, with Python's clamping of the two bounds. *)
Definition py_clamp (len i : Z) : Z :=
  if i <? 0 then Z.max 0 (i + len) else Z.min i len.

Definition py_slice {A} (l : list A) (a b : Z) : list A :=
  let n := Z.of_nat (length l) in
  let a' := py_clamp n a in
  let b' := py_clamp n b in
  take (Z.to_nat (b' - a')) (drop (Z.to_nat a') l).

(** [pointer[-1]] and [pointer[:-1]] *)
Definition py_last (p : list Z) : Result Z :=
  match last p with Some x => Ok x | None => Raise IndexError end.

Definition py_init (p : list Z) : list Z := removelast p.

(** ** ZCurve *)

Record ZCurve : Set := { dimension : Z; bits : Z }.

Section ZCurve.
Variable self : ZCurve.

(** [x >> (width-end) & ((2**(end-start))-1)] *)
Definition bitrange (x width start end_ : Z) : Z :=
  Z.land (Z.shiftr x (width - end_)) (2 ^ (end_ - start) - 1).

Definition index_step (p : list Z) (idx i : Z) : Result Z :=
  let bitoff := bits self - (i / dimension self) - 1 in
  let poff := dimension self - (i mod dimension self) - 1 in
  x ← py_get p poff;
  let b := Z.shiftl (bitrange x (bits self) bitoff (bitoff + 1)) i in
  Ok (Z.lor idx b).

Definition index (p : list Z) : Result Z :=
  let p := reverse p in
  let iwidth := bits self * dimension self in
  foldM (index_step p) (range iwidth) 0.

Definition point_step (idx iwidth : Z) (p : list Z) (i : Z) : Result (list Z) :=
  let b := Z.shiftl (bitrange idx iwidth i (i + 1))
                    ((iwidth - i - 1) / dimension self) in
  py_update p (i mod dimension self) (fun x => Z.lor x b).

Definition point (idx : Z) : Result (list Z) :=
  let p := replicate (Z.to_nat (dimension self)) 0 in
  let iwidth := bits self * dimension self in
  p ← foldM (point_step idx iwidth) (range iwidth) p;
  Ok (reverse p).
End ZCurve.

(** ** numpy and scipy values *)

Definition Grid := list (list Qc).

Definition Qcsum (l : list Qc) : Qc := foldr Qcplus 0%Qc l.
Definition Qcprod (l : list Qc) : Qc := foldr Qcmult 1%Qc l.

(** [enumerate(l)] *)
Definition enumerate {A} (l : list A) : list (Z * A) :=
  imap (fun i x => (Z.of_nat i, x)) l.

(** A matrix, dense: [data] has [fst shape] rows of [snd shape] entries. *)
Record Matrix : Type := { shape : Z * Z; data : list (list Qc) }.

Definition mk_matrix (n m : Z) (f : Z -> Z -> Qc) : Matrix :=
  {| shape := (n, m);
     data := map (fun i => map (fun j => f i j) (range m)) (range n) |}.

Definition mat_get (M : Matrix) (i j : Z) : Qc :=
  match data M !! Z.to_nat i with
  | Some r => default 0%Qc (r !! Z.to_nat j)
  | None => 0%Qc
  end.

(** [sp.csr_matrix((V,(I,J)), shape=(n,m))]: entries at the same place are
    summed; an index outside the shape is refused. *)
Definition csr_matrix (entries : list (Z * Z * Z)) (n m : Z) : Result Matrix :=
  if forallb (fun e => match e with (i, j, _) =>
                (0 <=? i) && (i <? n) && (0 <=? j) && (j <? m) end) entries
  then Ok (mk_matrix n m (fun i j =>
         Qcsum (map (fun e => match e with (i', j', v) =>
                  if (i' =? i) && (j' =? j) then Q2Qc (inject_Z v) else 0%Qc end)
                  entries)))
  else Raise ValueError.

(** Modelled from the spec: [Utils.sdiag], of the package's utilities that
    are not part of this module; [S = diag(area)], [V = diag(vol)]: the
    square matrix with the vector on its diagonal. *)
Definition sdiag (v : list Qc) : Matrix :=
  let n := Z.of_nat (length v) in
  mk_matrix n n (fun i j =>
    if i =? j then default 0%Qc (v !! Z.to_nat i) else 0%Qc).

(** [A * B] on sparse matrices is the matrix product. *)
Definition mat_mul (A B : Matrix) : Result Matrix :=
  if snd (shape A) =? fst (shape B)
  then Ok (mk_matrix (fst (shape A)) (snd (shape B)) (fun i j =>
         Qcsum (map (fun k => (mat_get A i k * mat_get B k j)%Qc)
                    (range (snd (shape A))))))
  else Raise ValueError.

(** ** Tree *)

Record Tree : Type := {
  h : list (list Qc);
  _levels : Z;
  _levelBits : Z;
  __dirty__ : bool;
  _z : ZCurve;
  _treeInds : gset Z;
  (** the attribute named ['__sortedInds'], which [_structureChange] deletes
      and the getter reads with [getattr]; nothing ever sets it, since inside
      the class body [self.__sortedInds] is the attribute
      [_Tree__sortedInds] *)
  __sortedInds : option (list Z);
  _Tree__sortedInds : option (list Z);
  _gridCC : option Grid;
  _gridFx : option Grid;
  _gridFy : option Grid;
  _gridFz : option Grid;
  _c2f : option (gmap Z (list (list Z)));
  _area : option (list Qc);
  _vol : option (list Qc);
  _hangingFacesX : option (list Z);
  _hangingFacesY : option (list Z);
  _hangingFacesZ : option (list Z);
  _nC : option Z;
  _nFx : option Z;
  _nFy : option Z;
  _nFz : option Z;
  _nF : option Z;
  _faceDiv : option Matrix
}.

(** [self.name] for an attribute that may be absent *)
Definition attr {A} (o : option A) : Result A :=
  match o with Some a => Ok a | None => Raise AttributeError end.

(** The arguments of the constructor: an entry of [h_in] is a number
    ([int], [long] or [float], taken at its value [int(h_i)]) or a numpy
    array, given by the length of its shape and, when that is 1, its
    elements. *)
Inductive h_entry : Type :=
  | HNum (n : Z)
  | HArray (ndim : nat) (elems : list Qc).

(** [np.ones(n)/n] *)
Definition ones_over (n : Z) : list Qc :=
  replicate (Z.to_nat n) (1 / Q2Qc (inject_Z n))%Qc.

Definition init_entry (levels : Z) (h_i : h_entry) : Result (list Qc) :=
  '(ndim, elems) ← match h_i with
     | HNum n =>
         (* np.ones of a negative length raises *)
         if n <? 0 then Raise ValueError else Ok (1%nat, ones_over n)
     | HArray ndim elems => Ok (ndim, elems)
     end;
  _ ← assert (Nat.eqb ndim 1);
  (* [2**levels] is an integer only for [levels >= 0] *)
  _ ← assert ((0 <=? levels) && (Z.of_nat (length elems) =? 2 ^ levels));
  Ok elems.

(** The attributes the constructor sets, once [h_in] has passed. *)
Definition new_tree (h : list (list Qc)) (levels : Z) : Tree :=
  {| h := h;
     _levels := levels;
     _levelBits := Z.sqrt_up levels + 1;
     __dirty__ := true;
     _z := {| dimension := Z.of_nat (length h); bits := 20 |};
     _treeInds := {[ 0 ]};
     __sortedInds := None; _Tree__sortedInds := None;
     _gridCC := None; _gridFx := None; _gridFy := None; _gridFz := None;
     _c2f := None; _area := None; _vol := None;
     _hangingFacesX := None; _hangingFacesY := None; _hangingFacesZ := None;
     _nC := None; _nFx := None; _nFy := None; _nFz := None; _nF := None;
     _faceDiv := None |}.

Definition Tree_init (h_in : list h_entry) (levels : Z) : Result Tree :=
  _ ← assert (1 <? Z.of_nat (length h_in));
  h ← mapM (init_entry levels) h_in;
  Ok (new_tree h levels).

(** What a cell is named by: an index ([int], [long]) or a pointer (a list,
    or a numpy array that [_asPointer] turns into one). *)
Inductive cellref : Type :=
  | Idx (i : Z)
  | Ptr (p : list Z).

(** What [_getNextCell] returns: [None], an index, or a list of such. *)
#[warnings="-register-all"]
Inductive NextCell : Type :=
  | NCNone
  | NCInt (i : Z)
  | NCList (l : list NextCell).

Section Readers.
Variable self : Tree.

Definition levels : Z := _levels self.
Definition dim : Z := Z.of_nat (length (h self)).
Definition nC : Z := Z.of_nat (size (_treeInds self)).

Definition _index (pointer : list Z) : Result Z :=
  _ ← assert (Z.of_nat (length pointer) =? dim + 1);
  l ← py_last pointer;
  _ ← assert (l <=? levels);
  x ← index (_z self) (py_init pointer);
  Ok (Z.shiftl x (_levelBits self) + l).

Definition _pointer (index : Z) : Result (list Z) :=
  let n := Z.land index (2 ^ _levelBits self - 1) in
  p ← point (_z self) (Z.shiftr index (_levelBits self));
  Ok (p ++ [n]).

Definition contains (v : cellref) : Result bool :=
  match v with
  | Idx i => Ok (bool_decide (i ∈ _treeInds self))
  | Ptr p => i ← _index p; Ok (bool_decide (i ∈ _treeInds self))
  end.

Definition _asPointer (ind : cellref) : Result (list Z) :=
  match ind with
  | Idx i => _pointer i
  | Ptr p => Ok p
  end.

Definition _asIndex (pointer : cellref) : Result Z :=
  match pointer with
  | Idx i => Ok i
  | Ptr p => _index p
  end.

(** [2**(self.levels - level)]; an integer for [level <= levels], which
    holds of every pointer that passed [_index] and of the parents the
    walk derives from them. *)
Definition _levelWidth (level : Z) : Z := 2 ^ (levels - level).

Definition _parentPointer (pointer : list Z) : Result (list Z) :=
  l ← py_last pointer;
  let mod_ := _levelWidth (l - 1) in
  Ok (map (fun p => p - (p mod mod_)) (py_init pointer) ++ [l - 1]).

Definition _cellN (p : cellref) : Result (list Qc) :=
  p ← _asPointer p;
  mapM (fun '(ii, hi) => c ← py_get p ii; Ok (Qcsum (py_slice hi 0 c)))
       (enumerate (h self)).

Definition _cellH (p : cellref) : Result (list Qc) :=
  p ← _asPointer p;
  l ← py_last p;
  let w := _levelWidth l in
  mapM (fun '(ii, hi) => c ← py_get p ii; Ok (Qcsum (py_slice hi c (c + w))))
       (enumerate (h self)).

Definition _cellC (p : cellref) : Result (list Qc) :=
  w ← _cellH p;
  n ← _cellN p;
  Ok (zip_with (fun w n => (w / Q2Qc 2 + n)%Qc) w n).

Definition _isInsideMesh (pointer : list Z) : bool :=
  forallb (fun p => (0 <=? p) && (p <? 2 ^ levels)) (py_init pointer).

Definition _onSameLevel (i0 i1 : cellref) : Result bool :=
  p0 ← _asPointer i0;
  p1 ← _asPointer i1;
  l0 ← py_last p0;
  l1 ← py_last p1;
  Ok (l0 =? l1).

(** The offsets of the children on the shared face *)
Definition face_children (direction hw : Z) : Result (list (list Z)) :=
  if dim =? 2 then
    if direction =? 0 then Ok [[0;0;1]; [0;hw;1]]
    else if direction =? 1 then Ok [[0;0;1]; [hw;0;1]]
    else Raise UnboundLocalError
  else if dim =? 3 then
    if direction =? 0 then Ok [[0;0;0;1]; [0;hw;0;1]; [0;0;hw;1]; [0;hw;hw;1]]
    else if direction =? 1 then Ok [[0;0;0;1]; [hw;0;0;1]; [0;0;hw;1]; [hw;0;hw;1]]
    else if direction =? 2 then Ok [[0;0;0;1]; [hw;0;0;1]; [0;hw;0;1]; [hw;hw;0;1]]
    else Raise UnboundLocalError
  else Raise UnboundLocalError.

(** [[p if ii is not direction else p + d for ii, p in enumerate(pointer)]] *)
Definition shift_at (pointer : list Z) (direction d : Z) : list Z :=
  imap (fun ii p => if Z.of_nat ii =? direction then p + d else p) pointer.

Fixpoint _getNextCell (fuel : nat) (pointer : list Z) (direction : Z)
    (positive : bool) {struct fuel} : Result NextCell :=
  match fuel with
  | O => Raise RecursionError
  | S fuel =>
    l ← py_last pointer;
    let step := (if positive then 1 else -1) * _levelWidth l in
    let nextCell := shift_at pointer direction step in
    if negb (_isInsideMesh nextCell) then Ok NCNone else
    (* it might be the same size as me? *)
    same ← contains (Ptr nextCell);
    if same : bool then NCInt <$> _index nextCell else
    (* it might be smaller than me? *)
    nl ← py_last nextCell;
    smaller ←
      (if nl + 1 <=? levels then
         nextCell ← py_update nextCell (-1) (fun x => x + 1);
         nextCell ← (if positive then Ok nextCell
                     else py_update nextCell direction (fun x => x - step / 2));
         finer ← contains (Ptr nextCell);
         if finer : bool then
           let hw := _levelWidth l / 2 in
           let nextCell :=
             shift_at pointer direction (if positive then step / 2 else 0) in
           children ← face_children direction hw;
           nextCells ← mapM (fun child =>
               _getNextCell fuel (zip_with Z.add nextCell child)
                            direction positive) children;
           Ok (Some (NCList nextCells))
         else Ok None
       else Ok None);
    match smaller with
    | Some r => Ok r
    | None =>
      (* it might be bigger than me? *)
      parent ← _parentPointer pointer;
      _getNextCell fuel parent direction positive
    end
  end.
End Readers.

(** ** Methods that change the mesh

    A method that assigns an attribute takes the mesh and returns what it
    returns, or the exception it raises, together with the mesh as it then
    is. *)

Definition M (A : Type) : Type := Tree -> Result A * Tree.

Definition retM {A} (a : A) : M A := fun self => (Ok a, self).
Definition bindM {A B} (m : M A) (f : A -> M B) : M B := fun self =>
  match m self with
  | (Ok a, self) => f a self
  | (Raise e, self) => (Raise e, self)
  end.
(** a reader, run on the mesh as it is *)
Definition liftM {A} (r : Tree -> Result A) : M A := fun self => (r self, self).
Definition modifyM (f : Tree -> Tree) : M unit := fun self => (Ok tt, f self).

Declare Scope M_scope.
Delimit Scope M_scope with M.
Notation "x <- m ;; k" := (bindM m (fun x => k))
  (at level 100, m at next level, right associativity) : M_scope.
Notation "m ;; k" := (bindM m (fun _ => k))
  (at level 100, right associativity) : M_scope.

Fixpoint forM {A B} (f : B -> A -> M B) (l : list A) (b : B) : M B :=
  match l with
  | [] => retM b
  | x :: l => bindM (f b x) (forM f l)
  end.

Definition set_dirty (b : bool) (self : Tree) : Tree :=
  {| h := h self; _levels := _levels self; _levelBits := _levelBits self;
     __dirty__ := b;
     _z := _z self; _treeInds := _treeInds self;
     __sortedInds := __sortedInds self;
     _Tree__sortedInds := _Tree__sortedInds self;
     _gridCC := _gridCC self; _gridFx := _gridFx self;
     _gridFy := _gridFy self; _gridFz := _gridFz self;
     _c2f := _c2f self; _area := _area self; _vol := _vol self;
     _hangingFacesX := _hangingFacesX self;
     _hangingFacesY := _hangingFacesY self;
     _hangingFacesZ := _hangingFacesZ self;
     _nC := _nC self; _nFx := _nFx self; _nFy := _nFy self;
     _nFz := _nFz self; _nF := _nF self; _faceDiv := _faceDiv self |}.

Definition set_treeInds (s : gset Z) (self : Tree) : Tree :=
  {| h := h self; _levels := _levels self; _levelBits := _levelBits self;
     __dirty__ := __dirty__ self;
     _z := _z self; _treeInds := s;
     __sortedInds := __sortedInds self;
     _Tree__sortedInds := _Tree__sortedInds self;
     _gridCC := _gridCC self; _gridFx := _gridFx self;
     _gridFy := _gridFy self; _gridFz := _gridFz self;
     _c2f := _c2f self; _area := _area self; _vol := _vol self;
     _hangingFacesX := _hangingFacesX self;
     _hangingFacesY := _hangingFacesY self;
     _hangingFacesZ := _hangingFacesZ self;
     _nC := _nC self; _nFx := _nFx self; _nFy := _nFy self;
     _nFz := _nFz self; _nF := _nF self; _faceDiv := _faceDiv self |}.

(** [delattr] of ['__sortedInds'], ['_gridCC'] and ['_gridFx'] *)
Definition delete_these (self : Tree) : Tree :=
  {| h := h self; _levels := _levels self; _levelBits := _levelBits self;
     __dirty__ := __dirty__ self;
     _z := _z self; _treeInds := _treeInds self;
     __sortedInds := None;
     _Tree__sortedInds := _Tree__sortedInds self;
     _gridCC := None; _gridFx := None;
     _gridFy := _gridFy self; _gridFz := _gridFz self;
     _c2f := _c2f self; _area := _area self; _vol := _vol self;
     _hangingFacesX := _hangingFacesX self;
     _hangingFacesY := _hangingFacesY self;
     _hangingFacesZ := _hangingFacesZ self;
     _nC := _nC self; _nFx := _nFx self; _nFy := _nFy self;
     _nFz := _nFz self; _nF := _nF self; _faceDiv := _faceDiv self |}.

Definition set_Tree__sortedInds (l : list Z) (self : Tree) : Tree :=
  {| h := h self; _levels := _levels self; _levelBits := _levelBits self;
     __dirty__ := __dirty__ self;
     _z := _z self; _treeInds := _treeInds self;
     __sortedInds := __sortedInds self;
     _Tree__sortedInds := Some l;
     _gridCC := _gridCC self; _gridFx := _gridFx self;
     _gridFy := _gridFy self; _gridFz := _gridFz self;
     _c2f := _c2f self; _area := _area self; _vol := _vol self;
     _hangingFacesX := _hangingFacesX self;
     _hangingFacesY := _hangingFacesY self;
     _hangingFacesZ := _hangingFacesZ self;
     _nC := _nC self; _nFx := _nFx self; _nFy := _nFy self;
     _nFz := _nFz self; _nF := _nF self; _faceDiv := _faceDiv self |}.

Definition set_gridCC (g : Grid) (self : Tree) : Tree :=
  {| h := h self; _levels := _levels self; _levelBits := _levelBits self;
     __dirty__ := __dirty__ self;
     _z := _z self; _treeInds := _treeInds self;
     __sortedInds := __sortedInds self;
     _Tree__sortedInds := _Tree__sortedInds self;
     _gridCC := Some g; _gridFx := _gridFx self;
     _gridFy := _gridFy self; _gridFz := _gridFz self;
     _c2f := _c2f self; _area := _area self; _vol := _vol self;
     _hangingFacesX := _hangingFacesX self;
     _hangingFacesY := _hangingFacesY self;
     _hangingFacesZ := _hangingFacesZ self;
     _nC := _nC self; _nFx := _nFx self; _nFy := _nFy self;
     _nFz := _nFz self; _nF := _nF self; _faceDiv := _faceDiv self |}.

Definition set_faceDiv (m : Matrix) (self : Tree) : Tree :=
  {| h := h self; _levels := _levels self; _levelBits := _levelBits self;
     __dirty__ := __dirty__ self;
     _z := _z self; _treeInds := _treeInds self;
     __sortedInds := __sortedInds self;
     _Tree__sortedInds := _Tree__sortedInds self;
     _gridCC := _gridCC self; _gridFx := _gridFx self;
     _gridFy := _gridFy self; _gridFz := _gridFz self;
     _c2f := _c2f self; _area := _area self; _vol := _vol self;
     _hangingFacesX := _hangingFacesX self;
     _hangingFacesY := _hangingFacesY self;
     _hangingFacesZ := _hangingFacesZ self;
     _nC := _nC self; _nFx := _nFx self; _nFy := _nFy self;
     _nFz := _nFz self; _nF := _nF self; _faceDiv := Some m |}.

Definition _structureChange : M unit := fun self =>
  if __dirty__ self then (Ok tt, self)
  else (Ok tt, set_dirty true (delete_these self)).

(** [sorted(self._treeInds)] *)
Definition sorted (s : gset Z) : list Z := merge_sort Z.le (elements s).

Definition _sortedInds : M (list Z) := fun self =>
  match __sortedInds self with
  | None =>
      let l := sorted (_treeInds self) in
      (Ok l, set_Tree__sortedInds l self)
  | Some l => (Ok l, self)
  end.

Local Open Scope M_scope.

(** [addCell] of [_refineCell]: [p] is the child's coordinates. *)
Definition addCell (nL : Z) (added : list Z) (p : list Z) : M (list Z) :=
  i <- liftM (fun self => _index self (p ++ [nL])) ;;
  modifyM (fun self => set_treeInds (_treeInds self ∪ {[ i ]}) self) ;;
  retM (added ++ [i]).

(** [map(add, zip(pointer[:-1], off))] *)
Definition add_offsets (pointer off : list Z) : list Z :=
  zip_with Z.add (py_init pointer) off.

Definition _refineCell (pointer : cellref) : M (list Z) :=
  _structureChange ;;
  pointer <- liftM (fun self => _asPointer self pointer) ;;
  ind <- liftM (fun self => _asIndex self (Ptr pointer)) ;;
  live <- liftM (fun self => contains self (Idx ind)) ;;
  liftM (fun _ => assert live) ;;
  l <- liftM (fun _ => py_last pointer) ;;
  d <- liftM (fun self => Ok (dim self)) ;;
  h <- liftM (fun self => Ok (_levelWidth self l / 2)) ;;
  let nL := l + 1 in
  let added := [] in
  added <- addCell nL added (add_offsets pointer (py_slice [0;0;0] 0 d)) ;;
  added <- addCell nL added (add_offsets pointer (py_slice [h;0;0] 0 d)) ;;
  added <- addCell nL added (add_offsets pointer (py_slice [0;h;0] 0 d)) ;;
  added <- addCell nL added (add_offsets pointer (py_slice [h;h;0] 0 d)) ;;
  added <- (if d =? 3 then
      added <- addCell nL added (add_offsets pointer [0;0;h]) ;;
      added <- addCell nL added (add_offsets pointer [h;0;h]) ;;
      added <- addCell nL added (add_offsets pointer [0;h;h]) ;;
      addCell nL added (add_offsets pointer [h;h;h])
    else retM added) ;;
  (fun self =>
     if bool_decide (ind ∈ _treeInds self)
     then (Ok tt, set_treeInds (_treeInds self ∖ {[ ind ]}) self)
     else (Raise KeyError, self)) ;;
  retM added.

(** [refine(function, recursive, cells)]; [cells = None] is the default,
    the live cells in sorted order. *)
Definition refine_pass (function : list Qc -> Z) (cells : list Z) : M (list Z) :=
  forM (fun recurse cell =>
      p <- liftM (fun self => _pointer self cell) ;;
      c <- liftM (fun self => _cellC self (Idx cell)) ;;
      l <- liftM (fun _ => py_last p) ;;
      if function c >? l
      then (added <- _refineCell (Idx cell) ;; retM (recurse ++ added))
      else retM recurse)
    cells [].

Fixpoint refine (fuel : nat) (function : list Qc -> Z) (recursive : bool)
    (cells : option (list Z)) {struct fuel} : M (list Z) :=
  match fuel with
  | O => fun self => (Raise RecursionError, self)
  | S fuel =>
    cells <- (match cells with
              | Some cells => retM cells
              | None => liftM (fun self => Ok (sorted (_treeInds self)))
              end) ;;
    recurse <- refine_pass function cells ;;
    (if recursive && (0 <? Z.of_nat (length recurse))
     then (_ <- refine fuel function true (Some recurse) ;; retM tt)
     else retM tt) ;;
    retM recurse
  end.

Local Close Scope M_scope.

(** ** Numbering *)

(** The tables of one axis while [number] runs: [facesX], [areaX],
    [hangingFacesX] and [faceXCount], and the same for Y and Z. *)
Record FaceTable : Type := {
  faces : Grid;
  ft_area : list Qc;
  hangingFaces : list Z;
  faceCount : Z
}.

Definition empty_table : FaceTable :=
  {| faces := []; ft_area := []; hangingFaces := []; faceCount := -1 |}.

Definition add_face (a : Result Qc) (f : Result (option (list Qc)))
    (ft : FaceTable) : Result FaceTable :=
  a ← a;
  f ← f;
  Ok {| faces := match f with Some f => faces ft ++ [f] | None => faces ft end;
        ft_area := ft_area ft ++ [a];
        hangingFaces := hangingFaces ft;
        faceCount := faceCount ft + 1 |}.

Definition hang (new : list Z) (ft : FaceTable) : FaceTable :=
  {| faces := faces ft; ft_area := ft_area ft;
     hangingFaces := hangingFaces ft ++ new;
     faceCount := faceCount ft |}.

Section Numbering.
Variable self : Tree.
Variable fuel : nat.

Definition two : Qc := Q2Qc 2.

Definition addXFace (ft : FaceTable) (p : list Z) (positive : bool)
    : Result FaceTable :=
  n ← _cellN self (Ptr p);
  w ← _cellH self (Ptr p);
  add_face
    (if dim self =? 2 then py_get w 1
     else w1 ← py_get w 1; w2 ← py_get w 2; Ok (w1 * w2)%Qc)
    (if dim self =? 2 then
       n0 ← py_get n 0; w0 ← py_get w 0; n1 ← py_get n 1; w1 ← py_get w 1;
       Ok (Some [n0 + (if positive then w0 else 0); n1 + w1 / two]%Qc)
     else if dim self =? 3 then
       n0 ← py_get n 0; w0 ← py_get w 0; n1 ← py_get n 1; w1 ← py_get w 1;
       n2 ← py_get n 2; w2 ← py_get w 2;
       Ok (Some [n0 + (if positive then w0 else 0); n1 + w1 / two;
                 n2 + w2 / two]%Qc)
     else Ok None)
    ft.

Definition addYFace (ft : FaceTable) (p : list Z) (positive : bool)
    : Result FaceTable :=
  n ← _cellN self (Ptr p);
  w ← _cellH self (Ptr p);
  add_face
    (if dim self =? 2 then py_get w 0
     else w0 ← py_get w 0; w2 ← py_get w 2; Ok (w0 * w2)%Qc)
    (if dim self =? 2 then
       n0 ← py_get n 0; w0 ← py_get w 0; n1 ← py_get n 1; w1 ← py_get w 1;
       Ok (Some [n0 + w0 / two; n1 + (if positive then w1 else 0)]%Qc)
     else if dim self =? 3 then
       n0 ← py_get n 0; w0 ← py_get w 0; n1 ← py_get n 1; w1 ← py_get w 1;
       n2 ← py_get n 2; w2 ← py_get w 2;
       Ok (Some [n0 + w0 / two; n1 + (if positive then w1 else 0);
                 n2 + w2 / two]%Qc)
     else Ok None)
    ft.

Definition addZFace (ft : FaceTable) (p : list Z) (positive : bool)
    : Result FaceTable :=
  n ← _cellN self (Ptr p);
  w ← _cellH self (Ptr p);
  add_face
    (w0 ← py_get w 0; w1 ← py_get w 1; Ok (w0 * w1)%Qc)
    (n0 ← py_get n 0; w0 ← py_get w 0; n1 ← py_get n 1; w1 ← py_get w 1;
     n2 ← py_get n 2; w2 ← py_get w 2;
     Ok (Some [n0 + w0 / two; n1 + w1 / two;
               n2 + (if positive then w2 else 0)]%Qc))
    ft.

(** [gc2f(ind)[f] += new] *)
Definition c2f_add (ind f : Z) (new : list Z)
    (c2f : gmap Z (list (list Z))) : Result (gmap Z (list (list Z))) :=
  let c2f_ind :=
    match c2f !! ind with
    | Some c2f_ind => c2f_ind
    | None => replicate (Z.to_nat (2 * dim self)) []
    end in
  c2f_ind ← py_update c2f_ind f (fun l => l ++ new);
  Ok (<[ind := c2f_ind]> c2f).

(** the [int] at place [k] of the list that [_getNextCell] returned, as
    [_pointer] asserts it to be, and its pointer *)
Definition finer_child (nextCell : list NextCell) (k : Z)
    : Result (Z * list Z) :=
  n ← py_get nextCell k;
  match n with
  | NCInt n => p ← _pointer self n; Ok (n, p)
  | _ => Raise AssertionError
  end.

Definition processCell
    (addFace : FaceTable -> list Z -> bool -> Result FaceTable) (DIR : Z)
    (ind : Z) (st : FaceTable * gmap Z (list (list Z)))
    : Result (FaceTable * gmap Z (list (list Z))) :=
  let '(ft, c2f) := st in
  let '(fM, fP) :=
    if DIR =? 0 then (0, 1) else if DIR =? 1 then (2, 3) else (4, 5) in
  p ← _asPointer self (Idx ind);
  before ← _getNextCell self fuel p DIR false;
  '(ft, c2f) ← match before with
    | NCNone =>
        ft ← addFace ft p false;
        c2f ← c2f_add ind fM [faceCount ft] c2f;
        Ok (ft, c2f)
    | _ => Ok (ft, c2f)
    end;
  nextCell ← _getNextCell self fuel p DIR true;
  match nextCell with
  | NCNone =>
      (* on the boundary *)
      ft ← addFace ft p true;
      c2f ← c2f_add ind fP [faceCount ft] c2f;
      Ok (ft, c2f)
  | NCInt n =>
      same ← _onSameLevel self (Ptr p) (Idx n);
      if same : bool then
        (* same sized cell *)
        ft ← addFace ft p true;
        c2f ← c2f_add ind fP [faceCount ft] c2f;
        c2f ← c2f_add n fM [faceCount ft] c2f;
        Ok (ft, c2f)
      else
        same ← _onSameLevel self (Ptr p) (Idx n);
        if negb same then
          (* the cell is bigger than me *)
          ft ← addFace ft p true;
          c2f ← c2f_add ind fP [faceCount ft] c2f;
          c2f ← c2f_add n fM [faceCount ft] c2f;
          Ok (hang [faceCount ft] ft, c2f)
        else Ok (ft, c2f)
  | NCList nextCell =>
      (* the cell is smaller than me *)
      '(n0, p0) ← finer_child nextCell 0;
      '(n1, p1) ← finer_child nextCell 1;
      ft ← addFace ft p0 false;
      c2f ← c2f_add n0 fM [faceCount ft] c2f;
      ft ← addFace ft p1 false;
      c2f ← c2f_add n1 fM [faceCount ft] c2f;
      c2f ← c2f_add ind fP [faceCount ft - 1; faceCount ft] c2f;
      Ok (hang [faceCount ft - 1; faceCount ft] ft, c2f)
  end.

(** The locals of [number]. *)
Record Locals : Type := {
  tX : FaceTable; tY : FaceTable; tZ : FaceTable;
  loc_vol : list Qc;
  loc_c2f : gmap Z (list (list Z))
}.

Definition number_cell (st : Locals) (ind : Z) : Result Locals :=
  w ← _cellH self (Idx ind);
  let vol := loc_vol st ++ [Qcprod w] in
  '(tX, c2f) ← processCell addXFace 0 ind (tX st, loc_c2f st);
  '(tY, c2f) ← processCell addYFace 1 ind (tY st, c2f);
  '(tZ, c2f) ← (if dim self =? 3
                then processCell addZFace 2 ind (tZ st, c2f)
                else Ok (tZ st, c2f));
  Ok {| tX := tX; tY := tY; tZ := tZ; loc_vol := vol; loc_c2f := c2f |}.

Definition number_loop (inds : list Z) : Result Locals :=
  foldM number_cell inds
    {| tX := empty_table; tY := empty_table; tZ := empty_table;
       loc_vol := []; loc_c2f := ∅ |}.
End Numbering.

Definition len {A} (l : list A) : Z := Z.of_nat (length l).

(** The assignments that end [number]. *)
Definition number_store (st : Locals) (self : Tree) : Tree :=
  let d3 := dim self =? 3 in
  let nFx := len (faces (tX st)) in
  let nFy := len (faces (tY st)) in
  let nFz := if d3 then Some (len (faces (tZ st))) else _nFz self in
  {| h := h self; _levels := _levels self; _levelBits := _levelBits self;
     __dirty__ := false;
     _z := _z self; _treeInds := _treeInds self;
     __sortedInds := __sortedInds self;
     _Tree__sortedInds := _Tree__sortedInds self;
     _gridCC := _gridCC self;
     _gridFx := Some (faces (tX st));
     _gridFy := Some (faces (tY st));
     _gridFz := if d3 then Some (faces (tZ st)) else _gridFz self;
     _c2f := Some (loc_c2f st);
     _area := Some (ft_area (tX st) ++ ft_area (tY st)
                    ++ (if d3 then ft_area (tZ st) else []));
     _vol := Some (loc_vol st);
     _hangingFacesX := Some (hangingFaces (tX st));
     _hangingFacesY := Some (hangingFaces (tY st));
     _hangingFacesZ := if d3 then Some (hangingFaces (tZ st))
                       else _hangingFacesZ self;
     _nC := Some (len (sorted (_treeInds self)));
     _nFx := Some nFx; _nFy := Some nFy; _nFz := nFz;
     _nF := Some (nFx + nFy + (if d3 then default 0 nFz else 0));
     _faceDiv := _faceDiv self |}.

Local Open Scope M_scope.

Definition number (fuel : nat) (force : bool) : M unit :=
  dirty <- liftM (fun self => Ok (__dirty__ self)) ;;
  if negb dirty && negb force then retM tt else
  inds <- _sortedInds ;;
  st <- liftM (fun self => number_loop self fuel inds) ;;
  modifyM (number_store st).

(** ** The properties *)

Section Getters.
Variable fuel : nat.

Definition nF : M Z := number fuel false ;; liftM (fun self => attr (_nF self)).
Definition nFx : M Z := number fuel false ;; liftM (fun self => attr (_nFx self)).
Definition nFy : M Z := number fuel false ;; liftM (fun self => attr (_nFy self)).
Definition nFz : M (option Z) :=
  number fuel false ;;
  liftM (fun self => if dim self <? 3 then Ok None else Some <$> attr (_nFz self)).

Definition vol : M (list Qc) :=
  number fuel false ;; liftM (fun self => attr (_vol self)).
Definition area : M (list Qc) :=
  number fuel false ;; liftM (fun self => attr (_area self)).

Definition gridCC : M Grid :=
  cached <- liftM (fun self => Ok (_gridCC self)) ;;
  match cached with
  | Some g => retM g
  | None =>
      inds <- _sortedInds ;;
      rows <- liftM (fun self => mapM (fun ind =>
                p ← _asPointer self (Idx ind); _cellC self (Ptr p)) inds) ;;
      modifyM (set_gridCC rows) ;;
      retM rows
  end.

Definition gridFx : M Grid :=
  cached <- liftM (fun self => Ok (_gridFx self)) ;;
  (if cached is None then number fuel false else retM tt) ;;
  liftM (fun self => attr (_gridFx self)).

Definition gridFy : M Grid :=
  cached <- liftM (fun self => Ok (_gridFy self)) ;;
  (if cached is None then number fuel false else retM tt) ;;
  liftM (fun self => attr (_gridFy self)).

Definition gridFz : M (option Grid) :=
  d <- liftM (fun self => Ok (dim self)) ;;
  if d <? 3 then retM None else
  cached <- liftM (fun self => Ok (_gridFz self)) ;;
  (if cached is None then number fuel false else retM tt) ;;
  liftM (fun self => Some <$> attr (_gridFz self)).

(** The triplets [(I, J, V)] of the raw incidence. *)
Definition incidence_row (offset PM : list Z) (ii : Z) (faces : list (list Z))
    : list (Z * Z * Z) :=
  concat (map (fun '(off, (pm, face)) =>
                 map (fun f => (ii, f + off, pm)) face)
              (zip offset (zip PM faces))).

Definition faceDiv : M Matrix :=
  cached <- liftM (fun self => Ok (_faceDiv self)) ;;
  match cached with
  | Some m => retM m
  | None =>
      number fuel false ;;
      d <- liftM (fun self => Ok (dim self)) ;;
      let PM := concat (replicate (Z.to_nat d) [-1; 1]) in
      (* [self.nFx] and [self.nFy], read once each: after [number] the
         properties return the stored counts *)
      nfx <- nFx ;;
      nfy <- nFy ;;
      let offset := [0; 0; nfx; nfx; nfx + nfy; nfx + nfy] in
      inds <- _sortedInds ;;
      entries <- liftM (fun self =>
        c2f ← attr (_c2f self);
        foldM (fun IJV '(ii, ind) =>
                 match (c2f : gmap Z (list (list Z))) !! ind with
                 | Some faces => Ok (IJV ++ incidence_row offset PM ii faces)
                 | None => Raise KeyError
                 end) (enumerate inds) []) ;;
      VOL <- vol ;;
      n <- liftM (fun self => Ok (nC self)) ;;
      m <- nF ;;
      D <- liftM (fun _ => csr_matrix entries n m) ;;
      S <- area ;;
      fd <- liftM (fun _ =>
              VD ← mat_mul (sdiag (map (fun v => 1 / v)%Qc VOL)) D;
              mat_mul VD (sdiag S)) ;;
      modifyM (set_faceDiv fd) ;;
      retM fd
  end.
End Getters.

Local Close Scope M_scope.

(** * Proofs *)

(** ** Lists and loops *)

Lemma elem_of_range n x : x ∈ range n <-> 0 <= x < n.
Proof.
  unfold range. rewrite list_elem_of_fmap. split.
  - intros (k & -> & Hk). apply elem_of_seq in Hk. lia.
  - intros H. exists (Z.to_nat x). split; [lia|]. apply elem_of_seq. lia.
Qed.

Lemma length_range n : length (range n) = Z.to_nat n.
Proof. unfold range. by rewrite length_map, length_seq. Qed.

Lemma lookup_range n i : (i < Z.to_nat n)%nat -> range n !! i = Some (Z.of_nat i).
Proof.
  intros H. unfold range. rewrite list_lookup_fmap, lookup_seq_lt by done. done.
Qed.

(** [p[k]], 0 outside the list *)
Definition coord (p : list Z) (k : Z) : Z := default 0 (p !! Z.to_nat k).

Lemma py_get_Ok {A} (l : list A) (i : Z) (x : A) :
  0 <= i -> l !! Z.to_nat i = Some x -> py_get l i = Ok x.
Proof.
  intros Hi Hx. unfold py_get.
  assert (Hlt := lookup_lt_Some _ _ _ Hx).
  destruct (Z.ltb_spec i 0); [lia|].
  destruct (Z.leb_spec 0 i); [|lia].
  destruct (Z.ltb_spec i (Z.of_nat (length l))); [|lia].
  simpl. by rewrite Hx.
Qed.

Lemma py_get_coord (p : list Z) (i : Z) :
  0 <= i < Z.of_nat (length p) -> py_get p i = Ok (coord p i).
Proof.
  intros Hi. destruct (lookup_lt_is_Some_2 p (Z.to_nat i)) as [x Hx]; [lia|].
  unfold coord. rewrite Hx. apply py_get_Ok; [lia|done].
Qed.

Lemma py_update_Ok {A} (l : list A) (i : Z) (f : A -> A) (x : A) :
  0 <= i -> l !! Z.to_nat i = Some x ->
  py_update l i f = Ok (<[Z.to_nat i := f x]> l).
Proof.
  intros Hi Hx. unfold py_update. rewrite (py_get_Ok l i x) by done. simpl.
  destruct (Z.ltb_spec i 0); [lia|]. done.
Qed.

Lemma coord_insert (p : list Z) (j k : Z) (v : Z) :
  0 <= j < Z.of_nat (length p) -> 0 <= k ->
  coord (<[Z.to_nat j := v]> p) k = if j =? k then v else coord p k.
Proof.
  intros Hj Hk. unfold coord. destruct (Z.eqb_spec j k) as [->|Hne].
  - rewrite list_lookup_insert_eq by lia. done.
  - rewrite list_lookup_insert_ne by lia. done.
Qed.

Lemma coord_reverse (p : list Z) (k : Z) :
  0 <= k < Z.of_nat (length p) ->
  coord (reverse p) k = coord p (Z.of_nat (length p) - 1 - k).
Proof.
  intros Hk. unfold coord.
  rewrite reverse_lookup by lia. do 2 f_equal. lia.
Qed.

Lemma list_eq_coord (p q : list Z) :
  length p = length q ->
  (forall k, 0 <= k < Z.of_nat (length p) -> coord p k = coord q k) -> p = q.
Proof.
  intros Hlen H. apply list_eq. intros i.
  destruct (decide (i < length p)%nat) as [Hi|Hi].
  - specialize (H (Z.of_nat i)). unfold coord in H. rewrite Nat2Z.id in H.
    destruct (lookup_lt_is_Some_2 p i Hi) as [x Hx].
    destruct (lookup_lt_is_Some_2 q i ltac:(lia)) as [y Hy].
    rewrite Hx, Hy in *. simpl in H. f_equal. apply H. lia.
  - rewrite !lookup_ge_None_2 by lia. done.
Qed.

(** ** Bits *)

Lemma land_shiftr_1 x k : 0 <= k ->
  Z.land (Z.shiftr x k) 1 = Z.b2z (Z.testbit x k).
Proof.
  intros Hk. change 1 with (Z.ones 1). rewrite Z.land_ones by lia.
  change (2 ^ 1) with 2. rewrite <- Z.bit0_mod. f_equal.
  rewrite Z.shiftr_spec by lia. f_equal.
Qed.

Lemma testbit_lor_bit acc (beta : bool) i n : 0 <= i -> 0 <= n ->
  Z.testbit (Z.lor acc (Z.shiftl (Z.b2z beta) i)) n
  = Z.testbit acc n || ((i =? n) && beta).
Proof.
  intros Hi Hn. rewrite Z.lor_spec. f_equal.
  rewrite Z.shiftl_spec by lia.
  destruct (Z.eqb_spec i n) as [->|Hne].
  - rewrite Z.sub_diag. destruct beta; reflexivity.
  - destruct (Z.lt_ge_cases n i).
    + rewrite Z.testbit_neg_r by lia. done.
    + destruct beta; simpl.
      * change 1 with (2 ^ 0). rewrite Z.pow2_bits_eqb by lia.
        destruct (Z.eqb_spec 0 (n - i)); [lia|done].
      * apply Z.bits_0.
Qed.

Lemma bitrange_bit x width i : 0 <= width - (i + 1) ->
  bitrange x width i (i + 1) = Z.b2z (Z.testbit x (width - (i + 1))).
Proof.
  intros H. unfold bitrange. replace (i + 1 - i) with 1 by lia.
  change (2 ^ 1 - 1) with 1. by apply land_shiftr_1.
Qed.

Lemma pow2_levelBits s : 0 <= s -> 2 * s + 1 <= 2 ^ (s + 1) /\ s * s < 2 ^ (s + 1).
Proof.
  intros Hs. pattern s. apply natlike_ind; [done| |done].
  intros x Hx [IH1 IH2]. replace (Z.succ x + 1) with (Z.succ (x + 1)) by lia.
  rewrite Z.pow_succ_r by lia.
  assert (2 ^ 1 <= 2 ^ (x + 1)) by (apply Z.pow_le_mono_r; lia).
  change (2 ^ 1) with 2 in *. split; nia.
Qed.

Lemma level_lt_levelBits L l : 0 <= l <= L -> l < 2 ^ (Z.sqrt_up L + 1).
Proof.
  intros H. destruct (Z.eq_dec L 0) as [->|Hn].
  - assert (l = 0) by lia. subst. done.
  - destruct (Z.sqrt_up_spec L) as [_ Hup]; [lia|].
    assert (Hs := Z.sqrt_up_nonneg L).
    destruct (pow2_levelBits (Z.sqrt_up L) Hs) as [_ H2].
    unfold Z.square in Hup. lia.
Qed.

(** ** The Morton codec *)

Section Codec.
Variable z : ZCurve.
Let d := dimension z.
Let b := bits z.
Hypothesis Hd : 0 < d.
Hypothesis Hb : 0 <= b.

Lemma div_mod_flip j : 0 <= j < b * d ->
  (b * d - j - 1) mod d = d - 1 - j mod d /\
  (b * d - j - 1) / d = b - 1 - j / d.
Proof.
  intros Hj.
  assert (Hm := Z.mod_pos_bound j d Hd).
  assert (Hq := Z.div_mod j d ltac:(lia)).
  assert (b * d - j - 1 = d * (b - 1 - j / d) + (d - 1 - j mod d)) as E by lia.
  split.
  - symmetry. apply (Z.mod_unique _ _ (b - 1 - j / d)); [lia|done].
  - symmetry. apply (Z.div_unique _ _ _ (d - 1 - j mod d)); [lia|done].
Qed.

Definition index_bit (p : list Z) (idx i : Z) : Z :=
  Z.lor idx (Z.shiftl (Z.b2z (Z.testbit (coord p (i mod d)) (i / d))) i).

Lemma index_step_Ok p idx i :
  Z.of_nat (length p) = d -> 0 <= i < b * d ->
  index_step z (reverse p) idx i = Ok (index_bit p idx i).
Proof.
  intros Hlen Hi. unfold index_step. fold d b.
  assert (Hm := Z.mod_pos_bound i d Hd).
  assert (0 <= i / d < b) by (split; [apply Z.div_pos; lia|apply Z.div_lt_upper_bound; lia]).
  rewrite py_get_coord by (rewrite length_reverse; lia). simpl.
  rewrite coord_reverse by lia. rewrite Hlen.
  replace (d - 1 - (d - i mod d - 1)) with (i mod d) by lia.
  rewrite bitrange_bit by lia.
  replace (b - (b - i / d - 1 + 1)) with (i / d) by lia. done.
Qed.

Lemma index_loop_Ok p l idx :
  Z.of_nat (length p) = d -> Forall (fun i => 0 <= i < b * d) l ->
  foldM (index_step z (reverse p)) l idx = Ok (fold_left (index_bit p) l idx).
Proof.
  intros Hlen Hl. revert idx. induction Hl as [|i l Hi Hl IH]; intros idx; [done|].
  simpl. rewrite index_step_Ok by done. simpl. apply IH.
Qed.

Lemma index_loop_testbit p l idx n :
  Forall (fun i => 0 <= i) l -> 0 <= n ->
  Z.testbit (fold_left (index_bit p) l idx) n
  = Z.testbit idx n
    || (bool_decide (n ∈ l) && Z.testbit (coord p (n mod d)) (n / d)).
Proof.
  intros Hl Hn. revert idx. induction Hl as [|i l Hi Hl IH]; intros idx; simpl.
  - by rewrite orb_false_r.
  - rewrite IH. unfold index_bit. rewrite testbit_lor_bit by lia.
    destruct (Z.eqb_spec i n) as [->|Hne].
    + rewrite (bool_decide_eq_true_2 (n ∈ n :: l)) by left.
      destruct (Z.testbit idx n), (Z.testbit _ (n / d)), (bool_decide (n ∈ l)); done.
    + rewrite andb_false_l, orb_false_r. f_equal. f_equal.
      apply bool_decide_ext. rewrite elem_of_cons.
      split; [by right|intros [?|?]; [congruence|done]].
Qed.

(** The index is the interleaving of the coordinates' bits. *)
Lemma index_Ok p :
  Z.of_nat (length p) = d ->
  exists idx, index z p = Ok idx /\
    forall n, 0 <= n ->
      Z.testbit idx n = (n <? b * d) && Z.testbit (coord p (n mod d)) (n / d).
Proof.
  intros Hlen. eexists. split.
  - unfold index. apply index_loop_Ok; [done|].
    apply Forall_forall. intros i Hi. by apply elem_of_range.
  - intros n Hn. rewrite index_loop_testbit; [|apply Forall_forall; intros i Hi; apply elem_of_range in Hi; lia|done].
    rewrite Z.bits_0. simpl. f_equal.
    destruct (Z.ltb_spec n (b * d)).
    + apply bool_decide_eq_true_2, elem_of_range. fold b d. lia.
    + apply bool_decide_eq_false_2. rewrite elem_of_range. fold b d. lia.
Qed.

Definition point_bit (idx : Z) (p : list Z) (i : Z) : list Z :=
  <[Z.to_nat (i mod d) :=
      Z.lor (coord p (i mod d))
            (Z.shiftl (Z.b2z (Z.testbit idx (b * d - i - 1)))
                      ((b * d - i - 1) / d))]> p.

Lemma length_point_bit idx p i : length (point_bit idx p i) = length p.
Proof. apply length_insert. Qed.

Lemma point_step_Ok idx p i :
  Z.of_nat (length p) = d -> 0 <= i < b * d ->
  point_step z idx (b * d) p i = Ok (point_bit idx p i).
Proof.
  intros Hlen Hi. unfold point_step. fold d.
  assert (Hm := Z.mod_pos_bound i d Hd).
  destruct (lookup_lt_is_Some_2 p (Z.to_nat (i mod d))) as [x Hx]; [lia|].
  rewrite (py_update_Ok _ _ _ x) by (done || lia).
  unfold point_bit, coord. rewrite Hx. simpl.
  rewrite bitrange_bit by lia.
  replace (b * d - (i + 1)) with (b * d - i - 1) by lia. done.
Qed.

Lemma point_loop_Ok idx l p :
  Z.of_nat (length p) = d -> Forall (fun i => 0 <= i < b * d) l ->
  foldM (point_step z idx (b * d)) l p = Ok (fold_left (point_bit idx) l p).
Proof.
  intros Hlen Hl. revert p Hlen.
  induction Hl as [|i l Hi Hl IH]; intros p Hlen; [done|].
  simpl. rewrite point_step_Ok by done. simpl.
  apply IH. by rewrite length_point_bit.
Qed.

Lemma length_point_loop idx l p :
  length (fold_left (point_bit idx) l p) = length p.
Proof.
  revert p. induction l as [|i l IH]; intros p; [done|].
  simpl. by rewrite IH, length_point_bit.
Qed.

Definition takes_bit (idx k m i : Z) : bool :=
  (i mod d =? k) && ((b * d - i - 1) / d =? m) && Z.testbit idx (b * d - i - 1).

Lemma point_loop_testbit idx l p k m :
  Z.of_nat (length p) = d -> Forall (fun i => 0 <= i < b * d) l ->
  0 <= k < d -> 0 <= m ->
  Z.testbit (coord (fold_left (point_bit idx) l p) k) m
  = Z.testbit (coord p k) m || existsb (takes_bit idx k m) l.
Proof.
  intros Hlen Hl Hk Hm. revert p Hlen.
  induction Hl as [|i l Hi Hl IH]; intros p Hlen; simpl.
  - by rewrite orb_false_r.
  - rewrite IH by (by rewrite length_point_bit).
    rewrite orb_assoc. f_equal.
    assert (Hmod := Z.mod_pos_bound i d Hd).
    destruct (div_mod_flip i Hi) as [_ Hq].
    assert (0 <= i / d < b)
      by (split; [apply Z.div_pos; lia|apply Z.div_lt_upper_bound; lia]).
    unfold point_bit, takes_bit. rewrite coord_insert by lia.
    destruct (Z.eqb_spec (i mod d) k) as [E|E].
    + rewrite testbit_lor_bit by lia. by rewrite E.
    + by rewrite orb_false_r.
Qed.

Lemma takes_bit_range idx k m :
  0 <= k < d -> 0 <= m ->
  existsb (takes_bit idx k m) (range (b * d))
  = (m <? b) && Z.testbit idx (m * d + (d - 1 - k)).
Proof.
  intros Hk Hm. apply eq_iff_eq_true.
  rewrite existsb_exists, andb_true_iff, Z.ltb_lt. split.
  - intros (i & Hi & Ht). apply list_elem_of_In, elem_of_range in Hi.
    unfold takes_bit in Ht. apply andb_true_iff in Ht as [Ht Hbit].
    apply andb_true_iff in Ht as [Hr Hq].
    apply Z.eqb_eq in Hr, Hq.
    destruct (div_mod_flip i Hi) as [Hfm Hfq].
    assert (Hdm := Z.div_mod (b * d - i - 1) d ltac:(lia)).
    assert (0 <= i / d) by (apply Z.div_pos; lia).
    split; [lia|].
    replace (m * d + (d - 1 - k)) with (b * d - i - 1); [done|].
    rewrite Hdm at 1. rewrite Hq, Hfm, Hr. lia.
  - intros [Hmb Hbit].
    set (j := m * d + (d - 1 - k)) in *.
    assert (0 <= j < b * d) as Hj by (unfold j; nia).
    assert (j mod d = d - 1 - k) as Hjm
      by (symmetry; apply (Z.mod_unique _ _ m); unfold j; lia).
    assert (j / d = m) as Hjq
      by (symmetry; apply (Z.div_unique _ _ _ (d - 1 - k)); unfold j; lia).
    exists (b * d - j - 1). split.
    + apply list_elem_of_In, elem_of_range. lia.
    + unfold takes_bit. destruct (div_mod_flip j Hj) as [Hfm Hfq].
      replace (b * d - (b * d - j - 1) - 1) with j by lia.
      rewrite Hfm, Hjm, Hjq, Hbit.
      rewrite !(proj2 (Z.eqb_eq _ _)) by lia. done.
Qed.

(** A coordinate takes every [d]-th bit of the index. *)
Lemma point_Ok idx :
  exists p, point z idx = Ok p /\ Z.of_nat (length p) = d /\
    forall k m, 0 <= k < d -> 0 <= m ->
      Z.testbit (coord p k) m = (m <? b) && Z.testbit idx (m * d + k).
Proof.
  assert (Forall (fun i => 0 <= i < b * d) (range (b * d))) as Hr
    by (apply Forall_forall; intros i Hi; by apply elem_of_range).
  assert (Z.of_nat (length (replicate (Z.to_nat d) 0)) = d) as H0
    by (rewrite length_replicate; lia).
  eexists. split; [|split].
  - unfold point. fold d b. rewrite point_loop_Ok by done. done.
  - rewrite length_reverse, length_point_loop. done.
  - intros k m Hk Hm.
    rewrite coord_reverse by (rewrite length_point_loop; lia).
    rewrite length_point_loop, H0.
    rewrite point_loop_testbit by (done || lia).
    rewrite takes_bit_range by lia.
    replace (coord (replicate (Z.to_nat d) 0) (d - 1 - k)) with 0.
    + rewrite Z.bits_0. simpl. do 2 f_equal. lia.
    + unfold coord. rewrite lookup_replicate_2 by lia. done.
Qed.

Lemma point_index p :
  Z.of_nat (length p) = d -> Forall (fun c => 0 <= c < 2 ^ b) p ->
  exists idx, index z p = Ok idx /\ 0 <= idx /\ point z idx = Ok p.
Proof.
  intros Hlen Hp.
  destruct (index_Ok p Hlen) as (idx & Hidx & Hbits).
  destruct (point_Ok idx) as (q & Hq & Hlq & Hqbits).
  exists idx. split; [done|]. split.
  - apply Z.bits_iff_nonneg_ex. exists (b * d). intros n Hn.
    rewrite Hbits by nia. destruct (Z.ltb_spec n (b * d)); [lia|done].
  - rewrite Hq. f_equal. apply list_eq_coord; [lia|].
    intros k Hk. apply Z.bits_inj'. intros m Hm.
    rewrite Hqbits by lia.
    assert (0 <= coord p k < 2 ^ b) as Hc.
    { unfold coord. destruct (lookup_lt_is_Some_2 p (Z.to_nat k)) as [c Hc]; [lia|].
      rewrite Hc. simpl. eapply Forall_lookup_1 in Hp; [|done]. done. }
    destruct (Z.ltb_spec m b) as [Hmb|Hmb]; simpl.
    + rewrite Hbits by nia.
      assert ((m * d + k) mod d = k) as ->
        by (symmetry; apply (Z.mod_unique _ _ m); lia).
      assert ((m * d + k) / d = m) as ->
        by (symmetry; apply (Z.div_unique _ _ _ k); lia).
      destruct (Z.ltb_spec (m * d + k) (b * d)); [done|nia].
    + symmetry. rewrite <- (Z.mod_small (coord p k) (2 ^ b)) by lia.
      apply Z.mod_pow2_bits_high. lia.
Qed.
End Codec.

(** ** Pointers and indices of a mesh *)

(** What the constructor establishes and no method changes. *)
Definition constructed (t : Tree) : Prop :=
  1 < dim t /\ 0 <= levels t /\
  _z t = {| dimension := dim t; bits := 20 |} /\
  _levelBits t = Z.sqrt_up (levels t) + 1.

Lemma py_last_snoc p l : py_last (p ++ [l]) = Ok l.
Proof. unfold py_last. by rewrite last_snoc. Qed.

Lemma py_init_snoc p l : py_init (p ++ [l]) = p.
Proof. unfold py_init. apply removelast_last. Qed.

Lemma _index_snoc t coords l :
  Z.of_nat (length coords) = dim t -> l <= levels t ->
  _index t (coords ++ [l])
  = x ← index (_z t) coords; Ok (Z.shiftl x (_levelBits t) + l).
Proof.
  intros Hlen Hl. unfold _index.
  rewrite length_app, py_last_snoc, py_init_snoc. simpl.
  rewrite (proj2 (Z.eqb_eq _ _)) by lia. simpl.
  rewrite (proj2 (Z.leb_le _ _)) by lia. done.
Qed.

Lemma unpack_level x B l : 0 <= B -> 0 <= l < 2 ^ B ->
  Z.land (Z.shiftl x B + l) (2 ^ B - 1) = l /\
  Z.shiftr (Z.shiftl x B + l) B = x.
Proof.
  intros HB Hl. rewrite Z.shiftl_mul_pow2, Z.shiftr_div_pow2 by lia.
  change (2 ^ B - 1) with (Z.pred (2 ^ B)). rewrite <- Z.ones_equiv.
  rewrite Z.land_ones by lia. split.
  - rewrite Z.add_comm, Z.mod_add by lia. apply Z.mod_small. lia.
  - rewrite Z.div_add_l by lia. rewrite Z.div_small by lia. lia.
Qed.

Lemma _pointer_index t coords l :
  constructed t ->
  Z.of_nat (length coords) = dim t -> 0 <= l <= levels t ->
  Forall (fun c => 0 <= c < 2 ^ 20) coords ->
  exists x, index (_z t) coords = Ok x /\ 0 <= x /\
    _index t (coords ++ [l]) = Ok (Z.shiftl x (_levelBits t) + l) /\
    _pointer t (Z.shiftl x (_levelBits t) + l) = Ok (coords ++ [l]).
Proof.
  intros (Hd & HL & Hz & HB) Hlen Hl Hc.
  assert (dimension (_z t) = dim t) as Hdz by (by rewrite Hz).
  assert (bits (_z t) = 20) as Hbz by (by rewrite Hz).
  destruct (point_index (_z t) ltac:(lia) ltac:(lia) coords)
    as (x & Hx & Hx0 & Hp); [lia|by rewrite Hbz|].
  exists x. split; [done|]. split; [done|].
  assert (0 <= _levelBits t) by (rewrite HB; pose proof (Z.sqrt_up_nonneg (levels t)); lia).
  assert (l < 2 ^ _levelBits t) by (rewrite HB; by apply level_lt_levelBits).
  destruct (unpack_level x (_levelBits t) l) as [E1 E2]; [lia..|].
  split.
  - rewrite _index_snoc by lia. rewrite Hx. done.
  - unfold _pointer. rewrite E1, E2, Hp. done.
Qed.

(** C1: decoding the index of a valid pointer gives the pointer back; the
    index carries the level in its low [_levelBits] bits and above them the
    interleaved bits of the coordinates, bit [n] being bit [n / dim] of
    coordinate [n mod dim]. *)
Theorem pointer_of_index_of_pointer (t : Tree) (coords : list Z) (l : Z) :
  constructed t ->
  Z.of_nat (length coords) = dim t ->
  0 <= l <= levels t ->
  Forall (fun c => 0 <= c < 2 ^ 20) coords ->
  exists i, _index t (coords ++ [l]) = Ok i /\
    _pointer t i = Ok (coords ++ [l]) /\
    Z.land i (2 ^ _levelBits t - 1) = l /\
    forall n, 0 <= n ->
      Z.testbit (Z.shiftr i (_levelBits t)) n
      = (n <? 20 * dim t) && Z.testbit (coord coords (n mod dim t)) (n / dim t).
Proof.
  intros Ht Hlen Hl Hc.
  destruct (_pointer_index t coords l Ht Hlen Hl Hc) as (x & Hx & Hx0 & Hi & Hp).
  destruct Ht as (Hd & HL & Hz & HB).
  exists (Z.shiftl x (_levelBits t) + l). split; [done|]. split; [done|].
  assert (0 <= _levelBits t) by (rewrite HB; pose proof (Z.sqrt_up_nonneg (levels t)); lia).
  assert (l < 2 ^ _levelBits t) by (rewrite HB; by apply level_lt_levelBits).
  destruct (unpack_level x (_levelBits t) l) as [E1 E2]; [lia..|].
  split; [done|]. rewrite E2.
  assert (dimension (_z t) = dim t) as Hdz by (by rewrite Hz).
  assert (bits (_z t) = 20) as Hbz by (by rewrite Hz).
  destruct (index_Ok (_z t) ltac:(lia) coords)
    as (x' & Hx' & Hbits); [lia|].
  rewrite Hdz, Hbz in Hbits.
  assert (x' = x) as -> by congruence. done.
Qed.

Definition S1_h : list (list Qc) := [ones_over 4; ones_over 4].

Lemma new_tree_constructed hs L :
  1 < Z.of_nat (length hs) -> 0 <= L -> constructed (new_tree hs L).
Proof. intros. repeat split; simpl; unfold dim, levels; simpl; lia. Qed.

Lemma pointer_of_index_of_pointer_witness :
  exists i, _index (new_tree S1_h 2) ([2; 0] ++ [1]) = Ok i /\
    _pointer (new_tree S1_h 2) i = Ok ([2; 0] ++ [1]) /\
    Z.land i (2 ^ _levelBits (new_tree S1_h 2) - 1) = 1 /\
    forall n, 0 <= n ->
      Z.testbit (Z.shiftr i (_levelBits (new_tree S1_h 2))) n
      = (n <? 20 * dim (new_tree S1_h 2))
        && Z.testbit (coord [2; 0] (n mod dim (new_tree S1_h 2)))
                     (n / dim (new_tree S1_h 2)).
Proof.
  apply (pointer_of_index_of_pointer (new_tree S1_h 2) [2; 0] 1).
  - apply new_tree_constructed; simpl; lia.
  - reflexivity.
  - unfold levels; simpl; lia.
  - repeat constructor; lia.
Defined.

(** ** Running the methods *)

Lemma bindM_Ok {A B} (m : M A) (f : A -> M B) t a t' :
  m t = (Ok a, t') -> bindM m f t = f a t'.
Proof. intros H. unfold bindM. by rewrite H. Qed.

Lemma bindM_Raise {A B} (m : M A) (f : A -> M B) t e t' :
  m t = (Raise e, t') -> bindM m f t = (Raise e, t').
Proof. intros H. unfold bindM. by rewrite H. Qed.

Lemma bindM_liftM_Ok {A B} (r : Tree -> Result A) (f : A -> M B) t a :
  r t = Ok a -> bindM (liftM r) f t = f a t.
Proof. intros H. unfold bindM, liftM. by rewrite H. Qed.

Lemma bindM_liftM_Raise {A B} (r : Tree -> Result A) (f : A -> M B) t e :
  r t = Raise e -> bindM (liftM r) f t = (Raise e, t).
Proof. intros H. unfold bindM, liftM. by rewrite H. Qed.

(** The part of the mesh that the readers of pointers and widths look at. *)
Definition frame (t : Tree) : list (list Qc) * Z * Z * ZCurve :=
  (h t, _levels t, _levelBits t, _z t).

Lemma frame_dim t t' : frame t' = frame t -> dim t' = dim t.
Proof. intros [= Hh _ _ _]. unfold dim. by rewrite Hh. Qed.

Lemma frame_levels t t' : frame t' = frame t -> levels t' = levels t.
Proof. by intros [= _ HL _ _]. Qed.

Lemma _index_frame t t' p : frame t' = frame t -> _index t' p = _index t p.
Proof.
  intros [= Hh HL HB Hz]. unfold _index, dim, levels. by rewrite Hh, HL, HB, Hz.
Qed.

Lemma _pointer_frame t t' i : frame t' = frame t -> _pointer t' i = _pointer t i.
Proof. intros [= Hh HL HB Hz]. unfold _pointer. by rewrite HB, Hz. Qed.

Lemma _asPointer_frame t t' c :
  frame t' = frame t -> _asPointer t' c = _asPointer t c.
Proof. intros H. destruct c; simpl; [by apply _pointer_frame|done]. Qed.

Lemma _levelWidth_frame t t' l :
  frame t' = frame t -> _levelWidth t' l = _levelWidth t l.
Proof. intros [= Hh HL HB Hz]. unfold _levelWidth, levels. by rewrite HL. Qed.

Lemma constructed_frame t t' : frame t' = frame t -> constructed t -> constructed t'.
Proof.
  intros H (Hd & HL & Hz & HB). pose proof H as [= Hh HL' HB' Hz'].
  unfold constructed. rewrite (frame_dim _ _ H), (frame_levels _ _ H).
  rewrite Hz', HB'. done.
Qed.

Definition structure_changed (t : Tree) : Tree :=
  if __dirty__ t then t else set_dirty true (delete_these t).

Lemma _structureChange_run t : _structureChange t = (Ok tt, structure_changed t).
Proof. unfold _structureChange, structure_changed. by destruct (__dirty__ t). Qed.

Lemma structure_changed_frame t : frame (structure_changed t) = frame t.
Proof. unfold structure_changed. by destruct (__dirty__ t). Qed.

Lemma structure_changed_treeInds t :
  _treeInds (structure_changed t) = _treeInds t.
Proof. unfold structure_changed. by destruct (__dirty__ t). Qed.

Lemma structure_changed_dirty t : __dirty__ (structure_changed t) = true.
Proof. unfold structure_changed. by destruct (__dirty__ t) eqn:E. Qed.

Lemma structure_changed_sortedInds t :
  __sortedInds t = None -> __sortedInds (structure_changed t) = None.
Proof. unfold structure_changed. by destruct (__dirty__ t). Qed.

(** ** The index of a pointer, in closed form *)

Definition morton (z : ZCurve) (p : list Z) : Z :=
  fold_left (index_bit z p) (range (bits z * dimension z)) 0.

Definition cell_index (t : Tree) (coords : list Z) (l : Z) : Z :=
  Z.shiftl (morton (_z t) coords) (_levelBits t) + l.

Lemma index_morton z p :
  0 < dimension z -> Z.of_nat (length p) = dimension z ->
  index z p = Ok (morton z p).
Proof.
  intros Hd Hlen. unfold index. apply index_loop_Ok; [done..|].
  apply Forall_forall. intros i Hi. by apply elem_of_range.
Qed.

Lemma _index_cell t coords l :
  constructed t -> Z.of_nat (length coords) = dim t -> l <= levels t ->
  _index t (coords ++ [l]) = Ok (cell_index t coords l).
Proof.
  intros (Hd & HL & Hz & HB) Hlen Hl. rewrite _index_snoc by done.
  rewrite index_morton; [done|rewrite Hz; simpl; lia..].
Qed.

Lemma cell_index_frame t t' coords l :
  frame t' = frame t -> cell_index t' coords l = cell_index t coords l.
Proof. intros [= Hh HL HB Hz]. unfold cell_index. by rewrite HB, Hz. Qed.

(** What [_index] accepts *)
Lemma _index_Ok_inv t p i :
  _index t p = Ok i ->
  exists coords l, p = coords ++ [l] /\ Z.of_nat (length coords) = dim t /\
    l <= levels t.
Proof.
  unfold _index. intros H.
  destruct (Z.eqb_spec (Z.of_nat (length p)) (dim t + 1)) as [Hlen|]; [|done].
  simpl in H. destruct p as [|x p] using rev_ind; [simpl in Hlen; unfold dim in Hlen; lia|].
  clear IHp. rewrite py_last_snoc in H. simpl in H.
  destruct (Z.leb_spec x (levels t)); [|done].
  exists p, x. rewrite length_app in Hlen. simpl in Hlen. split; [done|]. lia.
Qed.

Lemma _index_level_Raise t coords l :
  levels t < l -> exists e, _index t (coords ++ [l]) = Raise e.
Proof.
  intros Hl. unfold _index.
  destruct (Z.eqb (Z.of_nat (length (coords ++ [l]))) (dim t + 1)); simpl; [|eauto].
  rewrite py_last_snoc. simpl.
  destruct (Z.leb_spec l (levels t)); [lia|]. simpl. eauto.
Qed.

(** ** Refining one cell *)

Definition child_offsets (d hw : Z) : list (list Z) :=
  [py_slice [0; 0; 0] 0 d; py_slice [hw; 0; 0] 0 d;
   py_slice [0; hw; 0] 0 d; py_slice [hw; hw; 0] 0 d]
  ++ (if d =? 3 then [[0; 0; hw]; [hw; 0; hw]; [0; hw; hw]; [hw; hw; hw]]
      else []).

(** The indices [_refineCell] adds, in the order it adds them. *)
Definition children (t : Tree) (coords : list Z) (l : Z) : list Z :=
  map (fun off => cell_index t (zip_with Z.add coords off) (l + 1))
      (child_offsets (dim t) (_levelWidth t l / 2)).

(** [ind in self], for the cell the argument of [_refineCell] names *)
Definition target_live (t : Tree) (c : cellref) : Prop :=
  exists p, _asPointer t c = Ok p /\ contains t (Ptr p) = Ok true.

Definition target_level (t : Tree) (c : cellref) : Result Z :=
  p ← _asPointer t c; py_last p.

Lemma bindM_addCell {B} t0 t nL added p (f : list Z -> M B) :
  frame t = frame t0 -> constructed t0 ->
  Z.of_nat (length p) = dim t0 -> nL <= levels t0 ->
  bindM (addCell nL added p) f t
  = f (added ++ [cell_index t0 p nL])
      (set_treeInds (_treeInds t ∪ {[ cell_index t0 p nL ]}) t).
Proof.
  intros F C Hlen HnL. unfold addCell, bindM, liftM, modifyM, retM.
  rewrite (_index_frame t0) by done. by rewrite _index_cell.
Qed.

Lemma addCell_Raise t nL added p :
  levels t < nL -> exists e, addCell nL added p t = (Raise e, t).
Proof.
  intros HnL. destruct (_index_level_Raise t p nL HnL) as [e He].
  exists e. unfold addCell, bindM, liftM. by rewrite He.
Qed.

Lemma bindM_assoc {A B C} (m : M A) (f : A -> M B) (g : B -> M C) t :
  bindM (bindM m f) g t = bindM m (fun x => bindM (f x) g) t.
Proof. unfold bindM. by destruct (m t) as [[a|e] t']. Qed.

Lemma bindM_retM {A B} (a : A) (f : A -> M B) t : bindM (retM a) f t = f a t.
Proof. done. Qed.

Lemma _treeInds_set s t : _treeInds (set_treeInds s t) = s.
Proof. done. Qed.

Lemma set_treeInds_set s s' t :
  set_treeInds s (set_treeInds s' t) = set_treeInds s t.
Proof. done. Qed.

Lemma py_slice3_2 {A} (a b c : A) : py_slice [a; b; c] 0 2 = [a; b].
Proof. done. Qed.

Lemma py_slice3_3 {A} (a b c : A) : py_slice [a; b; c] 0 3 = [a; b; c].
Proof. done. Qed.

Lemma add_offsets_snoc coords l off :
  add_offsets (coords ++ [l]) off = zip_with Z.add coords off.
Proof. unfold add_offsets. by rewrite py_init_snoc. Qed.

Lemma _refineCell_cases t c :
  constructed t -> dim t = 2 \/ dim t = 3 ->
  (exists coords l ind,
      _asPointer t c = Ok (coords ++ [l]) /\
      Z.of_nat (length coords) = dim t /\
      _index t (coords ++ [l]) = Ok ind /\ ind ∈ _treeInds t /\ l < levels t /\
      _refineCell c t
      = (Ok (children t coords l),
         set_treeInds
           ((_treeInds t ∪ list_to_set (children t coords l)) ∖ {[ ind ]})
           (structure_changed t)))
  \/ (exists e, _refineCell c t = (Raise e, structure_changed t) /\
        (~ target_live t c \/ target_level t c = Ok (levels t))).
Proof.
  intros C Hdim. unfold _refineCell.
  rewrite (bindM_Ok _structureChange _ t tt _ (_structureChange_run t)).
  set (t1 := structure_changed t).
  assert (frame t1 = frame t) as F by apply structure_changed_frame.
  assert (_treeInds t1 = _treeInds t) as S1 by apply structure_changed_treeInds.
  destruct (_asPointer t c) as [p|e] eqn:Hp.
  2:{ right. exists e. split.
      - apply bindM_liftM_Raise. by rewrite (_asPointer_frame t).
      - left. intros (p & Hp' & _). congruence. }
  rewrite (bindM_liftM_Ok _ _ t1 p) by (by rewrite (_asPointer_frame t)).
  destruct (_index t p) as [ind|e] eqn:Hi.
  2:{ right. exists e. split.
      - apply bindM_liftM_Raise. simpl. by rewrite (_index_frame t).
      - left. intros (p' & Hp' & Hc). simpl in Hc.
        assert (p' = p) as -> by congruence. by rewrite Hi in Hc. }
  rewrite (bindM_liftM_Ok _ _ t1 ind) by (simpl; by rewrite (_index_frame t)).
  rewrite (bindM_liftM_Ok _ _ t1 (bool_decide (ind ∈ _treeInds t)))
    by (simpl; by rewrite S1).
  destruct (bool_decide (ind ∈ _treeInds t)) eqn:Hlive.
  2:{ right. exists AssertionError. split; [done|].
      left. intros (p' & Hp' & Hc). simpl in Hc.
      assert (p' = p) as -> by congruence. rewrite Hi in Hc. simpl in Hc.
      congruence. }
  apply bool_decide_eq_true_1 in Hlive.
  rewrite (bindM_liftM_Ok _ _ t1 tt) by done.
  destruct (_index_Ok_inv t p ind Hi) as (coords & l & -> & Hlen & Hl).
  rewrite (bindM_liftM_Ok _ _ t1 l) by apply py_last_snoc.
  rewrite (bindM_liftM_Ok _ _ t1 (dim t)) by (by rewrite (frame_dim _ _ F)).
  rewrite (bindM_liftM_Ok _ _ t1 (_levelWidth t l / 2))
    by (by rewrite (_levelWidth_frame _ _ _ F)).
  set (hw := _levelWidth t l / 2).
  rewrite !add_offsets_snoc.
  destruct (Z.eq_dec l (levels t)) as [->|Hne].
  { right. destruct (addCell_Raise t1 (levels t + 1) []
             (zip_with Z.add coords (py_slice [0; 0; 0] 0 (dim t))))
      as [e He]; [rewrite (frame_levels _ _ F); lia|].
    exists e. split; [by apply bindM_Raise|].
    right. unfold target_level. rewrite Hp. simpl. apply py_last_snoc. }
  left. exists coords, l, ind. repeat (split; [done || lia|]).
  unfold children. fold hw.
  assert (exists x y zs, coords = x :: y :: zs /\
            (dim t = 2 /\ zs = [] \/ dim t = 3 /\ exists z, zs = [z]))
    as (x & y & zs & -> & Hzs).
  { destruct coords as [|x [|y [|z [|? ?]]]]; simpl in Hlen;
      try (exfalso; lia); eauto 10. }
  assert (forall s, frame (set_treeInds s t1) = frame t) as Fs by (intros; exact F).
  destruct Hzs as [[E ->]|[E [z ->]]]; rewrite E; unfold child_offsets;
    rewrite ?py_slice3_2, ?py_slice3_3;
    cbn [Z.eqb Pos.eqb app map zip_with];
    rewrite (bindM_addCell t t1 (l + 1)) by (done || (simpl; lia));
    repeat (first [ rewrite bindM_assoc
                  | rewrite bindM_retM
                  | rewrite (bindM_addCell t (set_treeInds _ t1) (l + 1))
                      by (done || (simpl; lia)) ];
            rewrite ?_treeInds_set, ?set_treeInds_set);
    unfold bindM, retM; rewrite _treeInds_set, set_treeInds_set, S1;
    (rewrite bool_decide_eq_true_2 by set_solver);
    do 2 f_equal; set_solver.
Qed.

Lemma _refineCell_cases_excl t c coords l ind :
  _asPointer t c = Ok (coords ++ [l]) ->
  _index t (coords ++ [l]) = Ok ind -> ind ∈ _treeInds t -> l < levels t ->
  ~ (~ target_live t c \/ target_level t c = Ok (levels t)).
Proof.
  intros Hp Hi Hlive Hl [Hn|Hlev].
  - apply Hn. exists (coords ++ [l]). split; [done|]. simpl. rewrite Hi. simpl.
    by rewrite bool_decide_eq_true_2.
  - unfold target_level in Hlev. rewrite Hp in Hlev. simpl in Hlev.
    rewrite py_last_snoc in Hlev. injection Hlev. lia.
Qed.

(** C7: [_refineCell] raises exactly when the cell it is asked to refine is
    not live or is at the last level; on a live cell below the last level
    it returns. *)
Theorem refineCell_raises_iff (t : Tree) (c : cellref) :
  constructed t -> dim t = 2 \/ dim t = 3 ->
  (is_Ok (fst (_refineCell c t)) = false
   <-> ~ target_live t c \/ target_level t c = Ok (levels t))
  /\ (target_live t c ->
      (exists l, target_level t c = Ok l /\ l < levels t) ->
      is_Ok (fst (_refineCell c t)) = true).
Proof.
  intros C Hdim.
  destruct (_refineCell_cases t c C Hdim)
    as [(coords & l & ind & Hp & Hlen & Hi & Hlive & Hl & Hrun)
       |(e & Hrun & Hwhy)]; rewrite Hrun; simpl.
  - split; [|done]. split; [done|]. intros H. exfalso.
    by eapply _refineCell_cases_excl.
  - split; [done|]. intros Hlive (l & Hlev & Hl). exfalso.
    destruct Hwhy as [Hn|Hlev']; [done|]. rewrite Hlev in Hlev'.
    injection Hlev'. lia.
Qed.

Lemma refineCell_raises_iff_witness :
  (is_Ok (fst (_refineCell (Ptr [0; 0; 0]) (new_tree S1_h 2))) = false
   <-> ~ target_live (new_tree S1_h 2) (Ptr [0; 0; 0])
       \/ target_level (new_tree S1_h 2) (Ptr [0; 0; 0])
          = Ok (levels (new_tree S1_h 2)))
  /\ (target_live (new_tree S1_h 2) (Ptr [0; 0; 0]) ->
      (exists l, target_level (new_tree S1_h 2) (Ptr [0; 0; 0]) = Ok l
                 /\ l < levels (new_tree S1_h 2)) ->
      is_Ok (fst (_refineCell (Ptr [0; 0; 0]) (new_tree S1_h 2))) = true).
Proof.
  apply (refineCell_raises_iff (new_tree S1_h 2) (Ptr [0; 0; 0])).
  - apply new_tree_constructed; simpl; lia.
  - left. reflexivity.
Defined.

(** ** Cells as boxes *)

(** A pointer the codec represents: the right number of coordinates, each
    on 20 bits, and a level of the mesh. *)
Definition in_codec (t : Tree) (coords : list Z) (l : Z) : Prop :=
  Z.of_nat (length coords) = dim t /\ 0 <= l <= levels t /\
  Forall (fun c => 0 <= c < 2 ^ 20) coords.

(** A pointer whose cell lies in the mesh. *)
Definition box_ok (t : Tree) (coords : list Z) (l : Z) : Prop :=
  Z.of_nat (length coords) = dim t /\ 0 <= l <= levels t /\
  Forall (fun c => 0 <= c /\ c + _levelWidth t l <= 2 ^ levels t) coords.

(** Two intervals [[a, a + w1)] and [[b, b + w2)] that do not meet *)
Definition apart (w1 w2 : Z) (ab : Z * Z) : Prop :=
  fst ab + w1 <= snd ab \/ snd ab + w2 <= fst ab.

(** Two cells that are separated along some axis *)
Definition disjoint_boxes (t : Tree) (c1 : list Z) (l1 : Z) (c2 : list Z) (l2 : Z)
    : Prop :=
  Exists (apart (_levelWidth t l1) (_levelWidth t l2)) (zip c1 c2).

Record mesh_ok (t : Tree) : Prop := {
  ok_constructed : constructed t;
  ok_dim : dim t = 2 \/ dim t = 3;
  ok_levels : levels t <= 20;
  ok_cells : forall i, i ∈ _treeInds t ->
    exists coords l, box_ok t coords l /\ i = cell_index t coords l;
  ok_disjoint : forall c1 l1 c2 l2,
    box_ok t c1 l1 -> box_ok t c2 l2 ->
    cell_index t c1 l1 ∈ _treeInds t -> cell_index t c2 l2 ∈ _treeInds t ->
    c1 ++ [l1] <> c2 ++ [l2] -> disjoint_boxes t c1 l1 c2 l2
}.

(** [lia], with the widths taken as unknowns *)
Ltac lia_width :=
  repeat match goal with
         | |- context [_levelWidth ?t ?l] =>
             generalize dependent (_levelWidth t l); intros
         | H : context [_levelWidth ?t ?l] |- _ =>
             generalize dependent (_levelWidth t l); intros
         end;
  lia.

Lemma _levelWidth_pos t l : l <= levels t -> 0 < _levelWidth t l.
Proof. intros. unfold _levelWidth. apply Z.pow_pos_nonneg; lia. Qed.

Lemma _levelWidth_half t l : l < levels t ->
  _levelWidth t l = 2 * (_levelWidth t l / 2) /\ 0 < _levelWidth t l / 2 /\
  _levelWidth t (l + 1) = _levelWidth t l / 2.
Proof.
  intros Hl. unfold _levelWidth.
  replace (levels t - l) with (Z.succ (levels t - (l + 1))) by lia.
  rewrite Z.pow_succ_r by lia.
  rewrite (Z.mul_comm 2), Z.div_mul by lia.
  assert (0 < 2 ^ (levels t - (l + 1))) by (apply Z.pow_pos_nonneg; lia).
  lia.
Qed.

Lemma box_ok_in_codec t coords l :
  levels t <= 20 -> box_ok t coords l -> in_codec t coords l.
Proof.
  intros HL (Hlen & Hl & Hc). repeat split; try done; try lia.
  eapply Forall_impl; [done|]. simpl. intros c [H0 H1].
  pose proof (_levelWidth_pos t l ltac:(lia)).
  assert (2 ^ levels t <= 2 ^ 20) by (apply Z.pow_le_mono_r; lia). lia.
Qed.

Lemma _pointer_cell t coords l :
  constructed t -> in_codec t coords l ->
  _pointer t (cell_index t coords l) = Ok (coords ++ [l]).
Proof.
  intros C (Hlen & Hl & Hc).
  destruct (_pointer_index t coords l C Hlen Hl Hc) as (x & Hx & _ & _ & Hp).
  destruct C as (Hd & HL & Hz & HB).
  rewrite index_morton in Hx by (rewrite Hz; simpl; lia).
  injection Hx as <-. done.
Qed.

Lemma cell_index_inj t c1 l1 c2 l2 :
  constructed t -> in_codec t c1 l1 -> in_codec t c2 l2 ->
  cell_index t c1 l1 = cell_index t c2 l2 -> c1 ++ [l1] = c2 ++ [l2].
Proof.
  intros C H1 H2 E.
  pose proof (_pointer_cell t c1 l1 C H1) as P1.
  pose proof (_pointer_cell t c2 l2 C H2) as P2.
  rewrite E in P1. congruence.
Qed.

Lemma snoc_inj (c1 c2 : list Z) (l1 l2 : Z) :
  c1 ++ [l1] = c2 ++ [l2] -> c1 = c2 /\ l1 = l2.
Proof. intros H. apply app_inj_tail in H. done. Qed.

Lemma box_ok_frame t t' coords l :
  frame t' = frame t -> box_ok t coords l -> box_ok t' coords l.
Proof.
  intros F (Hlen & Hl & Hc). unfold box_ok.
  rewrite (frame_dim _ _ F), (frame_levels _ _ F), (_levelWidth_frame _ _ _ F).
  done.
Qed.

Lemma mesh_ok_ext t t' :
  frame t' = frame t -> _treeInds t' = _treeInds t -> mesh_ok t -> mesh_ok t'.
Proof.
  intros F S [C D L Hc Hd].
  assert (frame t = frame t') as F' by done.
  split.
  - by apply (constructed_frame t).
  - by rewrite (frame_dim _ _ F).
  - by rewrite (frame_levels _ _ F).
  - intros i Hi. rewrite S in Hi. destruct (Hc i Hi) as (coords & l & Hb & ->).
    exists coords, l. split; [by apply (box_ok_frame t)|].
    by rewrite (cell_index_frame _ _ _ _ F).
  - intros c1 l1 c2 l2 H1 H2. rewrite S, !(cell_index_frame _ _ _ _ F).
    intros I1 I2 Hne. unfold disjoint_boxes.
    rewrite !(_levelWidth_frame _ _ _ F).
    apply Hd; try done; by apply (box_ok_frame t').
Qed.

(** The offsets of the children: each component is 0 or the half width. *)
Definition corner (hw : Z) (n : nat) (off : list Z) : Prop :=
  length off = n /\ Forall (fun o => o = 0 \/ o = hw) off.

Lemma child_offsets_corner d hw off :
  d = 2 \/ d = 3 -> off ∈ child_offsets d hw -> corner hw (Z.to_nat d) off.
Proof.
  intros [->| ->]; unfold child_offsets; rewrite ?py_slice3_2, ?py_slice3_3;
    simpl; intros H;
    repeat (apply elem_of_cons in H as [->|H];
            [split; [done|repeat constructor; lia]|]);
    by apply elem_of_nil in H.
Qed.

Lemma child_box_ok t coords l off :
  l < levels t -> box_ok t coords l ->
  corner (_levelWidth t l / 2) (length coords) off ->
  box_ok t (zip_with Z.add coords off) (l + 1).
Proof.
  intros Hl (Hlen & Hl0 & Hc) [Hn Hoff].
  destruct (_levelWidth_half t l Hl) as (Hw & Hhw & Hw').
  split; [|split; [lia|]].
  - rewrite length_zip_with. lia.
  - rewrite Hw'. clear Hlen. revert off Hn Hoff.
    induction Hc as [|c coords [Hc0 Hc1] Hc IH]; intros [|o off] Hn Hoff;
      simpl; try done.
    inversion Hoff as [|? ? Ho Hoff']; subst. constructor.
    + cbn beta. clear IH. lia_width.
    + apply IH; [simpl in Hn; lia|done].
Qed.

(** A child lies in its parent: what is apart from the parent is apart
    from the child. *)
Lemma apart_child w1 w hw c1 coords off :
  w = 2 * hw -> 0 <= hw -> corner hw (length coords) off ->
  Exists (apart w1 w) (zip c1 coords) ->
  Exists (apart w1 hw) (zip c1 (zip_with Z.add coords off)).
Proof.
  intros Hw Hhw [Hn Hoff] H. revert c1 off Hn Hoff H.
  induction coords as [|c coords IH]; intros [|a c1] [|o off] Hn Hoff H;
    simpl in *; try done; try (by inversion H).
  inversion Hoff as [|? ? Ho Hoff']; subst.
  apply Exists_cons in H as [H|H].
  - left. unfold apart in *. simpl in *. lia.
  - right. apply IH; [lia|done..].
Qed.

Lemma apart_sym w1 w2 (c1 c2 : list Z) :
  Exists (apart w1 w2) (zip c1 c2) -> Exists (apart w2 w1) (zip c2 c1).
Proof.
  revert c2. induction c1 as [|a c1 IH]; intros [|b c2] H; simpl in *;
    try (by inversion H).
  apply Exists_cons in H as [H|H].
  - left. unfold apart in *. simpl in *. lia.
  - right. by apply IH.
Qed.

(** Two different children are apart. *)
Lemma apart_siblings hw coords off1 off2 :
  0 < hw -> corner hw (length coords) off1 -> corner hw (length coords) off2 ->
  off1 <> off2 ->
  Exists (apart hw hw)
         (zip (zip_with Z.add coords off1) (zip_with Z.add coords off2)).
Proof.
  intros Hhw [Hn1 H1] [Hn2 H2]. revert off1 off2 Hn1 H1 Hn2 H2.
  induction coords as [|c coords IH]; intros [|o1 off1] [|o2 off2] Hn1 H1 Hn2 H2 Hne;
    simpl in *; try done.
  inversion H1 as [|? ? Ho1 H1']; inversion H2 as [|? ? Ho2 H2']; subst.
  destruct (Z.eq_dec o1 o2) as [->|Ho].
  - right. apply IH; try done; try lia. congruence.
  - left. unfold apart. simpl. lia.
Qed.

Lemma elem_of_children t coords l i :
  i ∈ children t coords l <->
  exists off, off ∈ child_offsets (dim t) (_levelWidth t l / 2) /\
              i = cell_index t (zip_with Z.add coords off) (l + 1).
Proof.
  unfold children. rewrite list_elem_of_fmap. split.
  - intros (off & -> & Hoff). eauto.
  - intros (off & Hoff & ->). eauto.
Qed.

Lemma live_box_ok t coords l :
  mesh_ok t -> in_codec t coords l -> cell_index t coords l ∈ _treeInds t ->
  box_ok t coords l.
Proof.
  intros [C D L Hc Hd] Hin Hlive.
  destruct (Hc _ Hlive) as (c' & l' & Hb & E).
  apply cell_index_inj in E; [|done|done|by apply box_ok_in_codec].
  apply snoc_inj in E as [-> ->]. done.
Qed.

(** The mesh after a cell has been replaced by its children *)
Lemma refined_mesh_ok t coords l :
  mesh_ok t -> in_codec t coords l ->
  cell_index t coords l ∈ _treeInds t -> l < levels t ->
  mesh_ok (set_treeInds
             ((_treeInds t ∪ list_to_set (children t coords l))
              ∖ {[ cell_index t coords l ]}) t).
Proof.
  intros Hok Hin Hlive Hl.
  pose proof (live_box_ok t coords l Hok Hin Hlive) as Hbox.
  destruct Hok as [C D L Hc Hd].
  destruct (_levelWidth_half t l Hl) as (Hw & Hhw & Hw').
  set (ind := cell_index t coords l) in *.
  set (S' := (_treeInds t ∪ list_to_set (children t coords l)) ∖ {[ind]}).
  assert (Hlen : Z.to_nat (dim t) = length coords) by (destruct Hbox; lia).
  (* what the members of the new set are *)
  assert (forall c1 l1, box_ok t c1 l1 -> cell_index t c1 l1 ∈ S' ->
            (cell_index t c1 l1 ∈ _treeInds t /\ c1 ++ [l1] <> coords ++ [l])
            \/ (exists off, corner (_levelWidth t l / 2) (length coords) off /\
                  c1 = zip_with Z.add coords off /\ l1 = l + 1)) as Hmem.
  { intros c1 l1 Hb1 Hi1. unfold S' in Hi1.
    apply elem_of_difference in Hi1 as [Hi1 Hne].
    apply elem_of_union in Hi1 as [Hi1|Hi1].
    - left. split; [done|]. intros E. apply Hne. apply elem_of_singleton.
      apply snoc_inj in E as [-> ->]. done.
    - right. apply elem_of_list_to_set, elem_of_children in Hi1
        as (off & Hoff & E).
      apply child_offsets_corner in Hoff; [|done]. rewrite Hlen in Hoff.
      exists off. split; [done|].
      apply cell_index_inj in E; [by apply snoc_inj in E|done| |].
      + by apply box_ok_in_codec.
      + apply box_ok_in_codec; [done|]. by apply child_box_ok. }
  split; try done.
  - intros i Hi. change (i ∈ S') in Hi. unfold S' in Hi.
    apply elem_of_difference in Hi as [Hi _].
    apply elem_of_union in Hi as [Hi|Hi].
    + destruct (Hc i Hi) as (c' & l' & Hb & ->). by exists c', l'.
    + apply elem_of_list_to_set, elem_of_children in Hi as (off & Hoff & ->).
      apply child_offsets_corner in Hoff; [|done]. rewrite Hlen in Hoff.
      eexists _, _. split; [|done]. by apply child_box_ok.
  - intros c1 l1 c2 l2 H1 H2 I1 I2 Hne.
    change (box_ok t c1 l1) in H1. change (box_ok t c2 l2) in H2.
    change (cell_index t c1 l1 ∈ S') in I1.
    change (cell_index t c2 l2 ∈ S') in I2.
    change (disjoint_boxes t c1 l1 c2 l2).
    destruct (Hmem c1 l1 H1 I1) as [[O1 N1]|(off1 & K1 & -> & ->)];
      destruct (Hmem c2 l2 H2 I2) as [[O2 N2]|(off2 & K2 & -> & ->)].
    + by apply Hd.
    + unfold disjoint_boxes. rewrite Hw'.
      eapply apart_child; [exact Hw|lia|done|]. by apply Hd.
    + unfold disjoint_boxes. rewrite Hw'. apply apart_sym.
      eapply apart_child; [exact Hw|lia|done|]. by apply Hd.
    + unfold disjoint_boxes. rewrite Hw'.
      apply apart_siblings; try done. congruence.
Qed.

(** ** What [_pointer] returns *)

Lemma bits_bound a b :
  0 <= b -> (forall m, b <= m -> Z.testbit a m = false) -> 0 <= a < 2 ^ b.
Proof.
  intros Hb H. assert (a = a mod 2 ^ b) as ->.
  { apply Z.bits_inj'. intros m Hm. destruct (Z.lt_ge_cases m b).
    - by rewrite Z.mod_pow2_bits_low.
    - rewrite Z.mod_pow2_bits_high by lia. by apply H. }
  apply Z.mod_pos_bound. by apply Z.pow_pos_nonneg.
Qed.

Lemma point_bounds z idx p :
  0 < dimension z -> 0 <= bits z -> point z idx = Ok p ->
  Z.of_nat (length p) = dimension z /\
  Forall (fun c => 0 <= c < 2 ^ bits z) p.
Proof.
  intros Hd Hb Hp. destruct (point_Ok z Hd idx) as (q & Hq & Hlen & Hbits).
  assert (q = p) as -> by congruence. split; [done|].
  apply Forall_lookup. intros k c Hk.
  pose proof (lookup_lt_Some _ _ _ Hk) as Hlt.
  specialize (Hbits (Z.of_nat k)). unfold coord in Hbits.
  rewrite Nat2Z.id, Hk in Hbits. simpl in Hbits.
  apply bits_bound; [done|]. intros m Hm. rewrite Hbits by lia.
  destruct (Z.ltb_spec m (bits z)); [lia|done].
Qed.

Lemma _pointer_Ok t i :
  constructed t ->
  exists coords l, _pointer t i = Ok (coords ++ [l]) /\
    Z.of_nat (length coords) = dim t /\ 0 <= l /\
    Forall (fun c => 0 <= c < 2 ^ 20) coords.
Proof.
  intros (Hd & HL & Hz & HB). unfold _pointer.
  assert (dimension (_z t) = dim t) as Hdz by (by rewrite Hz).
  assert (bits (_z t) = 20) as Hbz by (by rewrite Hz).
  destruct (point_Ok (_z t) ltac:(lia)
              (Z.shiftr i (_levelBits t))) as (p & Hp & _ & _).
  destruct (point_bounds (_z t) _ p ltac:(lia) ltac:(lia) Hp) as [Hlen Hc].
  rewrite Hp. simpl. eexists _, _. split; [done|].
  rewrite Hbz in Hc. split; [congruence|]. split; [|done].
  apply Z.land_nonneg. right.
  assert (0 < 2 ^ _levelBits t); [|lia].
  apply Z.pow_pos_nonneg; [lia|]. rewrite HB.
  pose proof (Z.sqrt_up_nonneg (levels t)). lia.
Qed.

(** The arguments [_refineCell] is meant for: an index, or a pointer with
    coordinates on 20 bits and a level that is not negative. *)
Definition valid_ref (c : cellref) : Prop :=
  match c with
  | Idx _ => True
  | Ptr p => Forall (fun x => 0 <= x) p /\ Forall (fun x => x < 2 ^ 20) (py_init p)
  end.

Lemma valid_ref_in_codec t c coords l ind :
  constructed t -> valid_ref c ->
  _asPointer t c = Ok (coords ++ [l]) -> _index t (coords ++ [l]) = Ok ind ->
  in_codec t coords l /\ ind = cell_index t coords l.
Proof.
  intros C Hv Hp Hi.
  destruct (_index_Ok_inv _ _ _ Hi) as (c' & l' & E & Hlen & Hl).
  apply snoc_inj in E as [<- <-].
  rewrite _index_cell in Hi by done. injection Hi as <-.
  split; [|done]. split; [done|].
  destruct c as [i|p]; simpl in *.
  - destruct (_pointer_Ok t i C) as (c' & l' & Hp' & _ & Hl' & Hc').
    rewrite Hp in Hp'. injection Hp' as E. apply snoc_inj in E as [<- <-].
    split; [lia|done].
  - injection Hp as ->. destruct Hv as [H0 H1].
    rewrite py_init_snoc in H1. apply Forall_app in H0 as [H0 Hl0].
    apply (proj1 (Forall_singleton _ _)) in Hl0. simpl in Hl0. split; [lia|].
    apply Forall_and. done.
Qed.

Lemma _refineCell_mesh_ok t c :
  mesh_ok t -> valid_ref c -> mesh_ok (snd (_refineCell c t)).
Proof.
  intros Hok Hv. pose proof Hok as [C D L _ _].
  destruct (_refineCell_cases t c C D)
    as [(coords & l & ind & Hp & Hlen & Hi & Hlive & Hl & Hrun)
       |(e & Hrun & _)]; rewrite Hrun; simpl.
  - destruct (valid_ref_in_codec t c coords l ind C Hv Hp Hi) as [Hin ->].
    pose proof (refined_mesh_ok t coords l Hok Hin Hlive Hl) as R.
    revert R. apply mesh_ok_ext; [exact (structure_changed_frame t)|done].
  - revert Hok. apply mesh_ok_ext;
      [apply structure_changed_frame|apply structure_changed_treeInds].
Qed.


(** ** Loops over the mesh *)

Lemma mapM_cons {A B} (f : A -> Result B) (x : A) (l : list A) :
  mapM f (x :: l)
  = match f x with
    | Ok y => match mapM f l with Ok k => Ok (y :: k) | Raise e => Raise e end
    | Raise e => Raise e
    end.
Proof. simpl. destruct (f x); simpl; [|done]. by destruct (mapM f l). Qed.

Lemma mapM_Ok_Forall2 {A B} (f : A -> Result B) (l : list A) (l' : list B) :
  mapM f l = Ok l' <-> Forall2 (fun x y => f x = Ok y) l l'.
Proof.
  revert l'. induction l as [|x l IH]; intros l'.
  - split; [intros [= <-]; constructor|by inversion 1].
  - rewrite mapM_cons. split.
    + destruct (f x) as [y|e] eqn:Hy; [|done].
      destruct (mapM f l) as [k|e] eqn:Hk; [|done].
      intros [= <-]. constructor; [done|]. by apply IH.
    + inversion 1 as [|? y' ? k' Hy' Hk']; subst.
      apply IH in Hk'. by rewrite Hy', Hk'.
Qed.

(** A property of the mesh that a method keeps *)
Definition keeps (P : Tree -> Prop) {A} (m : M A) : Prop :=
  forall t, P t -> P (snd (m t)).

Lemma keeps_retM P {A} (a : A) : keeps P (retM a).
Proof. by intros t. Qed.

Lemma keeps_liftM P {A} (r : Tree -> Result A) : keeps P (liftM r).
Proof. by intros t. Qed.

Lemma keeps_bindM P {A B} (m : M A) (f : A -> M B) :
  keeps P m -> (forall a, keeps P (f a)) -> keeps P (bindM m f).
Proof.
  intros Hm Hf t Ht. unfold bindM. specialize (Hm t Ht).
  destruct (m t) as [[a|e] t']; simpl in *; [by apply Hf|done].
Qed.

Lemma keeps_forM P {A B} (f : B -> A -> M B) (l : list A) (b : B) :
  (forall b x, keeps P (f b x)) -> keeps P (forM f l b).
Proof.
  intros Hf. revert b. induction l as [|x l IH]; intros b; simpl.
  - apply keeps_retM.
  - apply keeps_bindM; [apply Hf|apply IH].
Qed.

Lemma keeps_refine_pass P function cells :
  (forall c, keeps P (_refineCell (Idx c))) ->
  keeps P (refine_pass function cells).
Proof.
  intros H. unfold refine_pass. apply keeps_forM. intros recurse cell.
  repeat (apply keeps_bindM; [apply keeps_liftM|intros ?]).
  destruct (_ >? _).
  - apply keeps_bindM; [apply H|intros ?; apply keeps_retM].
  - apply keeps_retM.
Qed.

Lemma keeps_refine P fuel function recursive cells :
  (forall c, keeps P (_refineCell (Idx c))) ->
  keeps P (refine fuel function recursive cells).
Proof.
  intros H. revert recursive cells.
  induction fuel as [|fuel IH]; intros recursive cells; simpl; [by intros t|].
  apply keeps_bindM.
  { destruct cells; [apply keeps_retM|apply keeps_liftM]. }
  intros cells'. apply keeps_bindM; [by apply keeps_refine_pass|].
  intros recurse. apply keeps_bindM; [|intros ?; apply keeps_retM].
  destruct (_ && _); [|apply keeps_retM].
  apply keeps_bindM; [apply IH|intros ?; apply keeps_retM].
Qed.

(** ** The meshes that refinement reaches *)

Inductive reachable (t0 : Tree) : Tree -> Prop :=
  | reach_new : reachable t0 t0
  | reach_refineCell t c :
      reachable t0 t -> valid_ref c -> reachable t0 (snd (_refineCell c t))
  | reach_refine t fuel function recursive cells :
      reachable t0 t ->
      reachable t0 (snd (refine fuel function recursive cells t)).

(** Refinement leaves the mesh with the numbering to be redone. *)
Definition refined_from (t0 t : Tree) : Prop :=
  mesh_ok t /\ frame t = frame t0 /\ __dirty__ t = true /\
  __sortedInds t = None.

Lemma _refineCell_refined_from t0 c :
  valid_ref c -> keeps (refined_from t0) (_refineCell c).
Proof.
  intros Hv t (Hok & F & Hd & Hs). split; [by apply _refineCell_mesh_ok|].
  pose proof Hok as [C D _ _ _].
  destruct (_refineCell_cases t c C D)
    as [(coords & l & ind & _ & _ & _ & _ & _ & Hrun)|(e & Hrun & _)];
    rewrite Hrun; simpl.
  - split; [|split].
    + rewrite <- F. exact (structure_changed_frame t).
    + exact (structure_changed_dirty t).
    + exact (structure_changed_sortedInds t Hs).
  - split; [|split].
    + rewrite <- F. exact (structure_changed_frame t).
    + exact (structure_changed_dirty t).
    + exact (structure_changed_sortedInds t Hs).
Qed.

Lemma reachable_refined_from t0 t :
  refined_from t0 t0 -> reachable t0 t -> refined_from t0 t.
Proof.
  intros H0. induction 1 as [|t c _ IH Hv|t fuel f r cells _ IH]; [done| |].
  - by apply _refineCell_refined_from.
  - apply keeps_refine; [|done]. intros c. by apply _refineCell_refined_from.
Qed.

(** ** The mesh the constructor returns *)

Lemma init_entry_Ok levels h_i hk :
  init_entry levels h_i = Ok hk ->
  0 <= levels /\ Z.of_nat (length hk) = 2 ^ levels.
Proof.
  unfold init_entry. intros H.
  destruct h_i as [n|ndim elems]; simpl in H.
  - destruct (n <? 0); [done|]. simpl in H.
    destruct (_ && _) eqn:E; [|done]. simpl in H. injection H as <-.
    apply andb_true_iff in E as [E1 E2]. lia.
  - destruct (Nat.eqb ndim 1); [|done]. simpl in H.
    destruct (_ && _) eqn:E; [|done]. simpl in H. injection H as <-.
    apply andb_true_iff in E as [E1 E2]. lia.
Qed.

Lemma Tree_init_Ok h_in L t0 :
  Tree_init h_in L = Ok t0 ->
  exists hs, t0 = new_tree hs L /\ length hs = length h_in /\
    1 < Z.of_nat (length hs) /\ 0 <= L /\
    Forall (fun hk => Z.of_nat (length hk) = 2 ^ L) hs.
Proof.
  unfold Tree_init. intros H.
  destruct (Z.ltb_spec 1 (Z.of_nat (length h_in))) as [Hlen|]; [|done].
  simpl in H. destruct (mapM (init_entry L) h_in) as [hs|e] eqn:Hm; [|done].
  simpl in H. injection H as <-. apply mapM_Ok_Forall2 in Hm.
  pose proof (Forall2_length _ _ _ Hm) as Hl.
  exists hs. split; [done|]. split; [done|]. split; [lia|].
  assert (Forall (fun hk => 0 <= L /\ Z.of_nat (length hk) = 2 ^ L) hs) as Hf.
  { clear -Hm. induction Hm as [|x y l l' Hxy _ IH]; constructor; [|done].
    by eapply init_entry_Ok. }
  split.
  - destruct hs as [|hk hs]; [simpl in *; lia|].
    by apply Forall_cons_1 in Hf as [[? _] _].
  - eapply Forall_impl; [done|]. by intros hk [_ ?].
Qed.

Lemma morton_zeros z :
  0 < dimension z -> morton z (replicate (Z.to_nat (dimension z)) 0) = 0.
Proof.
  intros Hd. set (p := replicate _ _).
  assert (Z.of_nat (length p) = dimension z) as Hlen
    by (unfold p; rewrite length_replicate; lia).
  destruct (index_Ok z Hd p Hlen) as (idx & Hidx & Hbits).
  rewrite index_morton in Hidx by done. injection Hidx as ->.
  apply Z.bits_inj_0. intros n. destruct (Z.neg_nonneg_cases n).
  - by apply Z.testbit_neg_r.
  - rewrite Hbits by done.
    assert (coord p (n mod dimension z) = 0) as ->.
    { unfold coord, p. pose proof (Z.mod_pos_bound n _ Hd).
      rewrite lookup_replicate_2 by lia. done. }
    rewrite Z.bits_0. apply andb_false_r.
Qed.

Lemma new_tree_mesh_ok hs L :
  (length hs = 2 \/ length hs = 3)%nat -> 0 <= L <= 20 -> mesh_ok (new_tree hs L).
Proof.
  intros Hd HL. set (t := new_tree hs L).
  assert (constructed t) as C by (apply new_tree_constructed; lia).
  set (zeros := replicate (Z.to_nat (dim t)) 0).
  assert (cell_index t zeros 0 = 0) as E0.
  { unfold cell_index.
    pose proof (morton_zeros {| dimension := dim t; bits := 20 |}) as Hm.
    simpl in Hm. change (0 < dim t -> morton (_z t) zeros = 0) in Hm.
    rewrite Hm by (unfold dim, t; simpl; lia).
    by rewrite Z.shiftl_0_l. }
  assert (box_ok t zeros 0) as B0.
  { split; [unfold zeros; rewrite length_replicate; unfold dim; lia|].
    split; [unfold levels, t; simpl; lia|].
    apply Forall_replicate. unfold _levelWidth. rewrite Z.sub_0_r. lia. }
  split; try done.
  - unfold dim, t. simpl. lia.
  - unfold levels, t. simpl. lia.
  - intros i Hi. change (i ∈ ({[ 0 ]} : gset Z)) in Hi.
    apply elem_of_singleton in Hi as ->. by exists zeros, 0.
  - intros c1 l1 c2 l2 H1 H2 I1 I2 Hne. exfalso. apply Hne.
    change (cell_index t c1 l1 ∈ ({[ 0 ]} : gset Z)) in I1.
    change (cell_index t c2 l2 ∈ ({[ 0 ]} : gset Z)) in I2.
    apply elem_of_singleton in I1, I2.
    apply (cell_index_inj t); try (apply box_ok_in_codec; [|done]);
      try (unfold levels, t; simpl; lia); try done. congruence.
Qed.

Lemma Tree_init_refined_from h_in L t0 :
  Tree_init h_in L = Ok t0 -> dim t0 <= 3 -> L <= 20 -> refined_from t0 t0.
Proof.
  intros H Hd HL. destruct (Tree_init_Ok _ _ _ H) as (hs & -> & _ & Hlen & HL0 & _).
  split; [|done]. apply new_tree_mesh_ok; [|lia].
  unfold dim in Hd. simpl in Hd. lia.
Qed.

(** ** Widths and volumes of cells *)

Definition slice_sum (hk : list Qc) (c w : Z) : Qc := Qcsum (py_slice hk c (c + w)).

Definition cell_widths (t : Tree) (coords : list Z) (l : Z) : list Qc :=
  zip_with (fun hk c => slice_sum hk c (_levelWidth t l)) (h t) coords.

(** The volume of the cell of an index, as [number] computes it *)
Definition vol_of (t : Tree) (i : Z) : Qc :=
  match _cellH t (Idx i) with Ok w => Qcprod w | Raise _ => 0%Qc end.

Lemma Qcsum_app l1 l2 : Qcsum (l1 ++ l2) = (Qcsum l1 + Qcsum l2)%Qc.
Proof.
  induction l1 as [|x l1 IH]; simpl; [ring|]. rewrite IH. ring.
Qed.

Lemma Qcsum_Permutation l1 l2 : l1 ≡ₚ l2 -> Qcsum l1 = Qcsum l2.
Proof.
  induction 1; simpl; try congruence; ring.
Qed.

Lemma py_slice_nonneg {A} (l : list A) (a b : Z) :
  0 <= a <= b -> py_slice l a b = take (Z.to_nat (b - a)) (drop (Z.to_nat a) l).
Proof.
  intros H. unfold py_slice, py_clamp.
  destruct (Z.ltb_spec a 0); [lia|]. destruct (Z.ltb_spec b 0); [lia|].
  set (n := Z.of_nat (length l)).
  destruct (Z.le_gt_cases n a) as [Ha|Ha].
  - rewrite !drop_ge by lia. by rewrite !take_nil.
  - rewrite (Z.min_l a n) by lia.
    destruct (Z.le_gt_cases b n) as [Hb|Hb].
    + by rewrite (Z.min_l b n) by lia.
    + rewrite (Z.min_r b n) by lia.
      rewrite !take_ge; [done|rewrite length_drop; lia..].
Qed.

Lemma slice_sum_split hk c hw :
  0 <= c -> 0 <= hw ->
  slice_sum hk c (2 * hw) = (slice_sum hk c hw + slice_sum hk (c + hw) hw)%Qc.
Proof.
  intros Hc Hhw. unfold slice_sum. rewrite !py_slice_nonneg by lia.
  rewrite <- Qcsum_app. f_equal.
  replace (Z.to_nat (c + 2 * hw - c)) with (Z.to_nat hw + Z.to_nat hw)%nat by lia.
  replace (Z.to_nat (c + hw - c)) with (Z.to_nat hw) by lia.
  replace (Z.to_nat (c + hw + hw - (c + hw))) with (Z.to_nat hw) by lia.
  replace (Z.to_nat (c + hw)) with (Z.to_nat c + Z.to_nat hw)%nat by lia.
  rewrite <- drop_drop. by rewrite take_take_drop.
Qed.

Lemma slice_sum_all hk w :
  Z.of_nat (length hk) <= w -> slice_sum hk 0 w = Qcsum hk.
Proof.
  intros H. unfold slice_sum. rewrite py_slice_nonneg by lia.
  simpl. rewrite drop_0, take_ge by lia. done.
Qed.

(** [[f(hi, p[ii]) for ii, hi in enumerate(h)]] *)
Lemma mapM_enumerate_from (F : list Qc -> Z -> Qc) coords l hs k :
  (k + length hs = length coords)%nat ->
  mapM (fun '(ii, hi) => c ← py_get (coords ++ [l]) ii; Ok (F hi c))
       (imap (fun i x => (Z.of_nat (k + i), x)) hs)
  = Ok (zip_with F hs (drop k coords)).
Proof.
  revert k. induction hs as [|hk hs IH]; intros k Hk; [done|].
  rewrite imap_cons, mapM_cons.
  destruct (lookup_lt_is_Some_2 coords k) as [c Hc]; [simpl in Hk; lia|].
  rewrite Nat.add_0_r.
  rewrite (py_get_Ok _ _ c) by (lia || (rewrite Nat2Z.id; by apply lookup_app_l_Some)).
  simpl.
  rewrite (imap_ext _ (fun i x => (Z.of_nat (S k + i), x)))
    by (intros; simpl; do 2 f_equal; lia).
  rewrite IH by (simpl in Hk; lia).
  rewrite (drop_S _ c k) by done. done.
Qed.

Lemma mapM_enumerate (F : list Qc -> Z -> Qc) coords l hs :
  length hs = length coords ->
  mapM (fun '(ii, hi) => c ← py_get (coords ++ [l]) ii; Ok (F hi c))
       (enumerate hs)
  = Ok (zip_with F hs coords).
Proof.
  intros H. unfold enumerate.
  exact (mapM_enumerate_from F coords l hs 0 H).
Qed.

Lemma _cellH_pointer t coords l :
  Z.of_nat (length coords) = dim t ->
  _cellH t (Ptr (coords ++ [l])) = Ok (cell_widths t coords l).
Proof.
  intros Hlen. unfold _cellH. simpl. rewrite py_last_snoc. simpl.
  unfold cell_widths, slice_sum.
  apply (mapM_enumerate
           (fun hi c => Qcsum (py_slice hi c (c + _levelWidth t l)))).
  unfold dim in Hlen. lia.
Qed.

Lemma _cellH_cell t coords l :
  constructed t -> in_codec t coords l ->
  _cellH t (Idx (cell_index t coords l)) = Ok (cell_widths t coords l).
Proof.
  intros C Hin. pose proof (_cellH_pointer t coords l (proj1 Hin)) as H.
  unfold _cellH in *. simpl in *. by rewrite _pointer_cell.
Qed.

Lemma vol_of_cell t coords l :
  constructed t -> in_codec t coords l ->
  vol_of t (cell_index t coords l) = Qcprod (cell_widths t coords l).
Proof. intros C Hin. unfold vol_of. by rewrite _cellH_cell. Qed.

Lemma _cellH_frame t t' c : frame t' = frame t -> _cellH t' c = _cellH t c.
Proof.
  intros F. pose proof F as [= Hh HL HB Hz]. unfold _cellH.
  rewrite (_asPointer_frame _ _ _ F), Hh.
  destruct (_asPointer t c) as [p|]; [|done]. simpl.
  destruct (py_last p) as [l|]; [|done]. simpl.
  by rewrite (_levelWidth_frame _ _ _ F).
Qed.

Lemma vol_of_frame t t' i : frame t' = frame t -> vol_of t' i = vol_of t i.
Proof. intros F. unfold vol_of. by rewrite (_cellH_frame _ _ _ F). Qed.

(** ** A cell and its children have the same volume *)

Lemma slice_sum_width t l hk c :
  l < levels t -> 0 <= c ->
  slice_sum hk c (_levelWidth t l)
  = (slice_sum hk c (_levelWidth t (l + 1))
     + slice_sum hk (c + _levelWidth t l / 2) (_levelWidth t (l + 1)))%Qc.
Proof.
  intros Hl Hc. destruct (_levelWidth_half t l Hl) as (Hw & Hhw & ->).
  rewrite Hw at 1. apply slice_sum_split; lia.
Qed.

Lemma children_vol_of t coords l :
  constructed t -> dim t = 2 \/ dim t = 3 -> levels t <= 20 ->
  box_ok t coords l -> l < levels t ->
  map (vol_of t) (children t coords l)
  = map (fun off => Qcprod (cell_widths t (zip_with Z.add coords off) (l + 1)))
        (child_offsets (dim t) (_levelWidth t l / 2)).
Proof.
  intros C D L Hb Hl. unfold children. rewrite map_map.
  apply map_ext_in. intros off Hoff. apply list_elem_of_In in Hoff.
  apply child_offsets_corner in Hoff; [|done].
  apply vol_of_cell; [done|]. apply box_ok_in_codec; [done|].
  apply child_box_ok; [done..|]. destruct Hb as [Hlen _].
  by replace (length coords) with (Z.to_nat (dim t)) by lia.
Qed.

Lemma children_volume t coords l :
  constructed t -> dim t = 2 \/ dim t = 3 -> levels t <= 20 ->
  box_ok t coords l -> l < levels t ->
  Qcsum (map (vol_of t) (children t coords l))
  = vol_of t (cell_index t coords l).
Proof.
  intros C D L Hb Hl.
  rewrite children_vol_of, vol_of_cell by (done || by apply box_ok_in_codec).
  destruct Hb as (Hlen & Hl0 & Hc). unfold cell_widths, dim in *.
  destruct D as [D|D]; rewrite D; unfold child_offsets;
    rewrite ?py_slice3_2, ?py_slice3_3; cbn [Z.eqb Pos.eqb app map].
  - destruct (h t) as [|hx [|hy [|? ?]]]; simpl in D; try lia.
    destruct coords as [|x [|y [|? ?]]]; simpl in Hlen; try lia.
    apply Forall_cons_1 in Hc as [[Hx _] Hc].
    apply Forall_cons_1 in Hc as [[Hy _] _].
    cbn [zip_with Qcsum Qcprod foldr]. rewrite !Z.add_0_r.
    rewrite (slice_sum_width t l hx x), (slice_sum_width t l hy y) by done.
    ring.
  - destruct (h t) as [|hx [|hy [|hz [|? ?]]]]; simpl in D; try lia.
    destruct coords as [|x [|y [|z [|? ?]]]]; simpl in Hlen; try lia.
    apply Forall_cons_1 in Hc as [[Hx _] Hc].
    apply Forall_cons_1 in Hc as [[Hy _] Hc].
    apply Forall_cons_1 in Hc as [[Hz _] _].
    cbn [zip_with Qcsum Qcprod foldr]. rewrite !Z.add_0_r.
    rewrite (slice_sum_width t l hx x), (slice_sum_width t l hy y),
      (slice_sum_width t l hz z) by done.
    ring.
Qed.

(** ** The children are new cells *)

Lemma not_apart_child hw coords off :
  0 < hw -> corner hw (length coords) off ->
  ~ Exists (apart hw (2 * hw)) (zip (zip_with Z.add coords off) coords).
Proof.
  intros Hhw [Hn Hoff]. revert off Hn Hoff.
  induction coords as [|c coords IH]; intros [|o off] Hn Hoff H;
    simpl in *; try (by inversion H).
  inversion Hoff as [|? ? Ho Hoff']; subst.
  apply Exists_cons in H as [H|H].
  - unfold apart in H. simpl in H. lia.
  - eapply IH; [|done..]. lia.
Qed.

Lemma zip_with_add_inj (coords off1 off2 : list Z) :
  length off1 = length coords -> length off2 = length coords ->
  zip_with Z.add coords off1 = zip_with Z.add coords off2 -> off1 = off2.
Proof.
  revert off1 off2. induction coords as [|c coords IH];
    intros [|o1 off1] [|o2 off2] H1 H2 E; simpl in *; try done.
  injection E as E0 E. f_equal; [lia|]. apply IH; [lia..|done].
Qed.

Lemma NoDup_child_offsets d hw :
  d = 2 \/ d = 3 -> hw <> 0 -> NoDup (child_offsets d hw).
Proof.
  intros [->| ->] Hhw; unfold child_offsets;
    rewrite ?py_slice3_2, ?py_slice3_3; cbn [Z.eqb Pos.eqb app];
    repeat (apply NoDup_cons; split;
            [rewrite ?elem_of_cons, elem_of_nil;
             intros H; repeat destruct H as [H|H]; try done;
             injection H; intros; lia|]);
    apply NoDup_nil_2.
Qed.

Section Refined.
Variables (t : Tree) (coords : list Z) (l : Z).
Hypothesis Hok : mesh_ok t.
Hypothesis Hin : in_codec t coords l.
Hypothesis Hlive : cell_index t coords l ∈ _treeInds t.
Hypothesis Hl : l < levels t.

Lemma children_fresh i : i ∈ children t coords l -> i ∉ _treeInds t.
Proof.
  intros Hi Hs. pose proof (live_box_ok t coords l Hok Hin Hlive) as Hbox.
  destruct Hok as [C D L Hc Hd].
  destruct (_levelWidth_half t l Hl) as (Hw & Hhw & Hw').
  apply elem_of_children in Hi as (off & Hoff & ->).
  apply child_offsets_corner in Hoff; [|done].
  replace (Z.to_nat (dim t)) with (length coords) in Hoff
    by (destruct Hbox; lia).
  pose proof (child_box_ok t coords l off Hl Hbox Hoff) as Hkb.
  specialize (Hd _ _ _ _ Hkb Hbox Hs Hlive).
  unfold disjoint_boxes in Hd. rewrite Hw' in Hd. rewrite Hw in Hd at 2.
  eapply not_apart_child; [| |apply Hd]; [lia|done|].
  intros E. apply snoc_inj in E as [_ E]. lia.
Qed.

Lemma children_NoDup : NoDup (children t coords l).
Proof.
  pose proof (live_box_ok t coords l Hok Hin Hlive) as Hbox.
  destruct Hok as [C D L Hc Hd].
  destruct (_levelWidth_half t l Hl) as (Hw & Hhw & Hw').
  assert (Hlen : Z.to_nat (dim t) = length coords) by (destruct Hbox; lia).
  unfold children. apply NoDup_fmap_2_strong.
  - intros off1 off2 H1 H2 E.
    apply child_offsets_corner in H1, H2; try done.
    rewrite Hlen in H1, H2.
    apply cell_index_inj in E; try done;
      try (apply box_ok_in_codec; [done|]; by apply child_box_ok).
    apply snoc_inj in E as [E _].
    apply (zip_with_add_inj coords); [by destruct H1|by destruct H2|done].
  - apply NoDup_child_offsets; [done|lia].
Qed.

Lemma refined_elements :
  elements ((_treeInds t ∪ list_to_set (children t coords l))
            ∖ {[ cell_index t coords l ]})
  ≡ₚ children t coords l
     ++ elements (_treeInds t ∖ {[ cell_index t coords l ]}).
Proof.
  set (ind := cell_index t coords l).
  set (K := list_to_set (children t coords l) : gset Z).
  assert (K ## _treeInds t) as Hdisj.
  { intros i Hi Hs. apply elem_of_list_to_set in Hi.
    by apply children_fresh in Hi. }
  assert (ind ∉ K) as Hind.
  { intros Hi. by apply (Hdisj ind). }
  assert (K ## _treeInds t ∖ {[ind]}) as Hdisj'.
  { intros i Hi Hs. apply elem_of_difference in Hs as [Hs _].
    by apply (Hdisj i). }
  assert ((_treeInds t ∪ K) ∖ {[ind]} = K ∪ _treeInds t ∖ {[ind]}) as ->.
  { apply set_eq. intros i.
    rewrite elem_of_difference, !elem_of_union, elem_of_difference,
      elem_of_singleton.
    split.
    - intros [[?|?] ?]; [by right|by left].
    - intros [?|[? ?]]; [|by split; [left|]].
      split; [by right|]. intros ->. done. }
  rewrite (elements_disj_union _ _ Hdisj'). unfold K.
  by rewrite (elements_list_to_set _ children_NoDup).
Qed.

Lemma live_elements :
  elements (_treeInds t)
  ≡ₚ cell_index t coords l
     :: elements (_treeInds t ∖ {[ cell_index t coords l ]}).
Proof.
  rewrite (union_difference_singleton_L _ _ Hlive) at 1.
  apply elements_union_singleton. rewrite elem_of_difference, elem_of_singleton.
  by intros [_ ?].
Qed.
End Refined.

(** The sum of the volumes of the live cells *)
Definition total_volume (t : Tree) : Qc :=
  Qcsum (map (vol_of t) (elements (_treeInds t))).

Lemma refined_total_volume t coords l :
  mesh_ok t -> in_codec t coords l ->
  cell_index t coords l ∈ _treeInds t -> l < levels t ->
  Qcsum (map (vol_of t)
           (elements ((_treeInds t ∪ list_to_set (children t coords l))
                      ∖ {[ cell_index t coords l ]})))
  = total_volume t.
Proof.
  intros Hok Hin Hlive Hl. unfold total_volume.
  rewrite (Qcsum_Permutation _ _
             (Permutation_map _ (refined_elements t coords l Hok Hin Hlive Hl))).
  rewrite (Qcsum_Permutation _ _
             (Permutation_map _ (live_elements t coords l Hlive))).
  rewrite map_app, Qcsum_app.
  pose proof (live_box_ok t coords l Hok Hin Hlive) as Hbox.
  destruct Hok as [C D L _ _].
  by rewrite children_volume.
Qed.

Lemma total_volume_ext t t' :
  frame t' = frame t -> _treeInds t' = _treeInds t ->
  total_volume t' = total_volume t.
Proof.
  intros F S. unfold total_volume. rewrite S. f_equal.
  apply map_ext. intros i. by apply vol_of_frame.
Qed.

Lemma _refineCell_total_volume t c :
  mesh_ok t -> valid_ref c ->
  total_volume (snd (_refineCell c t)) = total_volume t.
Proof.
  intros Hok Hv. pose proof Hok as [C D L _ _].
  destruct (_refineCell_cases t c C D)
    as [(coords & l & ind & Hp & Hlen & Hi & Hlive & Hl & Hrun)
       |(e & Hrun & _)]; rewrite Hrun; simpl.
  - destruct (valid_ref_in_codec t c coords l ind C Hv Hp Hi) as [Hin ->].
    rewrite <- (refined_total_volume t coords l Hok Hin Hlive Hl).
    unfold total_volume. rewrite _treeInds_set. f_equal.
    apply map_ext. intros i. apply vol_of_frame.
    exact (structure_changed_frame t).
  - apply total_volume_ext;
      [apply structure_changed_frame|apply structure_changed_treeInds].
Qed.

(** ** The volume of the root *)

Lemma cell_index_zeros t :
  constructed t -> cell_index t (replicate (Z.to_nat (dim t)) 0) 0 = 0.
Proof.
  intros (Hd & HL & Hz & HB). unfold cell_index.
  assert (dimension (_z t) = dim t) as Hdz by (by rewrite Hz).
  pose proof (morton_zeros (_z t)) as Hm. rewrite Hdz in Hm.
  rewrite Hm by lia. by rewrite Z.shiftl_0_l.
Qed.

Lemma zip_with_replicate {A B C} (F : A -> B -> C) (l : list A) (b : B) :
  zip_with F l (replicate (length l) b) = map (fun a => F a b) l.
Proof. induction l as [|a l IH]; simpl; [done|]. by rewrite IH. Qed.

Lemma new_tree_total_volume hs L :
  (length hs = 2 \/ length hs = 3)%nat -> 0 <= L <= 20 ->
  Forall (fun hk => Z.of_nat (length hk) = 2 ^ L) hs ->
  total_volume (new_tree hs L) = Qcprod (map Qcsum hs).
Proof.
  intros Hd HL Hh. set (t := new_tree hs L).
  assert (constructed t) as C by (apply new_tree_constructed; lia).
  unfold total_volume. change (_treeInds t) with ({[ 0 ]} : gset Z).
  rewrite elements_singleton. cbn [map Qcsum foldr].
  rewrite <- (cell_index_zeros t C) at 1.
  rewrite vol_of_cell; [|done|].
  2:{ split; [rewrite length_replicate; unfold dim; lia|].
      split; [unfold levels, t; simpl; lia|]. apply Forall_replicate. lia. }
  unfold cell_widths. change (h t) with hs.
  replace (Z.to_nat (dim t)) with (length hs) by (unfold dim, t; simpl; lia).
  rewrite zip_with_replicate.
  rewrite Qcplus_0_r. f_equal. apply map_ext_in. intros hk Hk.
  apply list_elem_of_In in Hk. eapply Forall_forall in Hh; [|done].
  apply slice_sum_all. unfold _levelWidth, levels, t. simpl.
  rewrite Z.sub_0_r. lia.
Qed.

(** Refinement keeps the mesh well formed and its volume. *)
Definition partition_of (t0 t : Tree) : Prop :=
  refined_from t0 t /\ total_volume t = Qcprod (map Qcsum (h t0)).

Lemma _refineCell_partition_of t0 c :
  valid_ref c -> keeps (partition_of t0) (_refineCell c).
Proof.
  intros Hv t [Hr Hvol]. split; [by apply _refineCell_refined_from|].
  destruct Hr as [Hok _]. by rewrite _refineCell_total_volume.
Qed.

Lemma reachable_partition_of h_in L t0 t :
  Tree_init h_in L = Ok t0 -> dim t0 <= 3 -> L <= 20 ->
  reachable t0 t -> partition_of t0 t.
Proof.
  intros H0 Hd HL Hreach.
  assert (partition_of t0 t0) as P0.
  { split; [by eapply Tree_init_refined_from|].
    destruct (Tree_init_Ok _ _ _ H0) as (hs & -> & _ & Hlen & HL0 & Hh).
    unfold dim in Hd. simpl in Hd.
    apply (new_tree_total_volume hs L); [lia|lia|done]. }
  induction Hreach as [|t c _ IH Hv|t fuel f r cells _ IH]; [done| |].
  - by apply _refineCell_partition_of.
  - apply keeps_refine; [|done]. intros c. by apply _refineCell_partition_of.
Qed.

(** ** The volumes [number] stores *)

Lemma bind_Ok_inv {A B} (m : Result A) (f : A -> Result B) (b : B) :
  m ≫= f = Ok b -> exists a, m = Ok a /\ f a = Ok b.
Proof. destruct m as [a|e]; [eauto|done]. Qed.

Lemma number_cell_vol t fuel st ind st' :
  number_cell t fuel st ind = Ok st' ->
  loc_vol st' = loc_vol st ++ [vol_of t ind].
Proof.
  unfold number_cell, vol_of. intros H.
  apply bind_Ok_inv in H as (w & -> & H).
  apply bind_Ok_inv in H as ([tX c2f] & _ & H). cbv beta iota in H.
  apply bind_Ok_inv in H as ([tY c2f'] & _ & H). cbv beta iota in H.
  apply bind_Ok_inv in H as ([tZ c2f''] & _ & H). cbv beta iota in H.
  by injection H as <-.
Qed.

Lemma number_loop_vol t fuel inds st0 st :
  foldM (number_cell t fuel) inds st0 = Ok st ->
  loc_vol st = loc_vol st0 ++ map (vol_of t) inds.
Proof.
  revert st0. induction inds as [|ind inds IH]; intros st0; simpl.
  - intros [= <-]. by rewrite app_nil_r.
  - destruct (number_cell t fuel st0 ind) as [st1|] eqn:H1; [|done]. simpl.
    intros H. apply IH in H. apply number_cell_vol in H1.
    rewrite H, H1, <- app_assoc. done.
Qed.

(** [number], when the numbering is to be redone *)
Definition numbered (fuel : nat) (t : Tree) : Result unit * Tree :=
  let inds := sorted (_treeInds t) in
  let t1 := set_Tree__sortedInds inds t in
  match number_loop t1 fuel inds with
  | Ok st => (Ok tt, number_store st t1)
  | Raise e => (Raise e, t1)
  end.

Lemma number_dirty t fuel force :
  __dirty__ t = true -> __sortedInds t = None ->
  number fuel force t = numbered fuel t.
Proof.
  intros Hd Hs. unfold number, numbered, bindM, liftM, modifyM, retM, _sortedInds.
  rewrite Hd. cbn [negb andb]. rewrite Hs.
  by destruct (number_loop _ fuel _).
Qed.

Lemma number_clean t fuel :
  __dirty__ t = false -> number fuel false t = (Ok tt, t).
Proof.
  intros Hd. unfold number, bindM, liftM, retM. by rewrite Hd.
Qed.


Lemma sorted_Permutation s : sorted s ≡ₚ elements s.
Proof. apply merge_sort_Permutation. Qed.


Definition recursion_limit : nat := 1000.


(** ** Refining a live cell *)

(** The cross product of [{0, hw}], [d] times, the first axis running
    fastest *)
Fixpoint corners (d : nat) (hw : Z) : list (list Z) :=
  match d with
  | O => [[]]
  | S d => flat_map (fun rest => [0 :: rest; hw :: rest]) (corners d hw)
  end.

Lemma child_offsets_corners d hw :
  d = 2 \/ d = 3 -> child_offsets d hw = corners (Z.to_nat d) hw.
Proof. by intros [->| ->]. Qed.

Lemma length_corners d hw : length (corners d hw) = (2 ^ d)%nat.
Proof.
  induction d as [|d IH]; [done|]. cbn [corners].
  rewrite flat_map_constant_length with (c := 2%nat) by done.
  rewrite IH, Nat.pow_succ_r'. lia.
Qed.

(** C6: refining a live cell at a level below the last takes that cell out
    of the live set and puts in its [2^d] children, the cells one level
    down at the parent's coordinates plus each corner of
    [{0, 2^(L-l-1)}^d]; they are distinct, none was live, and nothing else
    enters or leaves the set. *)
Theorem refineCell_replaces_by_children
    (h_in : list h_entry) (L : Z) (t0 t : Tree) (c : cellref)
    (coords : list Z) (l : Z) :
  Tree_init h_in L = Ok t0 -> dim t0 <= 3 -> L <= 20 ->
  reachable t0 t ->
  in_codec t coords l ->
  c = Ptr (coords ++ [l]) \/ c = Idx (cell_index t coords l) ->
  cell_index t coords l ∈ _treeInds t ->
  l < levels t ->
  let kids :=
    map (fun off => cell_index t (zip_with Z.add coords off) (l + 1))
        (corners (Z.to_nat (dim t)) (2 ^ (levels t - l - 1))) in
  fst (_refineCell c t) = Ok kids
  /\ _treeInds (snd (_refineCell c t))
     = (_treeInds t ∖ {[ cell_index t coords l ]}) ∪ list_to_set kids
  /\ length kids = (2 ^ Z.to_nat (dim t))%nat
  /\ NoDup kids
  /\ (forall k, k ∈ kids -> k ∉ _treeInds t)
  /\ Forall2 (fun k off =>
                _pointer (snd (_refineCell c t)) k
                = Ok (zip_with Z.add coords off ++ [l + 1]))
             kids (corners (Z.to_nat (dim t)) (2 ^ (levels t - l - 1))).
Proof.
  intros H0 Hd HL Hreach Hin Hc Hlive Hl kids.
  destruct (reachable_partition_of _ _ _ _ H0 Hd HL Hreach)
    as [(Hok & F & _ & _) _].
  pose proof Hok as [C D L20 _ _].
  pose proof (live_box_ok t coords l Hok Hin Hlive) as Hbox.
  destruct (_levelWidth_half t l Hl) as (Hw & Hhw & Hw').
  assert (2 ^ (levels t - l - 1) = _levelWidth t l / 2) as Ehw.
  { rewrite <- Hw'. unfold _levelWidth. f_equal. lia. }
  assert (kids = children t coords l) as Ekids.
  { unfold kids, children. by rewrite Ehw, child_offsets_corners. }
  assert (_asPointer t c = Ok (coords ++ [l])) as Hp.
  { destruct Hc as [->| ->]; [done|]. simpl. by apply _pointer_cell. }
  assert (_index t (coords ++ [l]) = Ok (cell_index t coords l)) as Hi.
  { apply _index_cell; [done|by destruct Hin|lia]. }
  destruct (_refineCell_cases t c C D)
    as [(coords' & l' & ind & Hp' & Hlen & Hi' & Hlive' & Hl' & Hrun)
       |(e & Hrun & Hwhy)].
  2:{ exfalso. by eapply (_refineCell_cases_excl t c coords l). }
  rewrite Hp in Hp'. injection Hp' as E. apply snoc_inj in E as [<- <-].
  rewrite Hi in Hi'. injection Hi' as <-.
  rewrite Hrun, Ekids. cbn [fst snd]. rewrite _treeInds_set.
  split; [done|]. split; [|split; [|split; [|split]]].
  - apply set_eq. intros i.
    rewrite elem_of_difference, !elem_of_union, elem_of_difference,
      elem_of_singleton, elem_of_list_to_set.
    split.
    + intros [[?|?] ?]; [by left|by right].
    + intros [[? ?]|Hk]; [by split; [left|]|].
      split; [by right|]. intros ->.
      by apply (children_fresh t coords l Hok Hin Hlive Hl) in Hk.
  - rewrite <- Ekids. unfold kids. by rewrite length_map, length_corners.
  - by apply children_NoDup.
  - intros k. by apply children_fresh.
  - rewrite <- Ekids. unfold kids. apply Forall2_fmap_l, Forall_Forall2_diag.
    apply Forall_forall. intros off Hoff. unfold compose. cbn beta.
    rewrite (_pointer_frame t) by exact (structure_changed_frame t).
    apply _pointer_cell; [done|]. apply box_ok_in_codec; [done|].
    apply child_box_ok; [done..|].
    rewrite Ehw, <- child_offsets_corners in Hoff by done.
    apply child_offsets_corner in Hoff; [|done].
    by replace (length coords) with (Z.to_nat (dim t)) by (destruct Hbox; lia).
Qed.

Lemma refineCell_replaces_by_children_witness :
  let t := new_tree S1_h 2 in
  let kids :=
    map (fun off => cell_index t (zip_with Z.add [0; 0] off) (0 + 1))
        (corners (Z.to_nat (dim t)) (2 ^ (levels t - 0 - 1))) in
  fst (_refineCell (Ptr ([0; 0] ++ [0])) t) = Ok kids
  /\ _treeInds (snd (_refineCell (Ptr ([0; 0] ++ [0])) t))
     = (_treeInds t ∖ {[ cell_index t [0; 0] 0 ]}) ∪ list_to_set kids
  /\ length kids = (2 ^ Z.to_nat (dim t))%nat
  /\ NoDup kids
  /\ (forall k, k ∈ kids -> k ∉ _treeInds t)
  /\ Forall2 (fun k off =>
                _pointer (snd (_refineCell (Ptr ([0; 0] ++ [0])) t)) k
                = Ok (zip_with Z.add [0; 0] off ++ [0 + 1]))
             kids (corners (Z.to_nat (dim t)) (2 ^ (levels t - 0 - 1))).
Proof.
  intros t.
  apply (refineCell_replaces_by_children [HNum 4; HNum 4] 2 t t
           (Ptr ([0; 0] ++ [0])) [0; 0] 0).
  - reflexivity.
  - unfold dim. simpl. lia.
  - lia.
  - apply reach_new.
  - split; [reflexivity|]. split; [unfold levels; simpl; lia|].
    repeat constructor; lia.
  - by left.
  - vm_compute. reflexivity.
  - unfold levels. simpl. lia.
Defined.

(** ** What [refine] returns *)

(** A recursive [refine] that returns hands back the list that the
    pass over the candidate cells alone builds, which is what the call with
    [recursive=False] returns on the same mesh; the recursive call on that
    list changes the mesh and its own list is dropped. *)
Lemma refine_unfold_once
    (fuel : nat) (function : list Qc -> Z) (cells : option (list Z))
    (t t' : Tree) (r : list Z) :
  refine (S fuel) function true cells t = (Ok r, t') ->
  exists t1,
    refine 1 function false cells t = (Ok r, t1)
    /\ refine_pass function
         (match cells with Some cs => cs | None => sorted (_treeInds t) end) t
       = (Ok r, t1)
    /\ (if 0 <? Z.of_nat (length r)
        then exists deeper,
               refine fuel function true (Some r) t1 = (Ok deeper, t')
        else t' = t1).
Proof.
  cbn [refine]. unfold bindM, retM, liftM.
  destruct cells as [cs|]; cbn beta iota.
  - destruct (refine_pass function cs t) as [[r1|e] t1]; [|done].
    cbn [andb]. destruct (0 <? Z.of_nat (length r1)) eqn:Hlen.
    + destruct (refine fuel function true (Some r1) t1) as [[r2|e] t2] eqn:Hrec;
        [|done].
      intros [= <- <-]. exists t1. rewrite Hlen. eauto.
    + intros [= <- <-]. exists t1. by rewrite Hlen.
  - destruct (refine_pass function (sorted (_treeInds t)) t) as [[r1|e] t1];
      [|done].
    cbn [andb]. destruct (0 <? Z.of_nat (length r1)) eqn:Hlen.
    + destruct (refine fuel function true (Some r1) t1) as [[r2|e] t2] eqn:Hrec;
        [|done].
      intros [= <- <-]. exists t1. rewrite Hlen. eauto.
    + intros [= <- <-]. exists t1. by rewrite Hlen.
Qed.

(** On the 4 by 4 mesh with the predicate 2 everywhere, the recursive
    [refine] returns the four cells of level 1; the sixteen cells of level 2
    that the recursive pass creates are live and not in the list, and the
    four returned cells are no longer live. *)
Definition S5_run : Result (list Z) * Tree :=
  refine recursion_limit (fun _ => 2) true None (new_tree S1_h 2).

Lemma refine_grandchildren_not_returned :
  fst S5_run = Ok [1; 33; 65; 97]
  /\ sorted (_treeInds (snd S5_run))
     = [2; 10; 18; 26; 34; 42; 50; 58; 66; 74; 82; 90; 98; 106; 114; 122]
  /\ Forall (fun i => i ∉ [1; 33; 65; 97]) (sorted (_treeInds (snd S5_run))).
Proof.
  split; [by vm_compute|]. split; [by vm_compute|].
  replace (sorted (_treeInds (snd S5_run)))
    with [2; 10; 18; 26; 34; 42; 50; 58; 66; 74; 82; 90; 98; 106; 114; 122]
    by (by vm_compute).
  repeat constructor; rewrite !elem_of_cons, elem_of_nil; lia.
Qed.

(** ** The constructor *)

(** An entry of [h_in] that passes: [2**levels] values on one axis. *)
Definition good_entry (levels : Z) (h_i : h_entry) : Prop :=
  match h_i with
  | HNum n => 0 <= levels /\ n = 2 ^ levels
  | HArray ndim elems =>
      ndim = 1%nat /\ 0 <= levels /\ Z.of_nat (length elems) = 2 ^ levels
  end.

Lemma length_ones_over n : 0 <= n -> Z.of_nat (length (ones_over n)) = n.
Proof. intros. unfold ones_over. rewrite length_replicate. lia. Qed.

Lemma init_entry_good levels h_i :
  is_Ok (init_entry levels h_i) = true <-> good_entry levels h_i.
Proof.
  unfold init_entry, good_entry. destruct h_i as [n|ndim elems]; simpl.
  - destruct (Z.ltb_spec n 0) as [Hn|Hn]; simpl.
    + split; [done|]. intros [HL ->].
      assert (0 < 2 ^ levels) by (by apply Z.pow_pos_nonneg). lia.
    + rewrite length_ones_over by done.
      destruct (Z.leb_spec 0 levels), (Z.eqb_spec n (2 ^ levels)); simpl;
        (split; [try done|intros [? ?]; try done; try lia]).
  - destruct (Nat.eqb_spec ndim 1); simpl.
    + destruct (Z.leb_spec 0 levels),
        (Z.eqb_spec (Z.of_nat (length elems)) (2 ^ levels)); simpl;
        (split; [try done|intros (? & ? & ?); try done; try lia]).
    + split; [done|]. by intros (? & _).
Qed.

Lemma mapM_is_Ok {A B} (f : A -> Result B) (l : list A) :
  is_Ok (mapM f l) = true <-> Forall (fun x => is_Ok (f x) = true) l.
Proof.
  induction l as [|x l IH]; [by split; [constructor|]|].
  rewrite mapM_cons, Forall_cons, <- IH.
  destruct (f x); simpl; [|by split; [|intros [? _]]].
  destruct (mapM f l); simpl; by split; [|intros [_ ?]].
Qed.

(** C9, as the constructor has it: construction fails when [h] has fewer
    than two axes (the assertion is [len(h_in) > 1], and nothing bounds the
    number of axes from above) and when some [h[k]] is not 1-D or has not
    [2^L] values; otherwise it returns. *)
Theorem Tree_init_returns_iff (h_in : list h_entry) (L : Z) :
  (is_Ok (Tree_init h_in L) = true
   <-> 1 < Z.of_nat (length h_in) /\ Forall (good_entry L) h_in)
  /\ (Z.of_nat (length h_in) <= 1 -> Tree_init h_in L = Raise AssertionError).
Proof.
  unfold Tree_init. split.
  - destruct (Z.ltb_spec 1 (Z.of_nat (length h_in))) as [Hd|Hd]; simpl.
    + pose proof (mapM_is_Ok (init_entry L) h_in) as Hm.
      destruct (mapM (init_entry L) h_in) as [hs|e]; simpl in *.
      * split; [|done]. intros _. split; [done|].
        eapply Forall_impl; [by apply Hm|]. intros x. apply init_entry_good.
      * split; [done|]. intros [_ Hg]. apply Hm.
        eapply Forall_impl; [done|]. intros x. apply init_entry_good.
    + split; [done|]. intros [? _]. lia.
  - intros Hd. destruct (Z.ltb_spec 1 (Z.of_nat (length h_in))); [lia|done].
Qed.

Lemma Tree_init_returns_iff_witness :
  (is_Ok (Tree_init [HNum 4] 2) = true
   <-> 1 < Z.of_nat (length [HNum 4]) /\ Forall (good_entry 2) [HNum 4])
  /\ (Z.of_nat (length [HNum 4]) <= 1
      -> Tree_init [HNum 4] 2 = Raise AssertionError).
Proof. apply (Tree_init_returns_iff [HNum 4] 2). Defined.

(** Four axes pass the constructor. *)
Lemma Tree_init_four_axes :
  exists t, Tree_init [HNum 4; HNum 4; HNum 4; HNum 4] 2 = Ok t /\ dim t = 4.
Proof. eexists. split; reflexivity. Qed.

(** ** The uniform 4 by 4 mesh (S1) *)

Definition S1_run : Result (list Z) * Tree :=
  refine recursion_limit (fun _ => 1) true None (new_tree S1_h 2).

Definition S1_mesh : Tree := snd S1_run.

(** C8: [Tree([4,4], 2)] refined with the predicate 1 everywhere has four
    live cells, all of level 1; [nC = 4], [nFx = nFy = 6], [nF = 12]; every
    volume is 1/4; no face is hanging. *)
Theorem S1_uniform_refinement :
  Tree_init [HNum 4; HNum 4] 2 = Ok (new_tree S1_h 2)
  /\ is_Ok (fst S1_run) = true
  /\ map (_pointer S1_mesh) (sorted (_treeInds S1_mesh))
     = [Ok [0; 0; 1]; Ok [2; 0; 1]; Ok [0; 2; 1]; Ok [2; 2; 1]]
  /\ nC S1_mesh = 4
  /\ fst (nFx recursion_limit S1_mesh) = Ok 6
  /\ fst (nFy recursion_limit S1_mesh) = Ok 6
  /\ fst (nF recursion_limit S1_mesh) = Ok 12
  /\ (exists v, fst (vol recursion_limit S1_mesh) = Ok v
                /\ length v = 4%nat /\ Forall (fun x => x = Q2Qc (1 # 4)) v)
  /\ _hangingFacesX (snd (number recursion_limit false S1_mesh)) = Some []
  /\ _hangingFacesY (snd (number recursion_limit false S1_mesh)) = Some [].
Proof.
  split; [reflexivity|].
  split; [by vm_compute|]. split; [by vm_compute|]. split; [by vm_compute|].
  split; [by vm_compute|]. split; [by vm_compute|]. split; [by vm_compute|].
  split; [|split; by vm_compute].
  destruct (fst (vol recursion_limit S1_mesh)) as [v|e] eqn:Hv;
    [|by vm_compute in Hv].
  exists v. split; [done|]. vm_compute in Hv. injection Hv as <-.
  split; [done|]. repeat constructor; by apply Qc_is_canon.
Qed.

(** ** Caches after a refinement *)

(** The numerators and denominators of a grid, to compare grids *)
Definition grid_values (g : Result Grid) : Result (list (list Q)) :=
  map (map this) <$> g.

(** [T = Tree([4,4], 2)]; [T.gridFy]; [T.refine(lambda xc: 1)]; [T.gridFy] *)
Definition stale_gridFy_before : Result Grid * Tree :=
  gridFy recursion_limit (new_tree S1_h 2).
Definition stale_gridFy_refined : Tree :=
  snd (refine recursion_limit (fun _ => 1) true None (snd stale_gridFy_before)).
Definition stale_gridFy_after : Result Grid * Tree :=
  gridFy recursion_limit stale_gridFy_refined.

(** C5 fails on the code: [_structureChange] deletes [_gridCC] and [_gridFx]
    only, so after the refinement [gridFy] still returns the two faces of
    the root cell although the mesh has four cells and six y-faces. *)
Theorem gridFy_stale_after_refine :
  sorted (_treeInds stale_gridFy_refined) = [1; 33; 65; 97]
  /\ __dirty__ stale_gridFy_refined = true
  /\ grid_values (fst stale_gridFy_after) = Ok [[1 # 2; 0]; [1 # 2; 1]]%Q
  /\ grid_values (fst stale_gridFy_after) = grid_values (fst stale_gridFy_before)
  /\ grid_values (fst (gridFy recursion_limit S1_mesh))
     = Ok [[1 # 4; 0]; [1 # 4; 1 # 2]; [3 # 4; 0]; [3 # 4; 1 # 2];
           [1 # 4; 1]; [3 # 4; 1]]%Q.
Proof. repeat split; by vm_compute. Qed.

(** [T.faceDiv]; [T.refine(lambda xc: 1)]; [T.faceDiv] *)
Definition stale_faceDiv_before : Result Matrix * Tree :=
  faceDiv recursion_limit (new_tree S1_h 2).
Definition stale_faceDiv_refined : Tree :=
  snd (refine recursion_limit (fun _ => 1) true None (snd stale_faceDiv_before)).
Definition stale_faceDiv_after : Result Matrix * Tree :=
  faceDiv recursion_limit stale_faceDiv_refined.

(** The same for [faceDiv]: [_faceDiv] is never deleted, and the matrix of
    the one-cell mesh, of shape (1, 4), comes back for the mesh of four
    cells and twelve faces. *)
Lemma faceDiv_stale_after_refine :
  nC stale_faceDiv_refined = 4
  /\ shape <$> fst stale_faceDiv_after = Ok (1, 4)
  /\ fst (nF recursion_limit (snd stale_faceDiv_after)) = Ok 12.
Proof. repeat split; by vm_compute. Qed.

(** [T.gridCC] before the first numbering, then a refinement:
    [_structureChange] returns at once when the mesh is already dirty, and
    the centre of the root cell comes back for the four cells. *)
Definition stale_gridCC_before : Result Grid * Tree := gridCC (new_tree S1_h 2).
Definition stale_gridCC_after : Result Grid * Tree :=
  gridCC (snd (refine recursion_limit (fun _ => 1) true None
                 (snd stale_gridCC_before))).

Lemma gridCC_stale_after_refine :
  grid_values (fst stale_gridCC_after) = Ok [[1 # 2; 1 # 2]]%Q
  /\ nC (snd stale_gridCC_after) = 4.
Proof. repeat split; by vm_compute. Qed.

(** ** Hanging faces in three dimensions *)

(** [T = Tree([4,4,4], 2)]; [T.refine(lambda xc: 1)];
    [T._refineCell([2,0,0,1])] *)
Definition octree_mesh : Tree :=
  snd (_refineCell (Ptr [2; 0; 0; 1])
         (snd (refine recursion_limit (fun _ => 1) true None
                 (new_tree [ones_over 4; ones_over 4; ones_over 4] 2)))).

Definition octree_c2f : option (gmap Z (list (list Z))) :=
  _c2f (snd (number recursion_limit false octree_mesh)).

(** C4 fails on the code in three dimensions: the cell [(0,0,0,1)], index
    1, has four finer cells beyond its +x face, and [processCell] allocates
    faces for the first two of them only: [c2f[1][+x]] holds two face ids
    and the last two finer cells, indices 98 and 114, keep an empty list
    for their -x side. *)
Theorem octree_finer_faces_missing :
  _index octree_mesh [0; 0; 0; 1] = Ok 1
  /\ _getNextCell octree_mesh recursion_limit [0; 0; 0; 1] 0 true
     = Ok (NCList [NCInt 66; NCInt 82; NCInt 98; NCInt 114])
  /\ fst (number recursion_limit false octree_mesh) = Ok tt
  /\ (octree_c2f ≫= (.!! 1)) = Some [[0]; [1; 2]; [0]; [1]; [0]; [1]]
  /\ (octree_c2f ≫= (.!! 66)) = Some [[1]; [3]; [2]; [3]; [2]; [3]]
  /\ (octree_c2f ≫= (.!! 82)) = Some [[2]; [5]; [3]; [6]; [6]; [7]]
  /\ (octree_c2f ≫= (.!! 98)) = Some [[]; [7]; [8]; [9]; [3]; [10]]
  /\ (octree_c2f ≫= (.!! 114)) = Some [[]; [9]; [9]; [12]; [7]; [12]]
  /\ _hangingFacesX (snd (number recursion_limit false octree_mesh))
     = Some [1; 2].
Proof. repeat split; by vm_compute. Qed.

(** ** Matrices *)

Lemma shape_mk_matrix n m f : shape (mk_matrix n m f) = (n, m).
Proof. done. Qed.

Lemma mat_get_mk_matrix n m f i j :
  0 <= i < n -> 0 <= j < m -> mat_get (mk_matrix n m f) i j = f i j.
Proof.
  intros Hi Hj. unfold mat_get, mk_matrix. cbn [data].
  rewrite list_lookup_fmap, lookup_range by lia. cbn [fmap option_fmap option_map].
  rewrite list_lookup_fmap, lookup_range by lia. cbn.
  by rewrite !Z2Nat.id by lia.
Qed.

Lemma Qcsum_zero {A} (F : A -> Qc) (l : list A) :
  (forall x, x ∈ l -> F x = 0%Qc) -> Qcsum (map F l) = 0%Qc.
Proof.
  induction l as [|x l IH]; intros H; [done|]. cbn [map Qcsum foldr].
  rewrite (H x) by left. fold (Qcsum (map F l)).
  rewrite IH; [ring|]. intros y Hy. apply H. by right.
Qed.

Lemma range_split n i :
  0 <= i < n ->
  exists l1 l2, range n = l1 ++ i :: l2
    /\ (forall k, k ∈ l1 -> 0 <= k < i) /\ (forall k, k ∈ l2 -> i < k < n).
Proof.
  intros Hi. unfold range.
  replace (Z.to_nat n) with (Z.to_nat i + S (Z.to_nat (n - i - 1)))%nat by lia.
  rewrite seq_app, map_app. rewrite <- cons_seq, map_cons.
  eexists _, _. split; [f_equal; f_equal; lia|]. split.
  - intros k Hk. apply list_elem_of_fmap in Hk as (k' & -> & Hk').
    apply elem_of_seq in Hk'. lia.
  - intros k Hk. apply list_elem_of_fmap in Hk as (k' & -> & Hk').
    apply elem_of_seq in Hk'. lia.
Qed.

(** A sum over [range(n)] with one term that is not zero *)
Lemma Qcsum_delta (F : Z -> Qc) (n i : Z) (X : Qc) :
  0 <= i < n ->
  (forall k, 0 <= k < n -> F k = if i =? k then X else 0%Qc) ->
  Qcsum (map F (range n)) = X.
Proof.
  intros Hi HF. destruct (range_split n i Hi) as (l1 & l2 & -> & H1 & H2).
  rewrite map_app, Qcsum_app, map_cons.
  change (Qcsum (F i :: map F l2)) with (F i + Qcsum (map F l2))%Qc.
  rewrite !Qcsum_zero.
  - rewrite HF by lia. rewrite Z.eqb_refl. ring.
  - intros k Hk. apply H2 in Hk. rewrite HF by lia.
    destruct (Z.eqb_spec i k); [lia|done].
  - intros k Hk. apply H1 in Hk. rewrite HF by lia.
    destruct (Z.eqb_spec i k); [lia|done].
Qed.

Lemma mat_get_sdiag v i k :
  0 <= i < Z.of_nat (length v) -> 0 <= k < Z.of_nat (length v) ->
  mat_get (sdiag v) i k
  = if i =? k then default 0%Qc (v !! Z.to_nat i) else 0%Qc.
Proof. intros Hi Hk. unfold sdiag. by rewrite mat_get_mk_matrix. Qed.

Lemma mat_mul_Ok A B C :
  mat_mul A B = Ok C ->
  snd (shape A) = fst (shape B)
  /\ C = mk_matrix (fst (shape A)) (snd (shape B)) (fun i j =>
           Qcsum (map (fun k => (mat_get A i k * mat_get B k j)%Qc)
                      (range (snd (shape A))))).
Proof.
  unfold mat_mul. destruct (Z.eqb_spec (snd (shape A)) (fst (shape B))); [|done].
  by intros [= <-].
Qed.

Lemma shape_sdiag v : shape (sdiag v) = (Z.of_nat (length v), Z.of_nat (length v)).
Proof. done. Qed.

(** The product with a diagonal matrix on the left scales the rows. *)
Lemma mat_mul_sdiag_l v B C i j :
  mat_mul (sdiag v) B = Ok C ->
  0 <= i < fst (shape B) -> 0 <= j < snd (shape B) ->
  fst (shape B) = Z.of_nat (length v)
  /\ shape C = (fst (shape B), snd (shape B))
  /\ mat_get C i j = (default 0 (v !! Z.to_nat i) * mat_get B i j)%Qc.
Proof.
  intros H Hi Hj. apply mat_mul_Ok in H as [Hs ->].
  rewrite shape_sdiag in *. cbn [fst snd] in *.
  split; [done|]. rewrite shape_mk_matrix, Hs. split; [done|].
  rewrite mat_get_mk_matrix by lia.
  apply (Qcsum_delta _ _ i); [lia|]. intros k Hk.
  rewrite mat_get_sdiag by lia.
  destruct (Z.eqb_spec i k) as [->|]; [done|ring].
Qed.

(** The product with a diagonal matrix on the right scales the columns. *)
Lemma mat_mul_sdiag_r A v C i j :
  mat_mul A (sdiag v) = Ok C ->
  0 <= i < fst (shape A) -> 0 <= j < snd (shape A) ->
  snd (shape A) = Z.of_nat (length v)
  /\ shape C = (fst (shape A), snd (shape A))
  /\ mat_get C i j = (mat_get A i j * default 0 (v !! Z.to_nat j))%Qc.
Proof.
  intros H Hi Hj. apply mat_mul_Ok in H as [Hs ->].
  rewrite shape_sdiag in *. cbn [fst snd] in *.
  split; [done|]. rewrite shape_mk_matrix, <- Hs. split; [done|].
  rewrite mat_get_mk_matrix by lia.
  apply (Qcsum_delta _ _ j); [lia|]. intros k Hk.
  rewrite mat_get_sdiag by lia. rewrite (Z.eqb_sym k j).
  destruct (Z.eqb_spec j k) as [->|]; [done|ring].
Qed.

(** ** The entries of the raw incidence *)

(** The sum of the values that [csr_matrix] finds at place [(i, j)] *)
Definition hits (i j : Z) (entries : list (Z * Z * Z)) : Qc :=
  Qcsum (map (fun e => match e with (i', j', v) =>
                if (i' =? i) && (j' =? j) then Q2Qc (inject_Z v) else 0%Qc end)
             entries).

Lemma hits_app i j l1 l2 : hits i j (l1 ++ l2) = (hits i j l1 + hits i j l2)%Qc.
Proof. unfold hits. by rewrite map_app, Qcsum_app. Qed.

Lemma hits_nil i j : hits i j [] = 0%Qc.
Proof. done. Qed.

Lemma csr_matrix_Ok entries n m D :
  csr_matrix entries n m = Ok D ->
  shape D = (n, m)
  /\ forall i j, 0 <= i < n -> 0 <= j < m -> mat_get D i j = hits i j entries.
Proof.
  unfold csr_matrix. destruct (forallb _ entries); [|done].
  intros [= <-]. split; [done|]. intros i j Hi Hj.
  by rewrite mat_get_mk_matrix.
Qed.

(** The entries of one direction of one cell *)
Definition face_hits (off pm j : Z) (face : list Z) : Qc :=
  Qcsum (map (fun f => if f + off =? j then Q2Qc (inject_Z pm) else 0%Qc) face).

Lemma hits_face i j ii off pm face :
  hits i j (map (fun f => (ii, f + off, pm)) face)
  = if ii =? i then face_hits off pm j face else 0%Qc.
Proof.
  unfold hits, face_hits. rewrite map_map.
  destruct (Z.eqb_spec ii i) as [->|Hne].
  - done.
  - by apply Qcsum_zero.
Qed.

(** The sign and the offset of the directions [-x, +x, -y, +y, -z, +z] *)
Definition direction_sign (k : nat) : Z := if Nat.even k then -1 else 1.

Definition direction_offset (nfx nfy : Z) (k : nat) : Z :=
  match k with
  | 0%nat | 1%nat => 0
  | 2%nat | 3%nat => nfx
  | _ => nfx + nfy
  end.

(** The row of a cell: over its [2d] directions, an entry of the
    direction's sign at the direction's offset plus the face id, for every
    face id in the list of that direction. *)
Definition row_hits (d nfx nfy j : Z) (faces : list (list Z)) : Qc :=
  Qcsum (map (fun k => face_hits (direction_offset nfx nfy k)
                                 (direction_sign k) j
                                 (default [] (faces !! k)))
             (seq 0 (Z.to_nat (2 * d)))).

Lemma hits_incidence_row d nfx nfy i j ii faces :
  d = 2 \/ d = 3 ->
  hits i j (incidence_row [0; 0; nfx; nfx; nfx + nfy; nfx + nfy]
              (concat (replicate (Z.to_nat d) [-1; 1])) ii faces)
  = if ii =? i then row_hits d nfx nfy j faces else 0%Qc.
Proof.
  intros Hd. unfold incidence_row, row_hits.
  assert (face_hits_nil : forall off pm, face_hits off pm j [] = 0%Qc) by done.
  destruct Hd as [->| ->];
    [change (Z.to_nat 2) with 2%nat; change (Z.to_nat (2 * 2)) with 4%nat
    |change (Z.to_nat 3) with 3%nat; change (Z.to_nat (2 * 3)) with 6%nat];
    cbn [replicate concat app seq];
    destruct faces as [|f0 [|f1 [|f2 [|f3 [|f4 [|f5 rest]]]]]];
    cbn [zip zip_with map concat lookup list_lookup default Qcsum foldr app
         direction_offset direction_sign Nat.even];
    rewrite ?app_nil_r, ?hits_app, ?hits_face, ?hits_nil, ?face_hits_nil;
    unfold id; destruct (ii =? i); ring.
Qed.

(** The entry of the raw incidence at [(i, j)]: the row of the cell that is
    [i]-th in the order of the indices *)
Definition raw_incidence (c2f : gmap Z (list (list Z))) (inds : list Z)
    (d nfx nfy i j : Z) : Qc :=
  match inds !! Z.to_nat i with
  | Some ind =>
      match c2f !! ind with
      | Some faces => row_hits d nfx nfy j faces
      | None => 0%Qc
      end
  | None => 0%Qc
  end.

Lemma entries_loop (c2f : gmap Z (list (list Z))) d nfx nfy inds k acc entries i j :
  d = 2 \/ d = 3 -> 0 <= i ->
  foldM (fun IJV '(ii, ind) =>
           match c2f !! ind with
           | Some faces =>
               Ok (IJV ++ incidence_row [0; 0; nfx; nfx; nfx + nfy; nfx + nfy]
                            (concat (replicate (Z.to_nat d) [-1; 1])) ii faces)
           | None => Raise KeyError
           end)
        (imap (fun n x => (Z.of_nat (k + n), x)) inds) acc = Ok entries ->
  hits i j entries
  = (hits i j acc
     + if Z.of_nat k <=? i
       then match inds !! (Z.to_nat i - k)%nat with
            | Some ind =>
                match c2f !! ind with
                | Some faces => row_hits d nfx nfy j faces
                | None => 0
                end
            | None => 0
            end
       else 0)%Qc.
Proof.
  intros Hd Hi. revert k acc.
  induction inds as [|ind inds IH]; intros k acc H.
  - cbn in H. injection H as <-. rewrite lookup_nil.
    destruct (_ <=? _); ring.
  - rewrite imap_cons in H. cbn [foldM] in H.
    apply bind_Ok_inv in H as (acc' & Hacc & H).
    destruct (c2f !! ind) as [faces|] eqn:Hf; [|done].
    injection Hacc as <-.
    rewrite (imap_ext _ (fun n x => (Z.of_nat (S k + n), x))) in H
      by (intros; simpl; do 2 f_equal; lia).
    apply IH in H. rewrite H, hits_app, hits_incidence_row by done.
    rewrite Nat.add_0_r.
    destruct (Z.eqb_spec (Z.of_nat k) i) as [E|E].
    + destruct (Z.leb_spec (Z.of_nat (S k)) i); [lia|].
      destruct (Z.leb_spec (Z.of_nat k) i); [|lia].
      replace (Z.to_nat i - k)%nat with 0%nat by lia.
      cbn [lookup list_lookup]. rewrite Hf. ring.
    + destruct (Z.leb_spec (Z.of_nat (S k)) i);
        destruct (Z.leb_spec (Z.of_nat k) i); try lia; [|ring].
      replace (Z.to_nat i - k)%nat with (S (Z.to_nat i - S k)) by lia.
      cbn [lookup list_lookup].
      destruct (inds !! _) as [x|]; [destruct (c2f !! x)|]; ring.
Qed.

Lemma entries_hits (c2f : gmap Z (list (list Z))) d nfx nfy inds entries i j :
  d = 2 \/ d = 3 -> 0 <= i ->
  foldM (fun IJV '(ii, ind) =>
           match c2f !! ind with
           | Some faces =>
               Ok (IJV ++ incidence_row [0; 0; nfx; nfx; nfx + nfy; nfx + nfy]
                            (concat (replicate (Z.to_nat d) [-1; 1])) ii faces)
           | None => Raise KeyError
           end)
        (enumerate inds) [] = Ok entries ->
  hits i j entries = raw_incidence c2f inds d nfx nfy i j.
Proof.
  intros Hd Hi H. unfold enumerate in H.
  apply (entries_loop c2f d nfx nfy inds 0 [] entries i j Hd Hi) in H.
  rewrite H, hits_nil. unfold raw_incidence.
  destruct (Z.leb_spec (Z.of_nat 0) i); [|lia].
  rewrite Nat.sub_0_r.
  destruct (inds !! _) as [x|]; [destruct (c2f !! x)|]; ring.
Qed.

(** ** Running [faceDiv] *)

Lemma keeps_modifyM (P : Tree -> Prop) (f : Tree -> Tree) :
  (forall t, P t -> P (f t)) -> keeps P (modifyM f).
Proof. intros H t Ht. by apply H. Qed.

Lemma keeps__refineCell (P : Tree -> Prop) c :
  (forall t, P t -> P (structure_changed t)) ->
  (forall s t, P t -> P (set_treeInds s t)) ->
  keeps P (_refineCell c).
Proof.
  intros H1 H2.
  assert (forall nL added p, keeps P (addCell nL added p)) as Hadd.
  { intros. unfold addCell. apply keeps_bindM; [apply keeps_liftM|intros ?].
    apply keeps_bindM; [|intros ?; apply keeps_retM].
    apply keeps_modifyM. intros t Ht. by apply H2. }
  unfold _refineCell. apply keeps_bindM.
  { intros t Ht. rewrite _structureChange_run. by apply H1. }
  intros _. repeat (apply keeps_bindM; [apply keeps_liftM|intros ?]).
  repeat (apply keeps_bindM; [apply Hadd|intros ?]).
  apply keeps_bindM.
  { destruct (_ =? 3); [|apply keeps_retM].
    repeat (apply keeps_bindM; [apply Hadd|intros ?]). apply Hadd. }
  intros ?. apply keeps_bindM; [|intros ?; apply keeps_retM].
  intros t Ht. cbn beta. destruct (bool_decide _); [by apply H2|done].
Qed.

(** Refinement alone leaves no table behind. *)
Definition unnumbered (t0 t : Tree) : Prop :=
  frame t = frame t0 /\ __sortedInds t = None /\ _faceDiv t = None.

Lemma reachable_unnumbered hs L t :
  reachable (new_tree hs L) t -> unnumbered (new_tree hs L) t.
Proof.
  assert (forall c, keeps (unnumbered (new_tree hs L)) (_refineCell c)) as Hk.
  { intros c. apply keeps__refineCell.
    - intros t' (F & Hs & Hf). unfold structure_changed.
      by destruct (__dirty__ t').
    - by intros s t' (F & Hs & Hf). }
  induction 1 as [|t c _ IH Hv|t fuel f r cells _ IH]; [done| |].
  - by apply Hk.
  - by apply keeps_refine.
Qed.

Lemma number_false_Ok fuel t tn :
  number fuel false t = (Ok tt, tn) ->
  __dirty__ tn = false /\ _treeInds tn = _treeInds t /\ frame tn = frame t
  /\ __sortedInds tn = __sortedInds t /\ _faceDiv tn = _faceDiv t.
Proof.
  unfold number, bindM, liftM, modifyM, retM, _sortedInds.
  destruct (__dirty__ t) eqn:Hd; cbn [negb andb].
  - destruct (__sortedInds t) eqn:Hs.
    + destruct (number_loop t fuel l) as [st|]; [|done].
      intros [= <-]. by repeat split.
    + destruct (number_loop _ fuel _) as [st|]; [|done].
      intros [= <-]. by repeat split.
  - by intros [= <-].
Qed.

Section Clean.
Variables (fuel : nat) (tn : Tree).
Hypothesis Hclean : __dirty__ tn = false.

Lemma nFx_clean : nFx fuel tn = (attr (_nFx tn), tn).
Proof. unfold nFx, bindM. by rewrite number_clean. Qed.
Lemma nFy_clean : nFy fuel tn = (attr (_nFy tn), tn).
Proof. unfold nFy, bindM. by rewrite number_clean. Qed.
Lemma nF_clean : nF fuel tn = (attr (_nF tn), tn).
Proof. unfold nF, bindM. by rewrite number_clean. Qed.
Lemma vol_clean : vol fuel tn = (attr (_vol tn), tn).
Proof. unfold vol, bindM. by rewrite number_clean. Qed.
Lemma area_clean : area fuel tn = (attr (_area tn), tn).
Proof. unfold area, bindM. by rewrite number_clean. Qed.
End Clean.

Lemma attr_Ok {A} (o : option A) (a : A) : attr o = Ok a -> o = Some a.
Proof. destruct o; [by intros [= ->]|done]. Qed.

Lemma _sortedInds_run t :
  __sortedInds t = None ->
  _sortedInds t
  = (Ok (sorted (_treeInds t)),
     set_Tree__sortedInds (sorted (_treeInds t)) t).
Proof. intros H. unfold _sortedInds. by rewrite H. Qed.

Lemma faceDiv_run fuel t M t' :
  dim t = 2 \/ dim t = 3 ->
  __sortedInds t = None -> _faceDiv t = None ->
  faceDiv fuel t = (Ok M, t') ->
  exists c2f VOL S nfx nfy nf VD D entries,
    _c2f t' = Some c2f /\ _vol t' = Some VOL /\ _area t' = Some S /\
    _nFx t' = Some nfx /\ _nFy t' = Some nfy /\ _nF t' = Some nf /\
    _faceDiv t' = Some M /\ _treeInds t' = _treeInds t /\
    frame t' = frame t /\
    foldM (fun IJV '(ii, ind) =>
             match c2f !! ind with
             | Some faces =>
                 Ok (IJV ++ incidence_row
                              [0; 0; nfx; nfx; nfx + nfy; nfx + nfy]
                              (concat (replicate (Z.to_nat (dim t)) [-1; 1]))
                              ii faces)
             | None => Raise KeyError
             end)
          (enumerate (sorted (_treeInds t))) [] = Ok entries /\
    csr_matrix entries (nC t) nf = Ok D /\
    mat_mul (sdiag (map (fun v => 1 / v)%Qc VOL)) D = Ok VD /\
    mat_mul VD (sdiag S) = Ok M.
Proof.
  intros Hd Hs Hf H. unfold faceDiv in H.
  rewrite (bindM_liftM_Ok _ _ t None) in H by (by rewrite Hf).
  unfold bindM at 1 in H.
  destruct (number fuel false t) as [[[]|e] tn] eqn:Hn; [|done].
  apply number_false_Ok in Hn as (Hclean & HS & HF & Hsn & Hfn).
  rewrite (bindM_liftM_Ok _ _ tn (dim t)) in H by (by rewrite (frame_dim _ _ HF)).
  unfold bindM at 1 in H. rewrite nFx_clean in H by done.
  destruct (_nFx tn) as [nfx|] eqn:Hnfx; [|done]. cbn [attr] in H.
  unfold bindM at 1 in H. rewrite nFy_clean in H by done.
  destruct (_nFy tn) as [nfy|] eqn:Hnfy; [|done]. cbn [attr] in H.
  unfold bindM at 1 in H. rewrite _sortedInds_run in H by congruence.
  set (tn' := set_Tree__sortedInds (sorted (_treeInds tn)) tn) in H.
  unfold bindM at 1, liftM at 1 in H.
  change (_c2f tn') with (_c2f tn) in H.
  destruct (_c2f tn) as [c2f|] eqn:Hc2f; [|done]. cbn [attr mbind Result_bind] in H.
  match type of H with
  | context [foldM ?f ?l ?a] =>
      destruct (foldM f l a) as [entries|] eqn:Hentries; [|done]
  end.
  unfold bindM at 1 in H. rewrite vol_clean in H by done.
  change (_vol tn') with (_vol tn) in H.
  destruct (_vol tn) as [VOL|] eqn:Hvol; [|done]. cbn [attr] in H.
  rewrite (bindM_liftM_Ok _ _ tn' (nC t)) in H
    by (unfold nC; by rewrite <- HS).
  unfold bindM at 1 in H. rewrite nF_clean in H by done.
  change (_nF tn') with (_nF tn) in H.
  destruct (_nF tn) as [nf|] eqn:Hnf; [|done]. cbn [attr] in H.
  unfold bindM at 1, liftM at 1 in H.
  destruct (csr_matrix entries (nC t) nf) as [D|] eqn:HD; [|done].
  unfold bindM at 1 in H. rewrite area_clean in H by done.
  change (_area tn') with (_area tn) in H.
  destruct (_area tn) as [S|] eqn:Harea; [|done]. cbn [attr] in H.
  unfold bindM at 1, liftM at 1 in H.
  destruct (mat_mul (sdiag (map (fun v => (1 / v)%Qc) VOL)) D) as [VD|] eqn:HVD;
    [|done].
  cbn [mbind Result_bind] in H.
  destruct (mat_mul VD (sdiag S)) as [fd|] eqn:Hfd; [|done].
  unfold bindM, modifyM, retM in H. injection H as <- <-.
  exists c2f, VOL, S, nfx, nfy, nf, VD, D, entries.
  rewrite <- HS in *. repeat split; try done.
Qed.

Lemma mat_mul_sdiag_l_shape v B C :
  mat_mul (sdiag v) B = Ok C ->
  fst (shape B) = Z.of_nat (length v)
  /\ shape C = (fst (shape B), snd (shape B)).
Proof.
  intros H. apply mat_mul_Ok in H as [Hs ->].
  rewrite shape_sdiag in *. cbn [fst snd] in *.
  split; [done|]. by rewrite shape_mk_matrix, Hs.
Qed.

Lemma mat_mul_sdiag_r_shape A v C :
  mat_mul A (sdiag v) = Ok C ->
  snd (shape A) = Z.of_nat (length v)
  /\ shape C = (fst (shape A), snd (shape A)).
Proof.
  intros H. apply mat_mul_Ok in H as [Hs ->].
  rewrite shape_sdiag in *. cbn [fst snd] in *.
  split; [done|]. by rewrite shape_mk_matrix, <- Hs.
Qed.

Lemma lookup_reciprocal (VOL : list Qc) (i : nat) :
  default 0%Qc (map (fun v => 1 / v)%Qc VOL !! i)
  = (1 / default 0 (VOL !! i))%Qc.
Proof.
  change (map (fun v => (1 / v)%Qc) VOL) with ((fun v => (1 / v)%Qc) <$> VOL).
  rewrite list_lookup_fmap. destruct (VOL !! i); [done|].
  apply Qc_is_canon. reflexivity.
Qed.

(** C3: on a mesh that refinement reaches, [faceDiv], when it returns, is
    the matrix of shape [(nC, nF)] whose entry [(i, j)] is the entry of the
    raw incidence divided by the volume of the [i]-th cell and multiplied by
    the area of face [j]; the raw incidence has in row [i], for the [i]-th
    cell in the order of the indices and each of its [2d] directions in the
    order [-x, +x, -y, +y, -z, +z], the sign [-1, +1, -1, +1, -1, +1] of the
    direction at the column [offset + f] for every face id [f] of
    [c2f[cell][direction]], the offsets being
    [0, 0, nFx, nFx, nFx + nFy, nFx + nFy]. *)
Theorem faceDiv_is_scaled_incidence
    (h_in : list h_entry) (L : Z) (t0 t : Tree) (fuel : nat)
    (M : Matrix) (t' : Tree) :
  Tree_init h_in L = Ok t0 -> dim t0 = 2 \/ dim t0 = 3 ->
  reachable t0 t ->
  faceDiv fuel t = (Ok M, t') ->
  exists c2f VOL S nfx nfy nf,
    _c2f t' = Some c2f /\ _vol t' = Some VOL /\ _area t' = Some S /\
    _nFx t' = Some nfx /\ _nFy t' = Some nfy /\ _nF t' = Some nf /\
    _faceDiv t' = Some M /\
    shape M = (nC t', nf) /\
    Z.of_nat (length VOL) = nC t' /\ Z.of_nat (length S) = nf /\
    forall i j, 0 <= i < nC t' -> 0 <= j < nf ->
      mat_get M i j
      = (1 / default 0 (VOL !! Z.to_nat i)
         * raw_incidence c2f (sorted (_treeInds t')) (dim t') nfx nfy i j
         * default 0 (S !! Z.to_nat j))%Qc.
Proof.
  intros H0 Hd Hreach Hrun.
  destruct (Tree_init_Ok _ _ _ H0) as (hs & -> & _).
  destruct (reachable_unnumbered _ _ _ Hreach) as (F & Hs & Hf).
  rewrite <- (frame_dim _ _ F) in Hd.
  destruct (faceDiv_run fuel t M t' Hd Hs Hf Hrun)
    as (c2f & VOL & S & nfx & nfy & nf & VD & D & entries
        & Hc2f & Hvol & Harea & Hnfx & Hnfy & Hnf & HM & HS & HF
        & Hentries & HD & HVD & Hfd).
  exists c2f, VOL, S, nfx, nfy, nf. repeat (split; [done|]).
  assert (nC t' = nC t) as -> by (unfold nC; by rewrite HS).
  rewrite HS, (frame_dim _ _ HF).
  apply csr_matrix_Ok in HD as [HshD HgetD].
  pose proof (mat_mul_sdiag_l_shape _ _ _ HVD) as [Hlen1 HshVD].
  pose proof (mat_mul_sdiag_r_shape _ _ _ Hfd) as [Hlen2 HshM].
  rewrite HshD in *. cbn [fst snd] in *. rewrite HshVD in *. cbn [fst snd] in *.
  rewrite length_map in Hlen1.
  split; [done|]. split; [done|]. split; [done|].
  intros i j Hi Hj.
  pose proof (mat_mul_sdiag_r _ _ _ i j Hfd) as (_ & _ & ->);
    [rewrite HshVD; cbn [fst]; lia|rewrite HshVD; cbn [snd]; lia|].
  pose proof (mat_mul_sdiag_l _ _ _ i j HVD) as (_ & _ & ->);
    [rewrite HshD; cbn [fst]; lia|rewrite HshD; cbn [snd]; lia|].
  rewrite HgetD by lia. rewrite lookup_reciprocal.
  rewrite (entries_hits c2f (dim t) nfx nfy _ entries i j Hd) by (lia || done).
  done.
Qed.


Definition S1_faceDiv : Result Matrix * Tree := faceDiv recursion_limit S1_mesh.

Lemma faceDiv_is_scaled_incidence_witness :
  exists M t',
    S1_faceDiv = (Ok M, t')
    /\ exists c2f VOL S nfx nfy nf,
    _c2f t' = Some c2f /\ _vol t' = Some VOL /\ _area t' = Some S /\
    _nFx t' = Some nfx /\ _nFy t' = Some nfy /\ _nF t' = Some nf /\
    _faceDiv t' = Some M /\
    shape M = (nC t', nf) /\
    Z.of_nat (length VOL) = nC t' /\ Z.of_nat (length S) = nf /\
    forall i j, 0 <= i < nC t' -> 0 <= j < nf ->
      mat_get M i j
      = (1 / default 0 (VOL !! Z.to_nat i)
         * raw_incidence c2f (sorted (_treeInds t')) (dim t') nfx nfy i j
         * default 0 (S !! Z.to_nat j))%Qc.
Proof.
  destruct S1_faceDiv as [[M|e] t'] eqn:H.
  - exists M, t'. split; [reflexivity|].
    apply (faceDiv_is_scaled_incidence [HNum 4; HNum 4] 2 (new_tree S1_h 2)
             S1_mesh recursion_limit M t').
    + reflexivity.
    + left. reflexivity.
    + apply reach_refine, reach_new.
    + exact H.
  - exfalso. vm_compute in H. discriminate H.
Defined.

(** * More of the module *)

(** ** The codec, from indices to pointers and back *)

Lemma point_then_index (z : ZCurve) (idx : Z) :
  0 < dimension z -> 0 <= bits z ->
  exists p, point z idx = Ok p /\
    index z p = Ok (idx mod 2 ^ (bits z * dimension z)).
Proof.
  intros Hd Hb. destruct (point_Ok z Hd idx) as (p & Hp & Hlen & Hbits).
  exists p. split; [done|].
  destruct (index_Ok z Hd p Hlen) as (i & Hi & Hibits).
  rewrite Hi. f_equal. apply Z.bits_inj'. intros n Hn.
  rewrite Hibits by done.
  destruct (Z.ltb_spec n (bits z * dimension z)) as [Hlt|Hge].
  - rewrite Z.mod_pow2_bits_low by lia. simpl.
    assert (0 <= n mod dimension z < dimension z) by (apply Z.mod_pos_bound; lia).
    assert (0 <= n / dimension z) by (apply Z.div_pos; lia).
    assert (n / dimension z < bits z) by (apply Z.div_lt_upper_bound; lia).
    rewrite Hbits by lia.
    destruct (Z.ltb_spec (n / dimension z) (bits z)); [|lia]. simpl.
    f_equal. rewrite (Z.div_mod n (dimension z)) at 3 by lia. lia.
  - rewrite Z.mod_pow2_bits_high by lia. done.
Qed.

(** X1: [ZCurve.point] returns on every integer, and [ZCurve.index] of
    the point is the integer reduced to its [bits * dimension] low bits. *)
Theorem point_index_round_trip (z : ZCurve) (idx : Z) :
  0 < dimension z -> 0 <= bits z ->
  exists p, point z idx = Ok p /\
    index z p = Ok (idx mod 2 ^ (bits z * dimension z)).
Proof. apply point_then_index. Qed.

Lemma point_index_round_trip_witness :
  exists p, point {| dimension := 2; bits := 20 |} 27 = Ok p /\
    index {| dimension := 2; bits := 20 |} p = Ok (27 mod 2 ^ (20 * 2)).
Proof.
  apply (point_index_round_trip {| dimension := 2; bits := 20 |} 27); simpl; lia.
Defined.

Lemma index_mod z p :
  0 < dimension z -> 0 <= bits z -> Z.of_nat (length p) = dimension z ->
  index z (map (fun c => c mod 2 ^ bits z) p) = index z p.
Proof.
  intros Hd Hb Hlen.
  destruct (index_Ok z Hd p Hlen) as (i & Hi & Hib).
  destruct (index_Ok z Hd (map (fun c => c mod 2 ^ bits z) p)) as (j & Hj & Hjb);
    [by rewrite length_map|].
  rewrite Hi, Hj. f_equal. apply Z.bits_inj'. intros n Hn.
  rewrite Hib, Hjb by done.
  destruct (Z.ltb_spec n (bits z * dimension z)) as [Hlt|Hge]; [|done]. simpl.
  assert (0 <= n mod dimension z < dimension z) by (apply Z.mod_pos_bound; lia).
  assert (0 <= n / dimension z) by (apply Z.div_pos; lia).
  assert (n / dimension z < bits z) by (apply Z.div_lt_upper_bound; lia).
  unfold coord. rewrite list_lookup_fmap.
  destruct (p !! Z.to_nat (n mod dimension z)) as [c|] eqn:E; simpl; [|done].
  by rewrite Z.mod_pow2_bits_low by lia.
Qed.

(** X2: [_index] reads the 20 low bits of each coordinate and nothing
    else of it: a pointer whose coordinates are outside [0, 2^20) is not
    refused, it has the index of the pointer with the coordinates
    reduced modulo 2^20. *)
Theorem index_wraps_coordinates (t : Tree) (coords : list Z) (l : Z) :
  constructed t ->
  _index t (map (fun c => c mod 2 ^ 20) coords ++ [l]) = _index t (coords ++ [l]).
Proof.
  intros (Hd & HL & Hz & HB). unfold _index.
  rewrite !length_app, length_map, !py_last_snoc, !py_init_snoc. simpl.
  destruct (Z.eqb_spec (Z.of_nat (length coords + 1)) (dim t + 1)) as [Hlen|];
    [|done].
  simpl. destruct (l <=? levels t); [|done]. simpl.
  pose proof (index_mod (_z t) coords) as H. rewrite Hz in *. simpl in H.
  rewrite H by lia. done.
Qed.

Lemma index_wraps_coordinates_witness :
  _index (new_tree S1_h 2) (map (fun c => c mod 2 ^ 20) [2 ^ 20 + 2; -1] ++ [1])
  = _index (new_tree S1_h 2) ([2 ^ 20 + 2; -1] ++ [1]).
Proof.
  apply (index_wraps_coordinates (new_tree S1_h 2)).
  apply new_tree_constructed; simpl; lia.
Defined.

(** X3: [_pointer] returns on every integer, a pointer of [dim]
    coordinates in [0, 2^20) and a level field in [0, 2^_levelBits);
    [_index] sends that pointer back to the integer reduced to the
    [20 * dim + _levelBits] bits of the codec when the level field is a
    level of the mesh, and is an AssertionError when it is not. *)
Theorem pointer_index_round_trip (t : Tree) (i : Z) :
  constructed t ->
  exists coords l, _pointer t i = Ok (coords ++ [l]) /\
    Z.of_nat (length coords) = dim t /\
    Forall (fun c => 0 <= c < 2 ^ 20) coords /\
    l = i mod 2 ^ _levelBits t /\
    _index t (coords ++ [l])
    = if l <=? levels t then Ok (i mod 2 ^ (20 * dim t + _levelBits t))
      else Raise AssertionError.
Proof.
  intros C. pose proof C as (Hd & HL & Hz & HB).
  assert (0 <= _levelBits t) as HB0.
  { rewrite HB. pose proof (Z.sqrt_up_nonneg (levels t)). lia. }
  unfold _pointer.
  destruct (point_then_index (_z t) (Z.shiftr i (_levelBits t)))
    as (p & Hp & Hi); [rewrite Hz; simpl; lia..|].
  assert (0 < dimension (_z t)) as Hdz by (rewrite Hz; simpl; lia).
  assert (0 <= bits (_z t)) as Hbz by (rewrite Hz; simpl; lia).
  destruct (point_bounds _ _ _ Hdz Hbz Hp) as [Hlen Hb].
  rewrite Hz in Hlen, Hb. simpl in Hlen, Hb.
  exists p, (Z.land i (2 ^ _levelBits t - 1)). rewrite Hp. simpl.
  split; [done|]. split; [done|]. split; [done|].
  assert (Z.land i (2 ^ _levelBits t - 1) = i mod 2 ^ _levelBits t) as El.
  { change (2 ^ _levelBits t - 1) with (Z.pred (2 ^ _levelBits t)).
    rewrite <- Z.ones_equiv. by apply Z.land_ones. }
  split; [done|]. rewrite El.
  destruct (Z.leb_spec (i mod 2 ^ _levelBits t) (levels t)) as [Hl|Hl].
  - rewrite _index_snoc by done. rewrite Hi. simpl. f_equal.
    rewrite Hz. simpl.
    rewrite Z.shiftl_mul_pow2, Z.shiftr_div_pow2 by lia.
    rewrite Z.pow_add_r by lia.
    assert (0 < 2 ^ _levelBits t) by (apply Z.pow_pos_nonneg; lia).
    assert (0 < 2 ^ (20 * dim t)) by (apply Z.pow_pos_nonneg; lia).
    rewrite (Z.mul_comm (2 ^ (20 * dim t))).
    rewrite Z.rem_mul_r by lia. lia.
  - unfold _index. rewrite length_app, py_last_snoc. simpl.
    rewrite (proj2 (Z.eqb_eq _ _)) by lia. simpl.
    destruct (Z.leb_spec (i mod 2 ^ _levelBits t) (levels t)); [lia|done].
Qed.

Lemma pointer_index_round_trip_witness :
  exists coords l, _pointer (new_tree S1_h 2) 1234 = Ok (coords ++ [l]) /\
    Z.of_nat (length coords) = dim (new_tree S1_h 2) /\
    Forall (fun c => 0 <= c < 2 ^ 20) coords /\
    l = 1234 mod 2 ^ _levelBits (new_tree S1_h 2) /\
    _index (new_tree S1_h 2) (coords ++ [l])
    = if l <=? levels (new_tree S1_h 2)
      then Ok (1234 mod 2 ^ (20 * dim (new_tree S1_h 2)
                             + _levelBits (new_tree S1_h 2)))
      else Raise AssertionError.
Proof.
  apply (pointer_index_round_trip (new_tree S1_h 2) 1234).
  apply new_tree_constructed; simpl; lia.
Defined.

(** X4: the two assertions of [_index] are all that can fail in it: it
    returns exactly on the lists of [dim + 1] entries whose last one is
    at most [levels], and every other list is an AssertionError; once
    the length has passed, the loop of the codec reads no entry that is
    not there. *)
Theorem index_returns_iff (t : Tree) (p : list Z) :
  constructed t ->
  if (Z.of_nat (length p) =? dim t + 1) && (default 0 (last p) <=? levels t)
  then exists i, _index t p = Ok i /\ 0 <= i - default 0 (last p)
  else _index t p = Raise AssertionError.
Proof.
  intros C. pose proof C as (Hd & HL & Hz & HB).
  destruct (Z.eqb_spec (Z.of_nat (length p)) (dim t + 1)) as [Hlen|Hlen]; simpl.
  - destruct p as [|l p _] using rev_ind; [simpl in Hlen; lia|].
    rewrite last_snoc. simpl. rewrite length_app in Hlen. simpl in Hlen.
    destruct (Z.leb_spec l (levels t)) as [Hl|Hl].
    + rewrite _index_cell by (done || lia). eexists. split; [done|].
      unfold cell_index. rewrite Z.shiftl_mul_pow2
        by (rewrite HB; pose proof (Z.sqrt_up_nonneg (levels t)); lia).
      assert (0 < dimension (_z t)) as Hdz by (rewrite Hz; simpl; lia).
      assert (Z.of_nat (length p) = dimension (_z t)) as Hlz
        by (rewrite Hz; simpl; lia).
      destruct (index_Ok (_z t) Hdz p Hlz) as (x & Hx & Hbits).
      rewrite index_morton in Hx by (rewrite Hz; simpl; lia).
      injection Hx as ->.
      assert (0 <= x).
      { apply Z.bits_iff_nonneg_ex. exists (bits (_z t) * dimension (_z t)).
        intros n Hn. rewrite Hbits by (rewrite Hz in Hn; simpl in Hn; lia).
        destruct (Z.ltb_spec n (bits (_z t) * dimension (_z t))); [lia|done]. }
      assert (0 < 2 ^ _levelBits t)
        by (apply Z.pow_pos_nonneg;
            [lia|rewrite HB; pose proof (Z.sqrt_up_nonneg (levels t)); lia]).
      nia.
    + unfold _index. rewrite (proj2 (Z.eqb_eq _ _)) by (rewrite length_app; simpl; lia).
      simpl. rewrite py_last_snoc. simpl.
      destruct (Z.leb_spec l (levels t)); [lia|done].
  - unfold _index. destruct (Z.eqb_spec (Z.of_nat (length p)) (dim t + 1)); [lia|done].
Qed.

Lemma index_returns_iff_witness :
  exists i, _index (new_tree S1_h 2) [2; 2; 1] = Ok i /\ 0 <= i - 1.
Proof.
  apply (index_returns_iff (new_tree S1_h 2) [2; 2; 1]).
  apply new_tree_constructed; simpl; lia.
Defined.

(** ** Refinement, one cell at a time *)

(** X5: a call of [_refineCell] that raises has added no cell and removed
    none: the live set and the spacings are those of before, and the
    numbering is marked as to be redone. *)
Theorem refineCell_failure_keeps_cells (t : Tree) (c : cellref) :
  constructed t -> dim t = 2 \/ dim t = 3 ->
  is_Ok (fst (_refineCell c t)) = false ->
  _treeInds (snd (_refineCell c t)) = _treeInds t
  /\ frame (snd (_refineCell c t)) = frame t
  /\ __dirty__ (snd (_refineCell c t)) = true.
Proof.
  intros C D.
  destruct (_refineCell_cases t c C D)
    as [(coords & l & ind & _ & _ & _ & _ & _ & Hrun)|(e & Hrun & _)];
    rewrite Hrun; simpl; [done|]. intros _.
  split; [apply structure_changed_treeInds|].
  split; [apply structure_changed_frame|apply structure_changed_dirty].
Qed.

Lemma refineCell_failure_keeps_cells_witness :
  _treeInds (snd (_refineCell (Idx 5) (new_tree S1_h 2)))
  = _treeInds (new_tree S1_h 2)
  /\ frame (snd (_refineCell (Idx 5) (new_tree S1_h 2)))
     = frame (new_tree S1_h 2)
  /\ __dirty__ (snd (_refineCell (Idx 5) (new_tree S1_h 2))) = true.
Proof.
  apply (refineCell_failure_keeps_cells (new_tree S1_h 2) (Idx 5)).
  - apply new_tree_constructed; simpl; lia.
  - left. reflexivity.
  - vm_compute. reflexivity.
Defined.

Lemma length_py_slice {A} (l : list A) (a b : Z) :
  (length (py_slice l a b) <= length l)%nat.
Proof.
  unfold py_slice. rewrite length_take, length_drop. lia.
Qed.

(** X6: on a mesh of more than three axes, which the constructor builds,
    [_refineCell] raises whatever it is given, and changes no cell: the
    children are made from offsets of at most three entries, which
    [_index] refuses. *)
Theorem refineCell_beyond_3d (t : Tree) (c : cellref) :
  constructed t -> 3 < dim t ->
  exists e, _refineCell c t = (Raise e, structure_changed t).
Proof.
  intros C Hdim. unfold _refineCell.
  rewrite (bindM_Ok _structureChange _ t tt _ (_structureChange_run t)).
  set (t1 := structure_changed t).
  assert (frame t1 = frame t) as F by apply structure_changed_frame.
  destruct (_asPointer t1 c) as [p|e] eqn:Hp;
    [|exists e; by apply bindM_liftM_Raise].
  rewrite (bindM_liftM_Ok _ _ t1 p) by done.
  destruct (_asIndex t1 (Ptr p)) as [ind|e] eqn:Hi;
    [|exists e; by apply bindM_liftM_Raise].
  rewrite (bindM_liftM_Ok _ _ t1 ind) by done.
  rewrite (bindM_liftM_Ok _ _ t1 (bool_decide (ind ∈ _treeInds t1))) by done.
  destruct (bool_decide (ind ∈ _treeInds t1)); [|by exists AssertionError].
  rewrite (bindM_liftM_Ok _ _ t1 tt) by done.
  destruct (py_last p) as [l|e] eqn:Hl; [|exists e; by apply bindM_liftM_Raise].
  rewrite (bindM_liftM_Ok _ _ t1 l) by done.
  rewrite (bindM_liftM_Ok _ _ t1 (dim t1)) by done.
  rewrite (bindM_liftM_Ok _ _ t1 (_levelWidth t1 l / 2)) by done.
  exists AssertionError.
  set (kid := add_offsets p (py_slice [0; 0; 0] 0 (dim t1))).
  assert (_index t1 (kid ++ [l + 1]) = Raise AssertionError) as He.
  { unfold _index. rewrite length_app. simpl.
    assert (length kid <= 3)%nat.
    { unfold kid, add_offsets. rewrite length_zip_with.
      pose proof (length_py_slice [0; 0; 0] 0 (dim t1)). simpl in *. lia. }
    rewrite (frame_dim _ _ F).
    destruct (Z.eqb_spec (Z.of_nat (length kid + 1)) (dim t + 1)); [lia|done]. }
  unfold addCell at 1. rewrite bindM_assoc.
  by apply bindM_liftM_Raise.
Qed.

Lemma refineCell_beyond_3d_witness :
  exists e,
    _refineCell (Idx 0) (new_tree [[1%Qc]; [1%Qc]; [1%Qc]; [1%Qc]] 0)
    = (Raise e, structure_changed (new_tree [[1%Qc]; [1%Qc]; [1%Qc]; [1%Qc]] 0)).
Proof.
  apply (refineCell_beyond_3d (new_tree [[1%Qc]; [1%Qc]; [1%Qc]; [1%Qc]] 0)).
  - apply new_tree_constructed; simpl; lia.
  - unfold dim. simpl. lia.
Defined.

(** ** The meshes that refinement reaches, as sets of boxes *)

(** The corner of every live cell is a multiple of the cell's width. *)
Definition aligned (t : Tree) : Prop :=
  forall coords l, in_codec t coords l -> cell_index t coords l ∈ _treeInds t ->
    Forall (fun c => c mod _levelWidth t l = 0) coords.

Lemma in_codec_frame t t' coords l :
  frame t' = frame t -> in_codec t' coords l -> in_codec t coords l.
Proof.
  intros F (H1 & H2 & H3).
  rewrite (frame_dim _ _ F) in H1. rewrite (frame_levels _ _ F) in H2. done.
Qed.

Lemma aligned_ext t t' :
  frame t' = frame t -> _treeInds t' = _treeInds t -> aligned t -> aligned t'.
Proof.
  intros F S Hal coords l Hin Hlive.
  rewrite (_levelWidth_frame _ _ _ F).
  apply Hal; [by eapply in_codec_frame|].
  by rewrite <- S, <- (cell_index_frame _ _ _ _ F).
Qed.

Lemma aligned_child w hw coords off :
  w = 2 * hw -> 0 < hw -> corner hw (length coords) off ->
  Forall (fun c => c mod w = 0) coords ->
  Forall (fun c => c mod hw = 0) (zip_with Z.add coords off).
Proof.
  intros -> Hhw [Hlen Hoff] Hc. revert off Hlen Hoff.
  induction Hc as [|c coords Hc0 _ IH]; intros [|o off] Hlen Hoff;
    simpl in *; try done.
  apply Forall_cons_1 in Hoff as [Ho Hoff].
  constructor; [|apply IH; [lia|done]].
  apply Z.mod_divide in Hc0; [|lia]. destruct Hc0 as [q ->].
  apply Z.mod_divide; [lia|].
  destruct Ho as [->| ->].
  - exists (2 * q). lia.
  - exists (2 * q + 1). lia.
Qed.

Lemma _refineCell_aligned t c :
  mesh_ok t -> aligned t -> valid_ref c -> aligned (snd (_refineCell c t)).
Proof.
  intros Hok Hal Hv. pose proof Hok as [C D L20 _ _].
  destruct (_refineCell_cases t c C D)
    as [(coords & l & ind & Hp & Hlen & Hi & Hlive & Hl & Hrun)|(e & Hrun & _)];
    rewrite Hrun; cbn [snd].
  2:{ revert Hal. apply aligned_ext;
        [apply structure_changed_frame|apply structure_changed_treeInds]. }
  destruct (valid_ref_in_codec t c coords l ind C Hv Hp Hi) as [Hin ->].
  pose proof (live_box_ok t coords l Hok Hin Hlive) as Hbox.
  destruct (_levelWidth_half t l Hl) as (Hw & Hhw & Hw').
  set (t' := set_treeInds _ _).
  assert (frame t' = frame t) as F by exact (structure_changed_frame t).
  intros coords' l' Hin' Hlive'.
  apply (in_codec_frame _ _ _ _ F) in Hin'.
  rewrite (cell_index_frame _ _ _ _ F) in Hlive'.
  rewrite (_levelWidth_frame _ _ _ F).
  unfold t' in Hlive'. rewrite _treeInds_set in Hlive'.
  apply elem_of_difference in Hlive' as [Hlive' _].
  apply elem_of_union in Hlive' as [Hlive'|Hkid]; [by apply Hal|].
  apply elem_of_list_to_set, elem_of_children in Hkid as (off & Hoff & E).
  apply child_offsets_corner in Hoff; [|done].
  replace (Z.to_nat (dim t)) with (length coords) in Hoff
    by (destruct Hbox; lia).
  pose proof (child_box_ok t coords l off Hl Hbox Hoff) as Hkb.
  apply cell_index_inj in E; [|done|done|by apply box_ok_in_codec].
  apply snoc_inj in E as [-> ->]. rewrite Hw'.
  apply (aligned_child (_levelWidth t l)); try done.
  by apply Hal.
Qed.

(** The number of live cells, counted from the single cell of the start *)
Definition counted (t : Tree) : Prop :=
  1 <= nC t /\ (nC t - 1) mod (2 ^ dim t - 1) = 0.

Lemma length_children t coords l :
  dim t = 2 \/ dim t = 3 -> Z.of_nat (length (children t coords l)) = 2 ^ dim t.
Proof.
  intros D. unfold children. rewrite length_map.
  destruct D as [-> | ->]; reflexivity.
Qed.

Lemma size_positive (s : gset Z) i : i ∈ s -> 1 <= Z.of_nat (size s).
Proof.
  intros Hi. destruct (decide (size s = 0%nat)) as [E|]; [|lia].
  apply size_empty_inv in E. apply leibniz_equiv in E. subst s.
  by apply not_elem_of_empty in Hi.
Qed.

Lemma _refineCell_nC t c added t' :
  mesh_ok t -> valid_ref c -> _refineCell c t = (Ok added, t') ->
  nC t' = nC t + 2 ^ dim t - 1 /\ dim t' = dim t.
Proof.
  intros Hok Hv Hrun'. pose proof Hok as [C D L20 _ _].
  destruct (_refineCell_cases t c C D)
    as [(coords & l & ind & Hp & Hlen & Hi & Hlive & Hl & Hrun)|(e & Hrun & _)];
    rewrite Hrun in Hrun'; [|done].
  injection Hrun' as <- <-.
  destruct (valid_ref_in_codec t c coords l ind C Hv Hp Hi) as [Hin ->].
  split; [|exact (frame_dim _ _ (structure_changed_frame t))].
  unfold nC. rewrite _treeInds_set.
  pose proof (refined_elements t coords l Hok Hin Hlive Hl) as E1.
  pose proof (live_elements t coords l Hlive) as E2.
  apply Permutation_length in E1, E2.
  rewrite length_app in E1. simpl in E2.
  pose proof (length_children t coords l D) as Hk.
  unfold size, set_size. simpl. unfold size, set_size in E1, E2. simpl in *.
  lia.
Qed.

Lemma _refineCell_counted t0 c :
  valid_ref c ->
  keeps (fun t => refined_from t0 t /\ counted t) (_refineCell c).
Proof.
  intros Hv t [Hr [Hc1 Hc2]]. split; [by apply _refineCell_refined_from|].
  pose proof Hr as (Hok & _). pose proof Hok as [C D L20 _ _].
  destruct (_refineCell c t) as [[added|e] t'] eqn:Hrun.
  - destruct (_refineCell_nC t c added t' Hok Hv Hrun) as [En Ed].
    simpl. unfold counted. rewrite En, Ed.
    assert (2 <= 2 ^ dim t - 1) by (destruct D as [-> | ->]; simpl; lia).
    split; [lia|].
    replace (nC t + 2 ^ dim t - 1 - 1)
      with (nC t - 1 + 1 * (2 ^ dim t - 1)) by lia.
    by rewrite Z.mod_add by lia.
  - destruct (_refineCell_cases t c C D)
      as [(coords & l & ind & _ & _ & _ & _ & _ & Hrun')|(e' & Hrun' & _)];
      rewrite Hrun' in Hrun; [done|]. injection Hrun as <- <-. simpl.
    unfold counted, nC, dim in *.
    rewrite structure_changed_treeInds.
    pose proof (structure_changed_frame t) as [= -> _ _ _]. done.
Qed.

(** X7: refinement only ever trades one cell for [2^d]: on every mesh it
    reaches from the constructor's, [nC] is 1 plus a multiple of
    [2^d - 1], so a quadtree has 1, 4, 7, ... cells and an octree
    1, 8, 15, ... *)
Theorem reachable_cell_count (h_in : list h_entry) (L : Z) (t0 t : Tree) :
  Tree_init h_in L = Ok t0 -> dim t0 <= 3 -> L <= 20 -> reachable t0 t ->
  1 <= nC t /\ (nC t - 1) mod (2 ^ dim t - 1) = 0.
Proof.
  intros H0 Hd HL Hreach.
  pose proof (Tree_init_refined_from _ _ _ H0 Hd HL) as R0.
  assert (counted t0) as C0.
  { destruct (Tree_init_Ok _ _ _ H0) as (hs & -> & _ & Hlen & _).
    unfold counted, nC.
    change (_treeInds (new_tree hs L)) with ({[ 0 ]} : gset Z).
    rewrite size_singleton. split; [lia|]. apply Z.mod_0_l.
    unfold dim. cbn [h new_tree].
    assert (2 ^ 2 <= 2 ^ Z.of_nat (length hs))
      by (apply Z.pow_le_mono_r; lia). lia. }
  cut (refined_from t0 t /\ counted t); [by intros [_ ?]|].
  induction Hreach as [|t c _ IH Hv|t fuel f r cells _ IH]; [done| |].
  - by apply _refineCell_counted.
  - apply (keeps_refine (fun t => refined_from t0 t /\ counted t)); [|done].
    intros c. by apply _refineCell_counted.
Qed.

Lemma reachable_cell_count_witness :
  1 <= nC S1_mesh /\ (nC S1_mesh - 1) mod (2 ^ dim S1_mesh - 1) = 0.
Proof.
  apply (reachable_cell_count [HNum 4; HNum 4] 2 (new_tree S1_h 2) S1_mesh).
  - reflexivity.
  - unfold dim. simpl. lia.
  - lia.
  - apply reach_refine, reach_new.
Defined.

Lemma new_tree_aligned hs L :
  (length hs = 2 \/ length hs = 3)%nat -> 0 <= L <= 20 -> aligned (new_tree hs L).
Proof.
  intros Hd HL. set (t := new_tree hs L).
  assert (constructed t) as C by (apply new_tree_constructed; lia).
  intros coords l Hin Hlive.
  change (cell_index t coords l ∈ ({[ 0 ]} : gset Z)) in Hlive.
  apply elem_of_singleton in Hlive.
  rewrite <- (cell_index_zeros t C) in Hlive.
  apply cell_index_inj in Hlive; [|done|done|].
  2:{ split; [rewrite length_replicate; unfold dim; lia|].
      split; [unfold levels, t; simpl; lia|]. apply Forall_replicate. lia. }
  apply snoc_inj in Hlive as [-> ->].
  apply Forall_replicate. apply Z.mod_0_l.
  pose proof (_levelWidth_pos t 0). unfold levels, t in *. simpl in *. lia.
Qed.

Lemma reachable_aligned h_in L t0 t :
  Tree_init h_in L = Ok t0 -> dim t0 <= 3 -> L <= 20 -> reachable t0 t ->
  refined_from t0 t /\ aligned t.
Proof.
  intros H0 Hd HL Hreach.
  pose proof (Tree_init_refined_from _ _ _ H0 Hd HL) as R0.
  assert (aligned t0) as A0.
  { destruct (Tree_init_Ok _ _ _ H0) as (hs & -> & _ & Hlen & HL0 & _).
    unfold dim in Hd. simpl in Hd. apply new_tree_aligned; lia. }
  assert (forall c, valid_ref c ->
            keeps (fun t => refined_from t0 t /\ aligned t) (_refineCell c)) as K.
  { intros c Hv t' [Hr Ha]. split; [by apply _refineCell_refined_from|].
    apply _refineCell_aligned; [by destruct Hr|done..]. }
  induction Hreach as [|t c _ IH Hv|t fuel f r cells _ IH]; [done| |].
  - by apply K.
  - apply (keeps_refine (fun t => refined_from t0 t /\ aligned t)); [|done].
    intros c. by apply K.
Qed.

(** X8: on every mesh that refinement reaches from the constructor's,
    each live index is the index of its own pointer, the cell of that
    pointer lies inside the mesh with its corner on a multiple of its
    width, and the cells of two different live indices are separated
    along some axis. *)
Theorem reachable_cells_tile (h_in : list h_entry) (L : Z) (t0 t : Tree) :
  Tree_init h_in L = Ok t0 -> dim t0 <= 3 -> L <= 20 -> reachable t0 t ->
  (forall i, i ∈ _treeInds t ->
     exists coords l,
       _pointer t i = Ok (coords ++ [l]) /\ _index t (coords ++ [l]) = Ok i /\
       0 <= l <= levels t /\
       Forall (fun c => 0 <= c /\ c + _levelWidth t l <= 2 ^ levels t
                        /\ c mod _levelWidth t l = 0) coords)
  /\ (forall i j ci li cj lj,
        i ∈ _treeInds t -> j ∈ _treeInds t -> i <> j ->
        _pointer t i = Ok (ci ++ [li]) -> _pointer t j = Ok (cj ++ [lj]) ->
        Exists (fun ab => fst ab + _levelWidth t li <= snd ab
                          \/ snd ab + _levelWidth t lj <= fst ab)
               (zip ci cj)).
Proof.
  intros H0 Hd HL Hreach.
  destruct (reachable_aligned _ _ _ _ H0 Hd HL Hreach)
    as [(Hok & _) Hal].
  pose proof Hok as [C D L20 Hc Hdis].
  assert (forall i, i ∈ _treeInds t ->
            exists coords l, box_ok t coords l /\ i = cell_index t coords l
              /\ _pointer t i = Ok (coords ++ [l])) as Hrep.
  { intros i Hi. destruct (Hc i Hi) as (coords & l & Hb & ->).
    exists coords, l. split; [done|]. split; [done|].
    apply _pointer_cell; [done|by apply box_ok_in_codec]. }
  split.
  - intros i Hi. destruct (Hrep i Hi) as (coords & l & Hb & -> & Hp).
    exists coords, l. split; [done|].
    pose proof Hb as (Hlen & Hl & Hcs).
    split; [apply _index_cell; [done..|lia]|]. split; [done|].
    pose proof (Hal coords l (box_ok_in_codec _ _ _ L20 Hb) Hi) as Ha.
    apply Forall_and. split; [|apply Forall_and; split]; try done.
    + eapply Forall_impl; [exact Hcs|]. by intros c [? ?].
    + eapply Forall_impl; [exact Hcs|]. by intros c [? ?].
  - intros i j ci li cj lj Hi Hj Hne Hpi Hpj.
    destruct (Hrep i Hi) as (ci' & li' & Hbi & Ei & Hpi').
    destruct (Hrep j Hj) as (cj' & lj' & Hbj & Ej & Hpj').
    rewrite Hpi in Hpi'. injection Hpi' as E. apply snoc_inj in E as [<- <-].
    rewrite Hpj in Hpj'. injection Hpj' as E. apply snoc_inj in E as [<- <-].
    subst i j. apply (Hdis ci li cj lj); try done.
    intros E. apply snoc_inj in E as [-> ->]. done.
Qed.

Lemma reachable_cells_tile_witness :
  (forall i, i ∈ _treeInds S1_mesh ->
     exists coords l,
       _pointer S1_mesh i = Ok (coords ++ [l]) /\
       _index S1_mesh (coords ++ [l]) = Ok i /\
       0 <= l <= levels S1_mesh /\
       Forall (fun c => 0 <= c /\ c + _levelWidth S1_mesh l <= 2 ^ levels S1_mesh
                        /\ c mod _levelWidth S1_mesh l = 0) coords)
  /\ (forall i j ci li cj lj,
        i ∈ _treeInds S1_mesh -> j ∈ _treeInds S1_mesh -> i <> j ->
        _pointer S1_mesh i = Ok (ci ++ [li]) ->
        _pointer S1_mesh j = Ok (cj ++ [lj]) ->
        Exists (fun ab => fst ab + _levelWidth S1_mesh li <= snd ab
                          \/ snd ab + _levelWidth S1_mesh lj <= fst ab)
               (zip ci cj)).
Proof.
  apply (reachable_cells_tile [HNum 4; HNum 4] 2 (new_tree S1_h 2) S1_mesh).
  - reflexivity.
  - unfold dim. simpl. lia.
  - lia.
  - apply reach_refine, reach_new.
Defined.

Lemma parent_coords w hw coords off :
  w = 2 * hw -> 0 < hw -> corner hw (length coords) off ->
  Forall (fun c => c mod w = 0) coords ->
  map (fun p => p - p mod w) (zip_with Z.add coords off) = coords.
Proof.
  intros -> Hhw [Hlen Hoff] Hc. revert off Hlen Hoff.
  induction Hc as [|c coords Hc0 _ IH]; intros [|o off] Hlen Hoff;
    simpl in *; try done.
  apply Forall_cons_1 in Hoff as [Ho Hoff].
  f_equal; [|apply IH; [lia|done]].
  apply Z.mod_divide in Hc0; [|lia]. destruct Hc0 as [q ->].
  rewrite Z.add_comm, Z.mod_add by lia.
  rewrite Z.mod_small by lia. lia.
Qed.

Lemma _parentPointer_child t coords l off :
  l < levels t -> Forall (fun c => c mod _levelWidth t l = 0) coords ->
  corner (_levelWidth t l / 2) (length coords) off ->
  _parentPointer t (zip_with Z.add coords off ++ [l + 1]) = Ok (coords ++ [l]).
Proof.
  intros Hl Hc Hoff. unfold _parentPointer.
  rewrite py_last_snoc. simpl. rewrite py_init_snoc.
  replace (l + 1 - 1) with l by lia. do 2 f_equal.
  destruct (_levelWidth_half t l Hl) as (Hw & Hhw & _).
  by apply (parent_coords _ (_levelWidth t l / 2)).
Qed.

Lemma _parentPointer_frame t t' p :
  frame t' = frame t -> _parentPointer t' p = _parentPointer t p.
Proof.
  intros [= Hh HL HB Hz]. unfold _parentPointer, _levelWidth, levels.
  by rewrite HL.
Qed.

(** X9: [_parentPointer] undoes [_refineCell]: when a live cell of a mesh
    that refinement reaches is refined, the pointer of each index the
    call returns has the refined cell's pointer as its parent. *)
Theorem parent_of_refined_children
    (h_in : list h_entry) (L : Z) (t0 t : Tree) (c : cellref)
    (p added : list Z) :
  Tree_init h_in L = Ok t0 -> dim t0 <= 3 -> L <= 20 -> reachable t0 t ->
  valid_ref c -> _asPointer t c = Ok p ->
  fst (_refineCell c t) = Ok added ->
  Forall (fun i => exists q, _pointer (snd (_refineCell c t)) i = Ok q
                             /\ _parentPointer (snd (_refineCell c t)) q = Ok p)
         added.
Proof.
  intros H0 Hd HL Hreach Hv Hp Hrun'.
  destruct (reachable_aligned _ _ _ _ H0 Hd HL Hreach) as [(Hok & _) Hal].
  pose proof Hok as [C D L20 _ _].
  destruct (_refineCell_cases t c C D)
    as [(coords & l & ind & Hp' & Hlen & Hi & Hlive & Hl & Hrun)|(e & Hrun & _)];
    rewrite Hrun in *; [|done].
  cbn [fst] in Hrun'. injection Hrun' as <-.
  rewrite Hp in Hp'. injection Hp' as ->.
  destruct (valid_ref_in_codec t c coords l ind C Hv Hp Hi) as [Hin ->].
  pose proof (live_box_ok t coords l Hok Hin Hlive) as Hbox.
  cbn [snd]. set (t' := set_treeInds _ _).
  assert (frame t' = frame t) as F by exact (structure_changed_frame t).
  apply Forall_forall. intros i Hk.
  apply elem_of_children in Hk as (off & Hoff & ->).
  apply child_offsets_corner in Hoff; [|done].
  replace (Z.to_nat (dim t)) with (length coords) in Hoff
    by (destruct Hbox; lia).
  pose proof (child_box_ok t coords l off Hl Hbox Hoff) as Hkb.
  exists (zip_with Z.add coords off ++ [l + 1]). split.
  - rewrite (_pointer_frame t) by done.
    apply _pointer_cell; [done|by apply box_ok_in_codec].
  - assert (_parentPointer t' (zip_with Z.add coords off ++ [l + 1])
            = _parentPointer t (zip_with Z.add coords off ++ [l + 1])) as ->.
    { by apply _parentPointer_frame. }
    apply _parentPointer_child; [done| |done]. by apply Hal.
Qed.

Lemma parent_of_refined_children_witness :
  Forall (fun i => exists q,
            _pointer (snd (_refineCell (Idx 33) S1_mesh)) i = Ok q
            /\ _parentPointer (snd (_refineCell (Idx 33) S1_mesh)) q
               = Ok [2; 0; 1])
         [34; 42; 50; 58].
Proof.
  apply (parent_of_refined_children [HNum 4; HNum 4] 2 (new_tree S1_h 2)
           S1_mesh (Idx 33) [2; 0; 1] [34; 42; 50; 58]).
  - reflexivity.
  - unfold dim. simpl. lia.
  - lia.
  - apply reach_refine, reach_new.
  - exact I.
  - vm_compute. reflexivity.
  - vm_compute. reflexivity.
Defined.

(** ** The geometry of a cell *)

(** The origin of a cell, axis by axis: [hi[:c].sum()] *)
Definition cell_origin (t : Tree) (coords : list Z) : list Qc :=
  zip_with (fun hk c => Qcsum (py_slice hk 0 c)) (h t) coords.

Lemma _cellN_pointer t coords l :
  Z.of_nat (length coords) = dim t ->
  _cellN t (Ptr (coords ++ [l])) = Ok (cell_origin t coords).
Proof.
  intros Hlen. unfold _cellN. simpl. unfold cell_origin.
  apply (mapM_enumerate (fun hi c => Qcsum (py_slice hi 0 c))).
  unfold dim in Hlen. lia.
Qed.

Lemma _cellN_cell t coords l :
  constructed t -> in_codec t coords l ->
  _cellN t (Idx (cell_index t coords l)) = Ok (cell_origin t coords).
Proof.
  intros C Hin. pose proof (_cellN_pointer t coords l (proj1 Hin)) as H.
  unfold _cellN in *. simpl in *. by rewrite _pointer_cell.
Qed.

Lemma _cellC_pointer t coords l :
  Z.of_nat (length coords) = dim t ->
  _cellC t (Ptr (coords ++ [l]))
  = Ok (zip_with (fun w n => (w / Q2Qc 2 + n)%Qc)
          (cell_widths t coords l) (cell_origin t coords)).
Proof.
  intros Hlen. unfold _cellC.
  rewrite _cellH_pointer, _cellN_pointer by done. done.
Qed.




(** ** Positive spacings *)







(** ** The mesh the constructor returns, once more *)

Lemma Qcsum_replicate (k : nat) (x : Qc) :
  Qcsum (replicate k x) = (Q2Qc (inject_Z (Z.of_nat k)) * x)%Qc.
Proof.
  induction k as [|k IH].
  - cbn [replicate Qcsum foldr].
    change (Q2Qc (inject_Z (Z.of_nat 0))) with 0%Qc. ring.
  - cbn [replicate Qcsum foldr]. fold (Qcsum (replicate k x)). rewrite IH.
    assert (Q2Qc (inject_Z (Z.of_nat (S k)))
            = (1 + Q2Qc (inject_Z (Z.of_nat k)))%Qc) as ->; [|ring].
    apply Qc_is_canon. unfold Qcplus. simpl.
    rewrite !Qred_correct. rewrite Nat2Z.inj_succ.
    unfold Qeq, Qplus. simpl. lia.
Qed.

Lemma Qcsum_ones_over n : 0 < n -> Qcsum (ones_over n) = 1%Qc.
Proof.
  intros Hn. unfold ones_over. rewrite Qcsum_replicate.
  rewrite Z2Nat.id by lia. apply Qcmult_div_r.
  intros E. apply Q2Qc_eq_iff in E. unfold Qeq in E. simpl in E. lia.
Qed.

Definition is_number (h_i : h_entry) : Prop :=
  match h_i with HNum _ => True | HArray _ _ => False end.

(** X12: the mesh a successful constructor returns has the one live cell
    0, whose pointer is the origin at level 0 and whose widths are the
    sums of the spacings, so that it is the whole domain; and the axes
    given by a number have spacings that sum to 1: with numbers only the
    domain is the unit cube. *)
Theorem Tree_init_root_cell (h_in : list h_entry) (L : Z) (t0 : Tree) :
  Tree_init h_in L = Ok t0 ->
  _treeInds t0 = {[ 0 ]} /\ __dirty__ t0 = true
  /\ dim t0 = Z.of_nat (length h_in)
  /\ _pointer t0 0 = Ok (replicate (length h_in) 0 ++ [0])
  /\ _cellN t0 (Idx 0) = Ok (replicate (length h_in) 0%Qc)
  /\ _cellH t0 (Idx 0) = Ok (map Qcsum (h t0))
  /\ Forall2 (fun h_i hk => is_number h_i -> Qcsum hk = 1%Qc) h_in (h t0).
Proof.
  intros H0. destruct (Tree_init_Ok _ _ _ H0) as (hs & -> & Hlen & Hd & HL & Hhs).
  set (t := new_tree hs L).
  assert (constructed t) as C by (apply new_tree_constructed; lia).
  assert (dim t = Z.of_nat (length h_in)) as Ed by (unfold dim, t; simpl; lia).
  set (zeros := replicate (length h_in) 0).
  assert (zeros = replicate (Z.to_nat (dim t)) 0) as Ez
    by (unfold zeros; f_equal; lia).
  assert (in_codec t zeros 0) as Hin.
  { split; [unfold zeros; rewrite length_replicate; lia|].
    split; [unfold levels, t; simpl; lia|]. apply Forall_replicate. lia. }
  pose proof (cell_index_zeros t C) as E0. rewrite <- Ez in E0.
  split; [done|]. split; [done|]. split; [done|].
  split; [rewrite <- E0 at 1; by apply _pointer_cell|].
  split; [|split].
  - rewrite <- E0 at 1. rewrite _cellN_cell by done. f_equal.
    unfold cell_origin, zeros. change (h t) with hs. rewrite <- Hlen.
    rewrite zip_with_replicate. clear.
    induction hs as [|hk hs IH]; [done|]. cbn [map]. rewrite IH. f_equal.
    rewrite py_slice_nonneg by lia. done.
  - rewrite <- E0 at 1. rewrite _cellH_cell by done. f_equal.
    unfold cell_widths, zeros. change (h t) with hs. rewrite <- Hlen.
    rewrite zip_with_replicate. apply map_ext_in. intros hk Hk.
    apply list_elem_of_In in Hk. eapply Forall_forall in Hhs; [|done].
    apply slice_sum_all. unfold _levelWidth, levels, t. simpl.
    rewrite Z.sub_0_r. lia.
  - change (h t) with hs. unfold Tree_init in H0.
    destruct (assert _) as [[]|]; [|done]. simpl in H0.
    destruct (mapM (init_entry L) h_in) as [hs'|] eqn:Hm; [|done].
    simpl in H0. apply mapM_Ok_Forall2 in Hm.
    assert (hs' = hs) as ->.
    { apply (f_equal (fun r => match r with Ok t => h t | Raise _ => [] end))
        in H0. exact H0. }
    clear -Hm HL.
    induction Hm as [|h_i hk h_in hs Hi _ IH]; constructor; [|done].
    intros Hnum. destruct h_i as [n|]; [|done]. unfold init_entry in Hi.
    destruct (n <? 0); [done|]. simpl in Hi.
    destruct (_ && _) eqn:E; [|done]. simpl in Hi. injection Hi as <-.
    apply andb_true_iff in E as [E1 E2].
    apply Qcsum_ones_over.
    destruct (Z.le_gt_cases n 0) as [Hn|]; [|done].
    unfold ones_over in E2. rewrite length_replicate in E2.
    apply Z.eqb_eq in E2.
    assert (0 < 2 ^ L) by (apply Z.pow_pos_nonneg; lia). lia.
Qed.

Lemma Tree_init_root_cell_witness :
  _treeInds (new_tree S1_h 2) = {[ 0 ]} /\ __dirty__ (new_tree S1_h 2) = true
  /\ dim (new_tree S1_h 2) = Z.of_nat (length [HNum 4; HNum 4])
  /\ _pointer (new_tree S1_h 2) 0
     = Ok (replicate (length [HNum 4; HNum 4]) 0 ++ [0])
  /\ _cellN (new_tree S1_h 2) (Idx 0)
     = Ok (replicate (length [HNum 4; HNum 4]) 0%Qc)
  /\ _cellH (new_tree S1_h 2) (Idx 0) = Ok (map Qcsum (h (new_tree S1_h 2)))
  /\ Forall2 (fun h_i hk => is_number h_i -> Qcsum hk = 1%Qc)
       [HNum 4; HNum 4] (h (new_tree S1_h 2)).
Proof.
  apply (Tree_init_root_cell [HNum 4; HNum 4] 2 (new_tree S1_h 2)).
  reflexivity.
Defined.

(** ** A predicate that asks for nothing *)

(** An index whose level field is a level of the mesh.  The index of
    every pointer that passed [_index] is one, and so is every live cell
    of a mesh that refinement reaches; for such an index [_levelWidth] is
    an integer, which is what [_cellH] needs of the bound of its slice. *)
Definition level_in_mesh (t : Tree) (i : Z) : Prop :=
  exists l, target_level t (Idx i) = Ok l /\ l <= levels t.

Lemma live_level_in_mesh t i :
  mesh_ok t -> i ∈ _treeInds t -> level_in_mesh t i.
Proof.
  intros [C D L Hc _] Hi. destruct (Hc i Hi) as (coords & l & Hb & ->).
  exists l. unfold target_level. cbn [_asPointer].
  rewrite _pointer_cell by (try done; by apply box_ok_in_codec).
  simpl. rewrite py_last_snoc. split; [done|]. destruct Hb as (_ & ? & _). lia.
Qed.

Lemma _cellC_Ok t i :
  constructed t -> level_in_mesh t i ->
  exists p l c,
    _pointer t i = Ok p /\ py_last p = Ok l /\ 0 <= l <= levels t /\
    _cellC t (Idx i) = Ok c /\ Z.of_nat (length c) = dim t.
Proof.
  intros C (l' & Hl' & Hle).
  destruct (_pointer_Ok t i C) as (coords & l & Hp & Hlen & Hl & _).
  unfold target_level in Hl'. cbn [_asPointer] in Hl'. rewrite Hp in Hl'.
  simpl in Hl'. rewrite py_last_snoc in Hl'. injection Hl' as <-.
  exists (coords ++ [l]), l. eexists.
  split; [done|]. split; [apply py_last_snoc|]. split; [lia|].
  pose proof (_cellC_pointer t coords l Hlen) as E.
  unfold _cellC, _cellH, _cellN in *. simpl in *. rewrite Hp.
  split; [exact E|].
  rewrite !length_zip_with. unfold cell_widths, cell_origin.
  rewrite !length_zip_with. unfold dim in *. lia.
Qed.

Lemma refine_pass_idle function cells t :
  constructed t ->
  (forall cell, cell ∈ cells -> level_in_mesh t cell) ->
  (forall cell p l c, cell ∈ cells ->
     _pointer t cell = Ok p -> py_last p = Ok l -> _cellC t (Idx cell) = Ok c ->
     function c <= l) ->
  refine_pass function cells t = (Ok [], t).
Proof.
  intros C. unfold refine_pass. generalize (@nil Z) as acc.
  induction cells as [|cell cells IH]; intros acc Hlev H; [done|].
  cbn [forM].
  destruct (_cellC_Ok t cell C) as (p & l & c & Hp & Hl & _ & Hc & _);
    [apply Hlev; by left|].
  unfold bindM at 1.
  rewrite (bindM_liftM_Ok _ _ t p) by done.
  rewrite (bindM_liftM_Ok _ _ t c) by done.
  rewrite (bindM_liftM_Ok _ _ t l) by done.
  assert (function c <= l) as Hf by (eapply H; [by left|done..]).
  destruct (Z.gtb_spec (function c) l); [lia|].
  unfold retM. apply IH.
  - intros cell' Hin. apply Hlev. by right.
  - intros cell' p' l' c' Hin. apply H. by right.
Qed.

(** X13: let the candidate cells of [refine] (the cells given, or the
    live cells) have a level field that is a level of the mesh, as the
    live cells of a mesh reached by refinement have.  If the predicate
    asks none of them for a level above its own, [refine] returns the
    empty list and leaves the mesh as it is, tables and dirty flag
    included. *)
Theorem refine_nothing_to_do
    (fuel : nat) (function : list Qc -> Z) (recursive : bool)
    (cells : option (list Z)) (t : Tree) :
  constructed t ->
  (forall cell, cell ∈ default (sorted (_treeInds t)) cells ->
     level_in_mesh t cell) ->
  (forall cell p l c,
     cell ∈ default (sorted (_treeInds t)) cells ->
     _pointer t cell = Ok p -> py_last p = Ok l ->
     _cellC t (Idx cell) = Ok c -> function c <= l) ->
  refine (S fuel) function recursive cells t = (Ok [], t).
Proof.
  intros C Hlev H. cbn [refine]. unfold bindM at 1.
  assert ((match cells with
           | Some cells => retM cells
           | None => liftM (fun self => Ok (sorted (_treeInds self)))
           end) t = (Ok (default (sorted (_treeInds t)) cells), t)) as ->
    by (by destruct cells).
  unfold bindM at 1. rewrite refine_pass_idle by done.
  unfold bindM, retM. simpl. by rewrite andb_false_r.
Qed.

Lemma refine_nothing_to_do_witness :
  refine 1 (fun _ => 0) true (Some [0]) (new_tree S1_h 2)
  = (Ok [], new_tree S1_h 2).
Proof.
  apply (refine_nothing_to_do 0 (fun _ => 0) true (Some [0]) (new_tree S1_h 2)).
  - apply new_tree_constructed; simpl; lia.
  - intros cell Hin. simpl in Hin.
    apply list_elem_of_singleton in Hin as ->.
    exists 0. split; [reflexivity|]. unfold levels. simpl. lia.
  - intros cell p l c Hin Hp Hl _. simpl in Hin.
    apply list_elem_of_singleton in Hin as ->.
    vm_compute in Hp. injection Hp as <-.
    vm_compute in Hl. injection Hl as <-. lia.
Defined.

Lemma mapM_in {A B} (f : A -> Result B) (g : A -> B) (l : list A) :
  (forall x, x ∈ l -> f x = Ok (g x)) -> mapM f l = Ok (map g l).
Proof.
  intros H. induction l as [|x l IH]; [done|].
  rewrite mapM_cons, H, IH; [done| |by left].
  intros y Hy. apply H. by right.
Qed.

(** The centre of the cell of an index *)
Definition centre (t : Tree) (i : Z) : list Qc :=
  match _cellC t (Idx i) with Ok c => c | Raise _ => [] end.

(** X14: on a mesh whose cell centres are not cached and whose live
    indices have a level field that is a level of the mesh, as on every
    mesh reached by refinement, [gridCC] returns: one row for each live
    index, in increasing order of the indices, which is the [dim]
    coordinates [_cellC] gives for it; and it stores the rows in
    [_gridCC]. *)
Theorem gridCC_rows (t : Tree) :
  constructed t -> _gridCC t = None -> __sortedInds t = None ->
  (forall i, i ∈ _treeInds t -> level_in_mesh t i) ->
  fst (gridCC t) = Ok (map (centre t) (sorted (_treeInds t)))
  /\ _gridCC (snd (gridCC t)) = Some (map (centre t) (sorted (_treeInds t)))
  /\ _treeInds (snd (gridCC t)) = _treeInds t
  /\ Forall (fun i => _cellC t (Idx i) = Ok (centre t i)
                      /\ Z.of_nat (length (centre t i)) = dim t)
       (sorted (_treeInds t)).
Proof.
  intros C Hg Hs Hlev.
  assert (forall i, i ∈ sorted (_treeInds t) ->
            _cellC t (Idx i) = Ok (centre t i)
            /\ Z.of_nat (length (centre t i)) = dim t) as Hc.
  { intros i Hi. rewrite sorted_Permutation in Hi. apply elem_of_elements in Hi.
    destruct (_cellC_Ok t i C (Hlev i Hi))
      as (p & l & c & _ & _ & _ & Hc & Hlen).
    unfold centre. by rewrite Hc. }
  assert (exists t', gridCC t
            = (Ok (map (centre t) (sorted (_treeInds t))), t')
            /\ _gridCC t' = Some (map (centre t) (sorted (_treeInds t)))
            /\ _treeInds t' = _treeInds t) as (t' & -> & ? & ?).
  { unfold gridCC. rewrite (bindM_liftM_Ok _ _ t None) by (by rewrite Hg).
    unfold bindM at 1. rewrite _sortedInds_run by done.
    set (t1 := set_Tree__sortedInds _ t).
    rewrite (bindM_liftM_Ok _ _ t1 (map (centre t) (sorted (_treeInds t)))).
    - unfold bindM, modifyM, retM. eexists. split; [done|]. done.
    - apply mapM_in. intros i Hi.
      destruct (_pointer_Ok t i C) as (coords & l & Hp & Hlen & _).
      cbn [_asPointer]. change (_pointer t1 i) with (_pointer t i).
      rewrite Hp. simpl. destruct (Hc i Hi) as [<- _].
      change (_cellC t1 (Ptr (coords ++ [l])))
        with (_cellC t (Ptr (coords ++ [l]))).
      unfold _cellC, _cellH, _cellN. simpl. by rewrite Hp. }
  simpl. repeat split; try done. apply Forall_forall. intros i Hi. by apply Hc.
Qed.

Lemma gridCC_rows_witness :
  fst (gridCC S1_mesh) = Ok (map (centre S1_mesh) (sorted (_treeInds S1_mesh)))
  /\ _gridCC (snd (gridCC S1_mesh))
     = Some (map (centre S1_mesh) (sorted (_treeInds S1_mesh)))
  /\ _treeInds (snd (gridCC S1_mesh)) = _treeInds S1_mesh
  /\ Forall (fun i => _cellC S1_mesh (Idx i) = Ok (centre S1_mesh i)
                      /\ Z.of_nat (length (centre S1_mesh i)) = dim S1_mesh)
       (sorted (_treeInds S1_mesh)).
Proof.
  apply (gridCC_rows S1_mesh).
  - apply (constructed_frame (new_tree S1_h 2));
      [by vm_compute|apply new_tree_constructed; simpl; lia].
  - by vm_compute.
  - by vm_compute.
  - intros i Hi. revert Hi. apply live_level_in_mesh.
    apply (reachable_refined_from (new_tree S1_h 2)).
    + apply (Tree_init_refined_from [HNum 4; HNum 4] 2); [reflexivity| |lia].
      unfold dim. simpl. lia.
    + apply reach_refine, reach_new.
Defined.

(** ** The tables and the dirty flag *)

(** What holds of the cached attributes at all times: nothing assigns
    the attribute ['__sortedInds'], and a mesh whose numbering is to be
    redone has no [_gridFx]. *)
Definition caches_coherent (t : Tree) : Prop :=
  __sortedInds t = None /\ (__dirty__ t = true -> _gridFx t = None).

Lemma keeps__sortedInds P :
  (forall l t, P t -> P (set_Tree__sortedInds l t)) -> keeps P _sortedInds.
Proof.
  intros H t Ht. unfold _sortedInds.
  destruct (__sortedInds t); [done|]. by apply H.
Qed.

Lemma keeps_number P fuel force :
  (forall l t, P t -> P (set_Tree__sortedInds l t)) ->
  (forall st t, P t -> P (number_store st t)) ->
  keeps P (number fuel force).
Proof.
  intros H1 H2. unfold number.
  apply keeps_bindM; [apply keeps_liftM|intros dirty].
  destruct (_ && _); [apply keeps_retM|].
  apply keeps_bindM; [by apply keeps__sortedInds|intros inds].
  apply keeps_bindM; [apply keeps_liftM|intros st].
  apply keeps_modifyM. intros t. apply H2.
Qed.

Lemma keeps_read P fuel {A} (r : Tree -> Result A) :
  (forall l t, P t -> P (set_Tree__sortedInds l t)) ->
  (forall st t, P t -> P (number_store st t)) ->
  keeps P (bindM (number fuel false) (fun _ => liftM r)).
Proof.
  intros H1 H2. apply keeps_bindM; [by apply keeps_number|].
  intros _. apply keeps_liftM.
Qed.

Lemma keeps_faceDiv P fuel :
  (forall l t, P t -> P (set_Tree__sortedInds l t)) ->
  (forall st t, P t -> P (number_store st t)) ->
  (forall m t, P t -> P (set_faceDiv m t)) ->
  keeps P (faceDiv fuel).
Proof.
  intros H1 H2 H3. unfold faceDiv, nFx, nFy, nF, vol, area.
  apply keeps_bindM; [apply keeps_liftM|intros [m|]]; [apply keeps_retM|].
  apply keeps_bindM; [by apply keeps_number|intros _].
  apply keeps_bindM; [apply keeps_liftM|intros d].
  apply keeps_bindM; [by apply keeps_read|intros nfx].
  apply keeps_bindM; [by apply keeps_read|intros nfy].
  apply keeps_bindM; [by apply keeps__sortedInds|intros inds].
  apply keeps_bindM; [apply keeps_liftM|intros entries].
  apply keeps_bindM; [by apply keeps_read|intros VOL].
  apply keeps_bindM; [apply keeps_liftM|intros n].
  apply keeps_bindM; [by apply keeps_read|intros m].
  apply keeps_bindM; [apply keeps_liftM|intros D].
  apply keeps_bindM; [by apply keeps_read|intros S].
  apply keeps_bindM; [apply keeps_liftM|intros fd].
  apply keeps_bindM; [apply keeps_modifyM, H3|intros _]. apply keeps_retM.
Qed.

(** X15: the constructor establishes, and every method and property of
    the mesh keeps, that the attribute ['__sortedInds'] is absent and
    that a dirty mesh has no [_gridFx]. *)
Theorem caches_coherent_invariant :
  (forall hs L, caches_coherent (new_tree hs L))
  /\ keeps caches_coherent _structureChange
  /\ (forall c, keeps caches_coherent (_refineCell c))
  /\ (forall fuel function recursive cells,
        keeps caches_coherent (refine fuel function recursive cells))
  /\ (forall fuel force, keeps caches_coherent (number fuel force))
  /\ (forall fuel,
        keeps caches_coherent (nF fuel) /\ keeps caches_coherent (nFx fuel)
        /\ keeps caches_coherent (nFy fuel) /\ keeps caches_coherent (nFz fuel)
        /\ keeps caches_coherent (vol fuel) /\ keeps caches_coherent (area fuel)
        /\ keeps caches_coherent (gridFx fuel)
        /\ keeps caches_coherent (gridFy fuel)
        /\ keeps caches_coherent (gridFz fuel)
        /\ keeps caches_coherent (faceDiv fuel))
  /\ keeps caches_coherent gridCC
  /\ keeps caches_coherent _sortedInds.
Proof.
  assert (forall l t, caches_coherent t ->
            caches_coherent (set_Tree__sortedInds l t)) as H1 by done.
  assert (forall st t, caches_coherent t ->
            caches_coherent (number_store st t)) as H2.
  { intros st t [Hs _]. split; [exact Hs|]. intros Hd. discriminate Hd. }
  assert (forall t, caches_coherent t ->
            caches_coherent (structure_changed t)) as H3.
  { intros t [Hs Hg]. unfold structure_changed.
    destruct (__dirty__ t) eqn:Hd.
    - split; [exact Hs|]. intros _. by apply Hg.
    - split; [reflexivity|]. intros _. reflexivity. }
  assert (forall c, keeps caches_coherent (_refineCell c)) as H4.
  { intros c. apply keeps__refineCell; [done|]. by intros s t [Hs Hg]. }
  assert (forall fuel, keeps caches_coherent (number fuel false)) as H5
    by (intros; by apply keeps_number).
  split; [done|]. split.
  { intros t Ht. rewrite _structureChange_run. by apply H3. }
  split; [done|]. split; [intros; by apply keeps_refine|].
  split; [intros; by apply keeps_number|]. split.
  { intros fuel. unfold nF, nFx, nFy, nFz, vol, area.
    do 6 (split; [by apply keeps_read|]).
    split; [|split; [|split]].
    - unfold gridFx. apply keeps_bindM; [apply keeps_liftM|intros cached].
      apply keeps_bindM; [|intros _; apply keeps_liftM].
      destruct cached; [apply keeps_retM|apply H5].
    - unfold gridFy. apply keeps_bindM; [apply keeps_liftM|intros cached].
      apply keeps_bindM; [|intros _; apply keeps_liftM].
      destruct cached; [apply keeps_retM|apply H5].
    - unfold gridFz. apply keeps_bindM; [apply keeps_liftM|intros d].
      destruct (d <? 3); [apply keeps_retM|].
      apply keeps_bindM; [apply keeps_liftM|intros cached].
      apply keeps_bindM; [|intros _; apply keeps_liftM].
      destruct cached; [apply keeps_retM|apply H5].
    - by apply keeps_faceDiv. }
  split; [|by apply keeps__sortedInds].
  unfold gridCC. apply keeps_bindM; [apply keeps_liftM|intros [g|]];
    [apply keeps_retM|].
  apply keeps_bindM; [by apply keeps__sortedInds|intros inds].
  apply keeps_bindM; [apply keeps_liftM|intros rows].
  apply keeps_bindM; [apply keeps_modifyM|intros _; apply keeps_retM].
  by intros t [Hs Hg].
Qed.

(** [self.number(force=True)] followed by a read of the attribute *)
Definition forced {A} (fuel : nat) (read : Tree -> option A) : M A :=
  bindM (number fuel true) (fun _ => liftM (fun self => attr (read self))).

Lemma structure_changed_idem t :
  structure_changed (structure_changed t) = structure_changed t.
Proof.
  unfold structure_changed at 1. by rewrite structure_changed_dirty.
Qed.

Lemma _refineCell_structure_changed c t :
  _refineCell c t = _refineCell c (structure_changed t).
Proof.
  unfold _refineCell.
  rewrite (bindM_Ok _structureChange _ t tt _ (_structureChange_run t)).
  symmetry.
  rewrite (bindM_Ok _structureChange _ (structure_changed t) tt
             (structure_changed t)); [done|].
  by rewrite _structureChange_run, structure_changed_idem.
Qed.

Lemma number_forced fuel t :
  __dirty__ t = true -> number fuel false t = number fuel true t.
Proof. intros Hd. unfold number, bindM, liftM. by rewrite Hd. Qed.

(** X16: after [_refineCell], returned or raised, the properties [vol],
    [area], [nF], [nFx], [nFy] and [gridFx] give what they give after a
    forced renumbering of the mesh as it now is: none of them reads a
    table of the mesh of before. *)
Theorem tables_redone_after_refineCell (fuel : nat) (t : Tree) (c : cellref) :
  caches_coherent t ->
  let t1 := snd (_refineCell c t) in
  vol fuel t1 = forced fuel _vol t1
  /\ area fuel t1 = forced fuel _area t1
  /\ nF fuel t1 = forced fuel _nF t1
  /\ nFx fuel t1 = forced fuel _nFx t1
  /\ nFy fuel t1 = forced fuel _nFy t1
  /\ gridFx fuel t1 = forced fuel _gridFx t1.
Proof.
  intros [Hs Hg] t1.
  assert (__dirty__ t1 = true /\ _gridFx t1 = None) as [Hd Hx].
  { unfold t1. rewrite _refineCell_structure_changed.
    apply (keeps__refineCell (fun t => __dirty__ t = true /\ _gridFx t = None)).
    - intros t' [Hd' Hg']. unfold structure_changed. by rewrite Hd'.
    - by intros s t' [Hd' Hg'].
    - split; [apply structure_changed_dirty|].
      unfold structure_changed. destruct (__dirty__ t) eqn:Hd; [by apply Hg|done]. }
  unfold vol, area, nF, nFx, nFy, gridFx, forced.
  rewrite (bindM_liftM_Ok _ _ t1 None) by (by rewrite Hx).
  unfold bindM. rewrite !(number_forced fuel t1 Hd).
  repeat split; done.
Qed.

Definition S1_numbered : Tree := snd (number recursion_limit false S1_mesh).

Lemma tables_redone_after_refineCell_witness :
  let t1 := snd (_refineCell (Idx 33) S1_numbered) in
  vol recursion_limit t1 = forced recursion_limit _vol t1
  /\ area recursion_limit t1 = forced recursion_limit _area t1
  /\ nF recursion_limit t1 = forced recursion_limit _nF t1
  /\ nFx recursion_limit t1 = forced recursion_limit _nFx t1
  /\ nFy recursion_limit t1 = forced recursion_limit _nFy t1
  /\ gridFx recursion_limit t1 = forced recursion_limit _gridFx t1.
Proof.
  apply (tables_redone_after_refineCell recursion_limit S1_numbered (Idx 33)).
  split; [by vm_compute|]. intros H. vm_compute in H. discriminate H.
Defined.

(** X17: [number] never changes the live set nor the spacings, whether
    it returns or raises; when it returns the mesh is clean, and calling
    it again without [force] does nothing. *)
Theorem number_keeps_mesh (fuel : nat) (force : bool) (t : Tree) :
  let t' := snd (number fuel force t) in
  _treeInds t' = _treeInds t /\ frame t' = frame t
  /\ (if is_Ok (fst (number fuel force t))
      then number fuel false t' = (Ok tt, t')
           /\ (force = true \/ __dirty__ t = true -> __dirty__ t' = false)
      else True).
Proof.
  intros t'. subst t'. destruct (number fuel force t) as [r t2] eqn:Hn.
  cbn [fst snd]. revert Hn.
  unfold number at 1, bindM, liftM, modifyM, retM, _sortedInds.
  destruct (__dirty__ t) eqn:Hd, force; cbn [negb andb];
    repeat match goal with
      | |- context [match __sortedInds t with _ => _ end] =>
          destruct (__sortedInds t) eqn:?
      | |- context [match number_loop ?a ?b ?c with _ => _ end] =>
          destruct (number_loop a b c) eqn:?
      end;
    intros [= <- <-]; cbn [is_Ok];
    (split; [reflexivity|split; [reflexivity|]]); try exact I;
    (split; [apply number_clean; first [reflexivity|assumption]|]);
    first [intros _; reflexivity|intros [?|?]; congruence].
Qed.

(** ** The counts of edges *)

Section Edges.
Variable fuel : nat.

Local Open Scope M_scope.

(** [self._nEx], [self._nEy], [self._nEz] and [self.edges]: attributes
    that no statement of the module assigns, so that reading one of them
    on a mesh is an AttributeError. *)
Definition unassigned {A} : M A := liftM (fun _ => Raise AttributeError).

Definition nE : M (option Z) :=
  number fuel false ;;
  d <- liftM (fun self => Ok (dim self)) ;;
  if d =? 2 then (n <- nF fuel ;; retM (Some n))
  else if d =? 3 then unassigned
  else retM None.

Definition nEx : M (option Z) :=
  number fuel false ;;
  d <- liftM (fun self => Ok (dim self)) ;;
  if d =? 2 then liftM (fun self => Some <$> attr (_nFy self))
  else if d =? 3 then unassigned
  else retM None.

Definition nEy : M (option Z) :=
  number fuel false ;;
  d <- liftM (fun self => Ok (dim self)) ;;
  if d =? 2 then liftM (fun self => Some <$> attr (_nFx self))
  else if d =? 3 then unassigned
  else retM None.

Definition nEz : M (option Z) :=
  number fuel false ;;
  d <- liftM (fun self => Ok (dim self)) ;;
  if d <? 3 then retM None else unassigned.

(** [np.r_[self._area[self.nFx:], self._area[:self.nFx]]] in two
    dimensions, and nothing otherwise *)
Definition edge : M (option (list Qc)) :=
  number fuel false ;;
  d <- liftM (fun self => Ok (dim self)) ;;
  if d =? 2 then
    a1 <- liftM (fun self => attr (_area self)) ;;
    n1 <- nFx fuel ;;
    a2 <- liftM (fun self => attr (_area self)) ;;
    n2 <- nFx fuel ;;
    retM (Some (py_slice a1 n1 (len a1) ++ py_slice a2 0 n2))
  else retM None.
End Edges.

Lemma edge_counts_clean fuel tn nfx nfy :
  dim tn = 2 -> __dirty__ tn = false ->
  _nFx tn = Some nfx -> _nFy tn = Some nfy -> _nF tn = Some (nfx + nfy) ->
  nFx fuel tn = (Ok nfx, tn) /\ nFy fuel tn = (Ok nfy, tn)
  /\ nF fuel tn = (Ok (nfx + nfy), tn)
  /\ nEx fuel tn = (Ok (Some nfy), tn)
  /\ nEy fuel tn = (Ok (Some nfx), tn)
  /\ nEz fuel tn = (Ok None, tn)
  /\ nE fuel tn = (Ok (Some (nfx + nfy)), tn).
Proof.
  intros D Hc Ex Ey EF.
  rewrite (nFx_clean fuel tn Hc), (nFy_clean fuel tn Hc), (nF_clean fuel tn Hc).
  rewrite Ex, Ey, EF.
  unfold nEx, nEy, nEz, nE, bindM, liftM, retM. cbv beta.
  rewrite !(number_clean tn fuel Hc). cbv beta iota. rewrite D.
  cbn [Z.eqb Z.ltb Z.compare Pos.eqb Pos.compare Pos.compare_cont].
  rewrite (nF_clean fuel tn Hc), EF, Ex, Ey. done.
Qed.

(** X18: in two dimensions the edges are the faces: once [nE] has
    returned on a mesh that was to be numbered, it is [nF], the sum of
    [nEx] and [nEy], which are [nFy] and [nFx], and [nEz] is [None]. *)
Theorem edge_counts_2d (fuel : nat) (t : Tree) (ne : option Z) :
  dim t = 2 -> __dirty__ t = true -> __sortedInds t = None ->
  fst (nE fuel t) = Ok ne ->
  let t1 := snd (nE fuel t) in
  exists nfx nfy,
    nFx fuel t1 = (Ok nfx, t1) /\ nFy fuel t1 = (Ok nfy, t1)
    /\ nF fuel t1 = (Ok (nfx + nfy), t1)
    /\ ne = Some (nfx + nfy)
    /\ nEx fuel t1 = (Ok (Some nfy), t1)
    /\ nEy fuel t1 = (Ok (Some nfx), t1)
    /\ nEz fuel t1 = (Ok None, t1)
    /\ nE fuel t1 = (Ok ne, t1).
Proof.
  intros D Hd Hs.
  pose proof (number_dirty t fuel false Hd Hs) as Hnum. unfold numbered in Hnum.
  set (t0 := set_Tree__sortedInds (sorted (_treeInds t)) t) in Hnum.
  destruct (number_loop t0 fuel (sorted (_treeInds t))) as [st|e].
  2:{ unfold nE. rewrite (bindM_Raise _ _ t e t0 Hnum). done. }
  set (tn := number_store st t0) in Hnum.
  set (nfx := len (faces (tX st))). set (nfy := len (faces (tY st))).
  assert (dim tn = 2) as Dn by exact D.
  assert (__dirty__ tn = false) as Hc by reflexivity.
  assert (_nFx tn = Some nfx) as Ex by reflexivity.
  assert (_nFy tn = Some nfy) as Ey by reflexivity.
  assert (_nF tn = Some (nfx + nfy)) as EF.
  { unfold tn, number_store. cbn [_nF].
    change (dim t0) with (dim t). rewrite D. cbn [Z.eqb Pos.eqb].
    f_equal. fold nfx nfy. lia. }
  destruct (edge_counts_clean fuel tn nfx nfy Dn Hc Ex Ey EF)
    as (H1 & H2 & H3 & H4 & H5 & H6 & H7).
  assert (nE fuel t = (Ok (Some (nfx + nfy)), tn)) as Hrun.
  { rewrite <- H7. unfold nE at 1.
    rewrite (bindM_Ok _ _ t tt tn Hnum). unfold nE.
    by rewrite (bindM_Ok _ _ tn tt tn (number_clean tn fuel Hc)). }
  rewrite Hrun. cbn [fst snd]. intros [= <-]. cbv zeta.
  exists nfx, nfy. repeat split; done.
Qed.

Lemma edge_counts_2d_witness :
  let t1 := snd (nE recursion_limit S1_mesh) in
  exists nfx nfy,
    nFx recursion_limit t1 = (Ok nfx, t1) /\ nFy recursion_limit t1 = (Ok nfy, t1)
    /\ nF recursion_limit t1 = (Ok (nfx + nfy), t1)
    /\ Some 12 = Some (nfx + nfy)
    /\ nEx recursion_limit t1 = (Ok (Some nfy), t1)
    /\ nEy recursion_limit t1 = (Ok (Some nfx), t1)
    /\ nEz recursion_limit t1 = (Ok None, t1)
    /\ nE recursion_limit t1 = (Ok (Some 12), t1).
Proof.
  apply (edge_counts_2d recursion_limit S1_mesh (Some 12)).
  - reflexivity.
  - by vm_compute.
  - by vm_compute.
  - by vm_compute.
Defined.

(** ** Neighbours at the boundary *)

Lemma py_init_shift_at coords l k d :
  0 <= k < Z.of_nat (length coords) ->
  py_init (shift_at (coords ++ [l]) k d) = shift_at coords k d.
Proof.
  intros Hk. unfold shift_at. rewrite imap_app. simpl.
  destruct (Z.eqb_spec (Z.of_nat (length coords + 0)) k); [lia|].
  apply py_init_snoc.
Qed.

Lemma py_last_shift_at coords l k d :
  0 <= k < Z.of_nat (length coords) ->
  py_last (shift_at (coords ++ [l]) k d) = Ok l.
Proof.
  intros Hk. unfold shift_at. rewrite imap_app. simpl.
  destruct (Z.eqb_spec (Z.of_nat (length coords + 0)) k); [lia|].
  apply py_last_snoc.
Qed.

Lemma coord_shift_at coords k d j :
  0 <= j < Z.of_nat (length coords) ->
  coord (shift_at coords k d) j
  = if j =? k then coord coords j + d else coord coords j.
Proof.
  intros Hj. unfold coord, shift_at. rewrite list_lookup_imap.
  destruct (lookup_lt_is_Some_2 coords (Z.to_nat j)) as [c Hc]; [lia|].
  rewrite Hc. simpl. rewrite Z2Nat.id by lia. done.
Qed.

Lemma _isInsideMesh_spec t coords l :
  _isInsideMesh t (coords ++ [l]) = true
  <-> Forall (fun c => 0 <= c < 2 ^ levels t) coords.
Proof.
  unfold _isInsideMesh. rewrite py_init_snoc, forallb_forall, Forall_forall.
  split; intros H c Hc.
  - apply list_elem_of_In in Hc. apply H in Hc.
    apply andb_true_iff in Hc as [H1 H2]. lia.
  - apply list_elem_of_In in Hc. apply H in Hc.
    apply andb_true_iff. split; lia.
Qed.

(** X20: a cell that touches the boundary of the mesh has no neighbour
    across it: when the step of one width along [direction] leaves
    [0, 2^levels), [_getNextCell] returns [None], whatever is live. *)
Theorem getNextCell_at_boundary
    (t : Tree) (fuel : nat) (coords : list Z) (l direction : Z)
    (positive : bool) :
  0 <= direction < Z.of_nat (length coords) ->
  (if positive
   then 2 ^ levels t <= coord coords direction + _levelWidth t l
   else coord coords direction - _levelWidth t l < 0) ->
  _getNextCell t (S fuel) (coords ++ [l]) direction positive = Ok NCNone.
Proof.
  intros Hk Hout. cbn [_getNextCell]. rewrite py_last_snoc. simpl.
  set (step := (if positive then 1 else -1) * _levelWidth t l).
  destruct (_isInsideMesh t (shift_at (coords ++ [l]) direction step)) eqn:E;
    [|done].
  exfalso. unfold _isInsideMesh in E. rewrite py_init_shift_at in E by done.
  rewrite forallb_forall in E.
  specialize (E (coord (shift_at coords direction step) direction)).
  rewrite coord_shift_at, Z.eqb_refl in E by done.
  assert (In (coord coords direction + step) (shift_at coords direction step)) as Hin.
  { apply list_elem_of_In, list_elem_of_lookup. exists (Z.to_nat direction).
    unfold shift_at. rewrite list_lookup_imap. unfold coord.
    destruct (lookup_lt_is_Some_2 coords (Z.to_nat direction)) as [c Hc]; [lia|].
    rewrite Hc. simpl. rewrite Z2Nat.id, Z.eqb_refl by lia. done. }
  apply E in Hin. apply andb_true_iff in Hin as [H1 H2].
  unfold step in *. destruct positive; lia.
Qed.

Lemma getNextCell_at_boundary_witness :
  _getNextCell S1_mesh 1 ([2; 0] ++ [1]) 0 true = Ok NCNone.
Proof.
  apply (getNextCell_at_boundary S1_mesh 0 [2; 0] 1 0 true).
  - simpl. lia.
  - vm_compute. discriminate.
Defined.

(** ** The tables of [number] *)

(** A table of faces as [number] keeps it: as many faces as areas, the
    count one behind, and hanging faces that are faces of the table. *)
Definition table_ok (ft : FaceTable) : Prop :=
  len (faces ft) = faceCount ft + 1 /\ len (ft_area ft) = faceCount ft + 1
  /\ Forall (fun f => 0 <= f <= faceCount ft) (hangingFaces ft).

(** [addFace] of [processCell]: one more face, one more area. *)
Definition adds_one
    (addFace : FaceTable -> list Z -> bool -> Result FaceTable) : Prop :=
  forall ft p pos ft', addFace ft p pos = Ok ft' ->
    len (faces ft') = len (faces ft) + 1
    /\ len (ft_area ft') = len (ft_area ft) + 1
    /\ hangingFaces ft' = hangingFaces ft
    /\ faceCount ft' = faceCount ft + 1.

Lemma add_face_one a f ft ft' :
  (forall fo, f = Ok fo -> is_Some fo) ->
  add_face a f ft = Ok ft' ->
  len (faces ft') = len (faces ft) + 1
  /\ len (ft_area ft') = len (ft_area ft) + 1
  /\ hangingFaces ft' = hangingFaces ft
  /\ faceCount ft' = faceCount ft + 1.
Proof.
  intros Hf H. unfold add_face in H.
  apply bind_Ok_inv in H as (a' & _ & H).
  apply bind_Ok_inv in H as (fo & Hfo & H).
  destruct (Hf fo Hfo) as [x ->]. injection H as <-.
  cbn [faces ft_area hangingFaces faceCount].
  unfold len. rewrite !length_app. simpl. repeat split; lia.
Qed.

Ltac face_is_Some :=
  let H := fresh in
  intros ? H;
  repeat (apply bind_Ok_inv in H as (? & _ & H));
  injection H as <-; eauto.

Lemma addXFace_one t : dim t = 2 \/ dim t = 3 -> adds_one (addXFace t).
Proof.
  intros D ft p pos ft' H. unfold addXFace in H.
  apply bind_Ok_inv in H as (n & _ & H).
  apply bind_Ok_inv in H as (w & _ & H).
  eapply add_face_one; [|exact H].
  destruct D as [-> | ->]; cbn [Z.eqb Pos.eqb]; face_is_Some.
Qed.

Lemma addYFace_one t : dim t = 2 \/ dim t = 3 -> adds_one (addYFace t).
Proof.
  intros D ft p pos ft' H. unfold addYFace in H.
  apply bind_Ok_inv in H as (n & _ & H).
  apply bind_Ok_inv in H as (w & _ & H).
  eapply add_face_one; [|exact H].
  destruct D as [-> | ->]; cbn [Z.eqb Pos.eqb]; face_is_Some.
Qed.

Lemma addZFace_one t : adds_one (addZFace t).
Proof.
  intros ft p pos ft' H. unfold addZFace in H.
  apply bind_Ok_inv in H as (n & _ & H).
  apply bind_Ok_inv in H as (w & _ & H).
  eapply add_face_one; [|exact H]. face_is_Some.
Qed.

(** The counts of the three axes, one of them replaced *)
Definition upd (cnt : Z -> Z) (a v : Z) : Z -> Z :=
  fun b => if b =? a then v else cnt b.

Section FaceIds.
Variable t : Tree.

(** Every cell of [c2f] has [2 * dim] lists, and the list of a direction
    holds face numbers of the table of its axis. *)
Definition face_ids_ok (cnt : Z -> Z) (c2f : gmap Z (list (list Z))) : Prop :=
  forall ind fs, c2f !! ind = Some fs ->
    len fs = 2 * dim t
    /\ forall k face, fs !! k = Some face ->
         Forall (fun f => 0 <= f <= cnt (Z.of_nat k / 2)) face.

Lemma face_ids_ok_mono cnt cnt' c2f :
  (forall a, cnt a <= cnt' a) -> face_ids_ok cnt c2f -> face_ids_ok cnt' c2f.
Proof.
  intros Hle H ind fs Hfs. destruct (H ind fs Hfs) as [Hlen Hk].
  split; [done|]. intros k face Hface.
  eapply Forall_impl; [by eapply Hk|]. simpl. intros f Hf.
  specialize (Hle (Z.of_nat k / 2)). lia.
Qed.

Lemma py_update_Ok_inv {A} (l : list A) (i : Z) (f : A -> A) (l' : list A) :
  0 <= i -> py_update l i f = Ok l' ->
  exists x, l !! Z.to_nat i = Some x /\ l' = <[Z.to_nat i := f x]> l.
Proof.
  intros Hi H. unfold py_update in H.
  apply bind_Ok_inv in H as (x & Hx & H). injection H as <-.
  unfold py_get in Hx. destruct (Z.ltb_spec i 0); [lia|].
  destruct (_ && _); [|done].
  destruct (l !! Z.to_nat i) as [y|] eqn:E; [|done]. injection Hx as ->.
  by exists x.
Qed.

Lemma c2f_add_ok cnt ind f new c2f c2f' :
  0 <= f -> 0 <= dim t ->
  face_ids_ok cnt c2f ->
  Forall (fun x => 0 <= x <= cnt (f / 2)) new ->
  c2f_add t ind f new c2f = Ok c2f' ->
  face_ids_ok cnt c2f'
  /\ (forall i, is_Some (c2f !! i) -> is_Some (c2f' !! i))
  /\ is_Some (c2f' !! ind).
Proof.
  intros Hf Hd Hok Hnew H. unfold c2f_add in H.
  apply bind_Ok_inv in H as (fs' & Hup & H). injection H as <-.
  apply py_update_Ok_inv in Hup as (old & Hold & ->); [|done].
  split; [|split].
  - intros i fs Hfs. destruct (decide (i = ind)) as [->|Hne].
    2:{ rewrite lookup_insert_ne in Hfs by done. exact (Hok i fs Hfs). }
    rewrite lookup_insert_eq in Hfs. injection Hfs as <-.
    set (base := match c2f !! ind with
                 | Some c2f_ind => c2f_ind
                 | None => replicate (Z.to_nat (2 * dim t)) []
                 end) in *.
    assert (len base = 2 * dim t
            /\ forall k face, base !! k = Some face ->
                 Forall (fun f => 0 <= f <= cnt (Z.of_nat k / 2)) face)
      as [Hlen Hbase].
    { unfold base. destruct (c2f !! ind) as [fs|] eqn:E;
        [exact (Hok ind fs E)|].
      split; [unfold len; rewrite length_replicate; lia|].
      intros k face Hk. apply lookup_replicate in Hk as [-> _]. constructor. }
    split; [unfold len in *; by rewrite length_insert|].
    intros k face Hk.
    destruct (decide (k = Z.to_nat f)) as [->|Hne].
    + rewrite list_lookup_insert_eq in Hk by (by eapply lookup_lt_Some).
      injection Hk as <-. apply Forall_app. split.
      * by eapply Hbase.
      * by rewrite Z2Nat.id by lia.
    + rewrite list_lookup_insert_ne in Hk by done. by eapply Hbase.
  - intros i Hi. destruct (decide (i = ind)) as [->|Hne].
    + by rewrite lookup_insert_eq.
    + by rewrite lookup_insert_ne.
  - by rewrite lookup_insert_eq.
Qed.

Lemma c2f_add_mono ind f new c2f c2f' i :
  c2f_add t ind f new c2f = Ok c2f' ->
  is_Some (c2f !! i) -> is_Some (c2f' !! i).
Proof.
  intros H Hi. unfold c2f_add in H.
  apply bind_Ok_inv in H as (fs' & _ & H). injection H as <-.
  destruct (decide (i = ind)) as [->|Hne].
  - by rewrite lookup_insert_eq.
  - by rewrite lookup_insert_ne.
Qed.

Variable fuel : nat.
Variable addFace : FaceTable -> list Z -> bool -> Result FaceTable.
Variable DIR : Z.
Variable cnt : Z -> Z.
Hypothesis Hadd : adds_one addFace.
Hypothesis HDIR : DIR = 0 \/ DIR = 1 \/ DIR = 2.
Hypothesis Hdim : 0 <= dim t.

(** What [processCell] keeps of its table and of [c2f] *)
Definition cell_inv (c2f0 : gmap Z (list (list Z)))
    (st : FaceTable * gmap Z (list (list Z))) : Prop :=
  table_ok st.1 /\ face_ids_ok (upd cnt DIR (faceCount st.1)) st.2
  /\ forall i, is_Some (c2f0 !! i) -> is_Some (st.2 !! i).

Lemma cell_inv_add c2f0 ft c2f p pos ft' :
  cell_inv c2f0 (ft, c2f) -> addFace ft p pos = Ok ft' ->
  cell_inv c2f0 (ft', c2f) /\ faceCount ft' = faceCount ft + 1
  /\ -1 <= faceCount ft.
Proof.
  intros ((H1 & H2 & H3) & Hc & Hm) H.
  destruct (Hadd _ _ _ _ H) as (A1 & A2 & A3 & A4). cbn [fst snd] in *.
  assert (-1 <= faceCount ft) by (unfold len in *; lia).
  split; [|done]. split; [|split; [|done]]; cbn [fst snd].
  - split; [lia|]. split; [lia|]. rewrite A3.
    eapply Forall_impl; [exact H3|]. simpl. lia.
  - revert Hc. apply face_ids_ok_mono. intros a. unfold upd.
    destruct (a =? DIR); lia.
Qed.

Lemma cell_inv_c2f c2f0 ft c2f ind f new c2f' :
  cell_inv c2f0 (ft, c2f) -> f = 2 * DIR \/ f = 2 * DIR + 1 ->
  Forall (fun x => 0 <= x <= faceCount ft) new ->
  c2f_add t ind f new c2f = Ok c2f' ->
  cell_inv c2f0 (ft, c2f') /\ is_Some (c2f' !! ind).
Proof.
  intros (Ht & Hc & Hm) Hf Hnew H. cbn [fst snd] in *.
  assert (f / 2 = DIR) as Ef.
  { destruct Hf as [-> | ->].
    - rewrite Z.mul_comm. by apply Z.div_mul.
    - rewrite Z.mul_comm, Z.div_add_l by lia. change (1 / 2) with 0. lia. }
  destruct (c2f_add_ok (upd cnt DIR (faceCount ft)) ind f new c2f c2f')
    as (K1 & K2 & K3); try done; try lia.
  { unfold upd. rewrite Ef, Z.eqb_refl. done. }
  split; [|done]. split; [done|]. split; [done|]. cbn [snd]. auto.
Qed.

Lemma cell_inv_hang c2f0 ft c2f new :
  cell_inv c2f0 (ft, c2f) ->
  Forall (fun x => 0 <= x <= faceCount ft) new ->
  cell_inv c2f0 (hang new ft, c2f).
Proof.
  intros ((H1 & H2 & H3) & Hc & Hm) Hnew. cbn [fst snd] in *.
  split; [|by split]. cbn [fst hang faces ft_area hangingFaces faceCount].
  split; [done|]. split; [done|]. by apply Forall_app.
Qed.

Ltac c2f_step I Hf H I' S' :=
  match type of H with
  | c2f_add _ _ _ ?new _ = Ok _ =>
    match type of I with
    | cell_inv _ (?ft, _) =>
      let N := fresh "N" in
      assert (Forall (fun x => 0 <= x <= faceCount ft) new) as N
        by (repeat constructor; lia);
      destruct (cell_inv_c2f _ _ _ _ _ _ _ I Hf N H) as [I' S']
    end
  end.

Lemma processCell_inv ind ft c2f ft' c2f' :
  table_ok ft -> face_ids_ok (upd cnt DIR (faceCount ft)) c2f ->
  processCell t fuel addFace DIR ind (ft, c2f) = Ok (ft', c2f') ->
  cell_inv c2f (ft', c2f') /\ is_Some (c2f' !! ind).
Proof.
  intros Ht Hc H.
  assert (cell_inv c2f (ft, c2f)) as I0 by (by split; [|split]).
  unfold processCell in H.
  set (cols := if DIR =? 0 then (0, 1)
               else if DIR =? 1 then (2, 3) else (4, 5)) in H.
  assert (exists fM fP, cols = (fM, fP)
            /\ (fM = 2 * DIR \/ fM = 2 * DIR + 1)
            /\ (fP = 2 * DIR \/ fP = 2 * DIR + 1)) as (fM & fP & Ecols & HfM & HfP).
  { unfold cols. destruct HDIR as [->|[->| ->]]; cbn [Z.eqb Pos.eqb];
      eexists _, _; (split; [reflexivity|]); lia. }
  rewrite Ecols in H. clear cols Ecols.
  apply bind_Ok_inv in H as (p & _ & H).
  apply bind_Ok_inv in H as (before & _ & H).
  apply bind_Ok_inv in H as ([ft1 c2f1] & Hbefore & H). cbv beta iota in H.
  assert (cell_inv c2f (ft1, c2f1)) as I1.
  { destruct before; try (by injection Hbefore as <- <-).
    apply bind_Ok_inv in Hbefore as (fta & Ha & Hbefore).
    apply bind_Ok_inv in Hbefore as (c2fa & Hca & Hbefore).
    injection Hbefore as <- <-.
    destruct (cell_inv_add _ _ _ _ _ _ I0 Ha) as (Ia & Ea & Eb).
    c2f_step Ia HfM Hca Ib Sb. exact Ib. }
  clear I0 Hbefore.
  apply bind_Ok_inv in H as (nextCell & _ & H).
  destruct nextCell as [|n|nextCell].
  - apply bind_Ok_inv in H as (fta & Ha & H).
    apply bind_Ok_inv in H as (c2fa & Hca & H). injection H as <- <-.
    destruct (cell_inv_add _ _ _ _ _ _ I1 Ha) as (Ia & Ea & Eb).
    c2f_step Ia HfP Hca Ib Sb. by split.
  - apply bind_Ok_inv in H as (same & Hsame & H).
    destruct same.
    + apply bind_Ok_inv in H as (fta & Ha & H).
      apply bind_Ok_inv in H as (c2fa & Hca & H).
      apply bind_Ok_inv in H as (c2fb & Hcb & H). injection H as <- <-.
      destruct (cell_inv_add _ _ _ _ _ _ I1 Ha) as (Ia & Ea & Eb).
      c2f_step Ia HfP Hca Ib Sb. c2f_step Ib HfM Hcb Ic Sc.
      split; [done|]. by eapply c2f_add_mono.
    + rewrite Hsame in H. cbn [mbind Result_bind negb] in H.
      apply bind_Ok_inv in H as (fta & Ha & H).
      apply bind_Ok_inv in H as (c2fa & Hca & H).
      apply bind_Ok_inv in H as (c2fb & Hcb & H). injection H as <- <-.
      destruct (cell_inv_add _ _ _ _ _ _ I1 Ha) as (Ia & Ea & Eb).
      c2f_step Ia HfP Hca Ib Sb. c2f_step Ib HfM Hcb Ic Sc.
      split; [apply cell_inv_hang; [done|repeat constructor; lia]|].
      by eapply c2f_add_mono.
  - apply bind_Ok_inv in H as ([n0 p0] & _ & H). cbv beta iota in H.
    apply bind_Ok_inv in H as ([n1 p1] & _ & H). cbv beta iota in H.
    apply bind_Ok_inv in H as (fta & Ha & H).
    apply bind_Ok_inv in H as (c2fa & Hca & H).
    apply bind_Ok_inv in H as (ftb & Hb & H).
    apply bind_Ok_inv in H as (c2fb & Hcb & H).
    apply bind_Ok_inv in H as (c2fc & Hcc & H). injection H as <- <-.
    destruct (cell_inv_add _ _ _ _ _ _ I1 Ha) as (Ia & Ea & Eb).
    c2f_step Ia HfM Hca Ia' Sa.
    destruct (cell_inv_add _ _ _ _ _ _ Ia' Hb) as (Ib & Ec & Ed).
    c2f_step Ib HfM Hcb Ib' Sb.
    c2f_step Ib' HfP Hcc Ic Sc.
    split; [|done]. apply cell_inv_hang; [done|repeat constructor; lia].
Qed.
End FaceIds.

(** The counts of the three tables of [number] *)
Definition counts (st : Locals) : Z -> Z :=
  fun a => if a =? 0 then faceCount (tX st)
           else if a =? 1 then faceCount (tY st)
           else if a =? 2 then faceCount (tZ st) else -1.

(** What the loop of [number] keeps, [seen] being the cells it has
    processed *)
Definition locals_ok (t : Tree) (seen : list Z) (st : Locals) : Prop :=
  table_ok (tX st) /\ table_ok (tY st) /\ table_ok (tZ st)
  /\ face_ids_ok t (counts st) (loc_c2f st)
  /\ (forall i, i ∈ seen -> is_Some (loc_c2f st !! i))
  /\ (dim t = 2 -> faceCount (tZ st) = -1).

Ltac counts_le :=
  let a := fresh "a" in
  intros a; unfold upd, counts; cbn [tX tY tZ];
  repeat match goal with
         | |- context [?x =? ?y] => destruct (Z.eqb_spec x y)
         end; lia.

Lemma number_cell_inv t fuel seen st ind st' :
  dim t = 2 \/ dim t = 3 -> locals_ok t seen st ->
  number_cell t fuel st ind = Ok st' ->
  locals_ok t (seen ++ [ind]) st'.
Proof.
  intros D (HX & HY & HZ & Hc & Hs & H2) H.
  assert (0 <= dim t) as Hdim by lia.
  unfold number_cell in H.
  apply bind_Ok_inv in H as (w & _ & H).
  apply bind_Ok_inv in H as ([tX1 c1] & H1 & H). cbv beta iota in H.
  apply bind_Ok_inv in H as ([tY1 c2] & HY1 & H). cbv beta iota in H.
  apply bind_Ok_inv in H as ([tZ1 c3] & HZ1 & H). cbv beta iota in H.
  injection H as <-.
  apply (processCell_inv t fuel (addXFace t) 0 (counts st)
           (addXFace_one t D) ltac:(auto) Hdim) in H1 as [(X1 & C1 & M1) S1];
    [|done|revert Hc; apply face_ids_ok_mono; counts_le].
  cbn [fst snd] in *.
  apply (processCell_inv t fuel (addYFace t) 1
           (upd (counts st) 0 (faceCount tX1))
           (addYFace_one t D) ltac:(auto) Hdim) in HY1 as [(Y1 & C2 & M2) S2];
    [|done|revert C1; apply face_ids_ok_mono; counts_le].
  cbn [fst snd] in *.
  assert (table_ok tZ1
          /\ face_ids_ok t
               (upd (upd (upd (counts st) 0 (faceCount tX1)) 1 (faceCount tY1))
                    2 (faceCount tZ1)) c3
          /\ (forall i, is_Some (c2 !! i) -> is_Some (c3 !! i))
          /\ (dim t = 2 -> faceCount tZ1 = -1)) as (Z1 & C3 & M3 & E3).
  { destruct (Z.eqb_spec (dim t) 3) as [E|E].
    - apply (processCell_inv t fuel (addZFace t) 2
               (upd (upd (counts st) 0 (faceCount tX1)) 1 (faceCount tY1))
               (addZFace_one t) ltac:(auto) Hdim) in HZ1
        as [(Z1 & C3 & M3) S3];
        [|done|revert C2; apply face_ids_ok_mono; counts_le].
      cbn [fst snd] in *. split; [done|]. split; [done|]. split; [done|].
      intros E2. rewrite E in E2. discriminate E2.
    - injection HZ1 as <- <-. split; [done|]. split; [|split; [done|done]].
      revert C2. apply face_ids_ok_mono. counts_le. }
  unfold locals_ok. cbn [tX tY tZ loc_c2f].
  split; [done|]. split; [done|]. split; [done|]. split; [|split; [|done]].
  - revert C3. apply face_ids_ok_mono. counts_le.
  - intros i Hi. apply elem_of_app in Hi as [Hi|Hi].
    + apply M3, M2, M1, Hs, Hi.
    + apply list_elem_of_singleton in Hi as ->. apply M3, M2, S1.
Qed.

Lemma number_loop_inv t fuel inds seen st st' :
  dim t = 2 \/ dim t = 3 -> locals_ok t seen st ->
  foldM (number_cell t fuel) inds st = Ok st' ->
  locals_ok t (seen ++ inds) st'.
Proof.
  intros D. revert seen st.
  induction inds as [|ind inds IH]; intros seen st Hok H; simpl in H.
  - injection H as <-. by rewrite app_nil_r.
  - apply bind_Ok_inv in H as (st1 & H1 & H).
    replace (seen ++ ind :: inds) with ((seen ++ [ind]) ++ inds)
      by (by rewrite <- app_assoc).
    eapply IH; [|exact H]. by eapply number_cell_inv.
Qed.

Lemma empty_locals_ok t :
  locals_ok t []
    {| tX := empty_table; tY := empty_table; tZ := empty_table;
       loc_vol := []; loc_c2f := ∅ |}.
Proof.
  assert (table_ok empty_table) as H by (by repeat split; try constructor).
  split; [done|]. split; [done|]. split; [done|]. split; [|split; [|done]].
  - by intros ind fs Hfs.
  - intros i Hi. by apply elem_of_nil in Hi.
Qed.

(** The number of faces of an axis *)
Definition axis_faces (gx gy gz : Grid) (a : Z) : Z :=
  if a =? 0 then len gx else if a =? 1 then len gy else len gz.

Lemma number_tables (fuel : nat) (t : Tree) :
  dim t = 2 \/ dim t = 3 -> __dirty__ t = true -> __sortedInds t = None ->
  fst (number fuel false t) = Ok tt ->
  let tn := snd (number fuel false t) in
  exists gx gy gz a v c2f hx hy,
    _gridFx tn = Some gx /\ _gridFy tn = Some gy
    /\ (if dim t =? 3 then _gridFz tn = Some gz /\ _nFz tn = Some (len gz)
        else gz = [])
    /\ _area tn = Some a /\ _vol tn = Some v /\ _c2f tn = Some c2f
    /\ _nFx tn = Some (len gx) /\ _nFy tn = Some (len gy)
    /\ _nF tn = Some (len gx + len gy + len gz)
    /\ len a = len gx + len gy + len gz
    /\ len v = nC t /\ _nC tn = Some (nC t)
    /\ (forall ind, ind ∈ _treeInds t ->
          exists fs, c2f !! ind = Some fs /\ len fs = 2 * dim t
            /\ forall k face, fs !! k = Some face ->
                 Forall (fun f => 0 <= f < axis_faces gx gy gz (Z.of_nat k / 2))
                        face)
    /\ _hangingFacesX tn = Some hx /\ _hangingFacesY tn = Some hy
    /\ Forall (fun f => 0 <= f < len gx) hx
    /\ Forall (fun f => 0 <= f < len gy) hy.
Proof.
  intros D Hd Hs. rewrite number_dirty by done. unfold numbered.
  set (inds := sorted (_treeInds t)).
  set (t1 := set_Tree__sortedInds inds t).
  destruct (number_loop t1 fuel inds) as [st|e] eqn:Hloop; [|done].
  intros _. cbn [snd].
  pose proof (number_loop_inv t1 fuel inds [] _ st D (empty_locals_ok t1) Hloop)
    as (HX & HY & HZ & Hc & Hseen & H2).
  pose proof (number_loop_vol t1 fuel inds _ st Hloop) as Hvol.
  cbn [loc_vol app] in Hvol.
  destruct HX as (X1 & X2 & X3), HY as (Y1 & Y2 & Y3), HZ as (Z1 & Z2 & Z3).
  assert (len inds = nC t) as Hn.
  { unfold len, inds, nC. rewrite (Permutation_length (sorted_Permutation _)).
    done. }
  exists (faces (tX st)), (faces (tY st)),
    (if dim t =? 3 then faces (tZ st) else []),
    (ft_area (tX st) ++ ft_area (tY st)
     ++ (if dim t =? 3 then ft_area (tZ st) else [])),
    (loc_vol st), (loc_c2f st), (hangingFaces (tX st)), (hangingFaces (tY st)).
  change (dim t1) with (dim t) in *.
  unfold number_store. change (dim t1) with (dim t).
  cbn [_gridFx _gridFy _gridFz _area _vol _c2f _nFx _nFy _nFz _nF _nC
       _hangingFacesX _hangingFacesY].
  assert (len (if dim t =? 3 then faces (tZ st) else []) = faceCount (tZ st) + 1)
    as Ez.
  { destruct (Z.eqb_spec (dim t) 3); [done|]. rewrite H2 by lia. done. }
  split; [done|]. split; [done|]. split.
  { destruct (dim t =? 3); done. }
  split; [done|]. split; [done|]. split; [done|]. split; [done|].
  split; [done|]. split.
  { f_equal. destruct (dim t =? 3); cbn [default]; unfold len; simpl; lia. }
  split.
  { unfold len in *. rewrite !length_app.
    destruct (Z.eqb_spec (dim t) 3); simpl in *; lia. }
  split; [rewrite Hvol; unfold len in *; by rewrite length_map|].
  split; [f_equal; exact Hn|]. split.
  { intros ind Hind.
    destruct (Hseen ind) as [fs Hfs].
    { unfold inds. rewrite sorted_Permutation. by apply elem_of_elements. }
    exists fs. split; [done|]. destruct (Hc ind fs Hfs) as [Hlen Hk].
    split; [done|]. intros k face Hface.
    eapply Forall_impl; [by eapply Hk|]. cbn beta. intros f Hf.
    unfold counts, axis_faces, len in *.
    destruct (dim t =? 3); cbn [length] in *;
      (destruct (_ =? 0); [lia|]); (destruct (_ =? 1); [lia|]);
      destruct (_ =? 2); lia. }
  split; [done|]. split; [done|]. split.
  - eapply Forall_impl; [exact X3|]. cbn beta. unfold len in *. lia.
  - eapply Forall_impl; [exact Y3|]. cbn beta. unfold len in *. lia.
Qed.

(** X21: when [number] returns on a mesh of two or three axes that was
    to be numbered, the tables it stores fit together: [nFx], [nFy] and
    [nFz] are the numbers of rows of [gridFx], [gridFy] and [gridFz],
    [nF] is their sum and the length of [area], [vol] has [nC] entries,
    every live cell has an entry of [2 * dim] lists in [c2f], each face
    number in the list of a direction is a row of the grid of that
    direction's axis, and so is each hanging face. *)
Theorem number_tables_consistent (fuel : nat) (t : Tree) :
  dim t = 2 \/ dim t = 3 -> __dirty__ t = true -> __sortedInds t = None ->
  fst (number fuel false t) = Ok tt ->
  let tn := snd (number fuel false t) in
  exists gx gy gz a v c2f hx hy,
    _gridFx tn = Some gx /\ _gridFy tn = Some gy
    /\ (if dim t =? 3 then _gridFz tn = Some gz /\ _nFz tn = Some (len gz)
        else gz = [])
    /\ _area tn = Some a /\ _vol tn = Some v /\ _c2f tn = Some c2f
    /\ _nFx tn = Some (len gx) /\ _nFy tn = Some (len gy)
    /\ _nF tn = Some (len gx + len gy + len gz)
    /\ len a = len gx + len gy + len gz
    /\ len v = nC t /\ _nC tn = Some (nC t)
    /\ (forall ind, ind ∈ _treeInds t ->
          exists fs, c2f !! ind = Some fs /\ len fs = 2 * dim t
            /\ forall k face, fs !! k = Some face ->
                 Forall (fun f => 0 <= f < axis_faces gx gy gz (Z.of_nat k / 2))
                        face)
    /\ _hangingFacesX tn = Some hx /\ _hangingFacesY tn = Some hy
    /\ Forall (fun f => 0 <= f < len gx) hx
    /\ Forall (fun f => 0 <= f < len gy) hy.
Proof. apply number_tables. Qed.

Lemma number_tables_consistent_witness :
  let tn := snd (number recursion_limit false S1_mesh) in
  exists gx gy gz a v c2f hx hy,
    _gridFx tn = Some gx /\ _gridFy tn = Some gy
    /\ (if dim S1_mesh =? 3
        then _gridFz tn = Some gz /\ _nFz tn = Some (len gz)
        else gz = [])
    /\ _area tn = Some a /\ _vol tn = Some v /\ _c2f tn = Some c2f
    /\ _nFx tn = Some (len gx) /\ _nFy tn = Some (len gy)
    /\ _nF tn = Some (len gx + len gy + len gz)
    /\ len a = len gx + len gy + len gz
    /\ len v = nC S1_mesh /\ _nC tn = Some (nC S1_mesh)
    /\ (forall ind, ind ∈ _treeInds S1_mesh ->
          exists fs, c2f !! ind = Some fs /\ len fs = 2 * dim S1_mesh
            /\ forall k face, fs !! k = Some face ->
                 Forall (fun f => 0 <= f < axis_faces gx gy gz (Z.of_nat k / 2))
                        face)
    /\ _hangingFacesX tn = Some hx /\ _hangingFacesY tn = Some hy
    /\ Forall (fun f => 0 <= f < len gx) hx
    /\ Forall (fun f => 0 <= f < len gy) hy.
Proof.
  apply (number_tables_consistent recursion_limit S1_mesh).
  - left. reflexivity.
  - by vm_compute.
  - by vm_compute.
  - by vm_compute.
Defined.

(** ** [faceDiv] on a numbered mesh *)

(** A triplet that [csr_matrix] accepts for the shape [(n, m)] *)
Definition in_shape (n m : Z) (e : Z * Z * Z) : Prop :=
  (0 <= e.1.1 < n) /\ (0 <= e.1.2 < m).

Lemma csr_matrix_returns entries n m :
  Forall (in_shape n m) entries ->
  exists D, csr_matrix entries n m = Ok D /\ shape D = (n, m).
Proof.
  intros H. unfold csr_matrix.
  assert (forallb (fun e => match e with (i, j, _) =>
            (0 <=? i) && (i <? n) && (0 <=? j) && (j <? m) end) entries
          = true) as ->.
  { apply forallb_forall. intros [[i j] v] Hin.
    apply list_elem_of_In in Hin. eapply Forall_forall in H; [|done].
    destruct H as [H1 H2]. cbn [fst snd] in *.
    repeat (apply andb_true_iff; split); lia. }
  eexists. split; [done|]. done.
Qed.

Lemma mat_mul_returns A B :
  snd (shape A) = fst (shape B) ->
  exists C, mat_mul A B = Ok C /\ shape C = (fst (shape A), snd (shape B)).
Proof.
  intros H. unfold mat_mul. rewrite (proj2 (Z.eqb_eq _ _) H).
  eexists. split; [done|]. done.
Qed.

Lemma incidence_row_in_shape n (gx gy gz : Grid) PM ii faces :
  0 <= ii < n ->
  (forall k face, faces !! k = Some face ->
     Forall (fun f => 0 <= f < axis_faces gx gy gz (Z.of_nat k / 2)) face) ->
  Forall (in_shape n (len gx + len gy + len gz))
    (incidence_row [0; 0; len gx; len gx; len gx + len gy; len gx + len gy]
       PM ii faces).
Proof.
  intros Hii Hk. unfold incidence_row.
  apply Forall_concat, List.Forall_map, Forall_lookup.
  intros k [off [pm face]] Hz.
  apply lookup_zip_with_Some in Hz as (off' & y & E & Hoff & Hy).
  apply lookup_zip_with_Some in Hy as (pm' & face' & -> & Hpm & Hface).
  injection E as -> -> ->.
  apply List.Forall_map.
  eapply Forall_impl; [exact (Hk k face' Hface)|]. cbn beta.
  intros f Hf. unfold in_shape. cbn [fst snd]. split; [done|].
  unfold axis_faces, len in *.
  destruct k as [|[|[|[|[|[|k]]]]]]; cbn in Hoff; try done;
    injection Hoff as <-;
    match type of Hf with
    | context [Z.of_nat ?k / 2] =>
        let v := eval vm_compute in (Z.of_nat k / 2) in
        change (Z.of_nat k / 2) with v in Hf
    end;
    cbn [Z.eqb Pos.eqb] in Hf; lia.
Qed.

Lemma entries_returns (c2f : gmap Z (list (list Z))) (gx gy gz : Grid)
    PM inds k acc n :
  Z.of_nat (k + length inds) <= n ->
  Forall (in_shape n (len gx + len gy + len gz)) acc ->
  (forall ind, ind ∈ inds ->
     exists fs, c2f !! ind = Some fs
       /\ forall kk face, fs !! kk = Some face ->
            Forall (fun f => 0 <= f < axis_faces gx gy gz (Z.of_nat kk / 2))
                   face) ->
  exists entries,
    foldM (fun IJV '(ii, ind) =>
             match c2f !! ind with
             | Some faces =>
                 Ok (IJV ++ incidence_row
                       [0; 0; len gx; len gx; len gx + len gy; len gx + len gy]
                       PM ii faces)
             | None => Raise KeyError
             end)
          (imap (fun i x => (Z.of_nat (k + i), x)) inds) acc = Ok entries
    /\ Forall (in_shape n (len gx + len gy + len gz)) entries.
Proof.
  revert k acc. induction inds as [|ind inds IH]; intros k acc Hn Hacc Hc.
  - exists acc. by split.
  - rewrite imap_cons. cbn [foldM].
    destruct (Hc ind) as (fs & Hfs & Hk); [by left|].
    rewrite Hfs. cbn [mbind Result_bind].
    rewrite (imap_ext _ (fun i x => (Z.of_nat (S k + i), x)))
      by (intros; simpl; do 2 f_equal; lia).
    apply IH.
    + simpl in Hn. lia.
    + apply Forall_app. split; [done|].
      apply incidence_row_in_shape; [|done]. simpl in Hn. lia.
    + intros i Hi. apply Hc. by right.
Qed.

(** X22: on a mesh of two or three axes that was to be numbered and has
    no divergence stored, [faceDiv] returns whenever [number] does: every
    face number of [c2f] is inside the shape, every live cell is in
    [c2f], and the two diagonal matrices have the sizes of the two sides
    of the incidence; the matrix has one row for each cell and one column
    for each face, and is stored in [_faceDiv]. *)
Theorem faceDiv_returns (fuel : nat) (t : Tree) :
  dim t = 2 \/ dim t = 3 -> __dirty__ t = true -> __sortedInds t = None ->
  _faceDiv t = None ->
  fst (number fuel false t) = Ok tt ->
  exists M nf,
    fst (faceDiv fuel t) = Ok M
    /\ _faceDiv (snd (faceDiv fuel t)) = Some M
    /\ _nF (snd (faceDiv fuel t)) = Some nf
    /\ shape M = (nC t, nf).
Proof.
  intros D Hd Hs Hf Hnum.
  destruct (number_tables fuel t D Hd Hs Hnum)
    as (gx & gy & gz & a & v & c2f & hx & hy & Egx & Egy & _ & Ea & Ev & Ec
        & Enx & Eny & Enf & Hla & Hlv & _ & Hc2f & _).
  destruct (number fuel false t) as [r tn] eqn:Hn. cbn [fst snd] in *.
  subst r.
  pose proof (number_false_Ok fuel t tn Hn) as (Hclean & HS & HF & Hsn & Hfn).
  unfold faceDiv.
  rewrite (bindM_liftM_Ok _ _ t None) by (by rewrite Hf).
  rewrite (bindM_Ok _ _ t tt tn Hn).
  rewrite (bindM_liftM_Ok _ _ tn (dim t)) by (by rewrite (frame_dim _ _ HF)).
  rewrite (bindM_Ok _ _ tn (len gx) tn)
    by (by rewrite (nFx_clean fuel tn Hclean), Enx).
  rewrite (bindM_Ok _ _ tn (len gy) tn)
    by (by rewrite (nFy_clean fuel tn Hclean), Eny).
  set (tn' := set_Tree__sortedInds (sorted (_treeInds tn)) tn).
  rewrite (bindM_Ok _ _ tn (sorted (_treeInds tn)) tn')
    by (apply _sortedInds_run; congruence).
  assert (__dirty__ tn' = false) as Hclean' by exact Hclean.
  destruct (entries_returns c2f gx gy gz
              (concat (replicate (Z.to_nat (dim t)) [-1; 1]))
              (sorted (_treeInds tn)) 0 [] (nC t))
    as (entries & Hent & Hshape).
  { unfold nC. rewrite <- HS.
    rewrite (Permutation_length (sorted_Permutation _)). simpl.
    unfold size, set_size. simpl. lia. }
  { constructor. }
  { intros ind Hind. rewrite sorted_Permutation in Hind.
    apply elem_of_elements in Hind. rewrite HS in Hind.
    destruct (Hc2f ind Hind) as (fs & Hfs & _ & Hk). eauto. }
  rewrite (bindM_liftM_Ok _ _ tn' entries).
  2:{ change (_c2f tn') with (_c2f tn). rewrite Ec. exact Hent. }
  rewrite (bindM_Ok _ _ tn' v tn')
    by (rewrite (vol_clean fuel tn' Hclean'); change (_vol tn') with (_vol tn);
        by rewrite Ev).
  rewrite (bindM_liftM_Ok _ _ tn' (nC t))
    by (unfold nC; change (_treeInds tn') with (_treeInds tn); by rewrite HS).
  rewrite (bindM_Ok _ _ tn' (len gx + len gy + len gz) tn')
    by (rewrite (nF_clean fuel tn' Hclean'); change (_nF tn') with (_nF tn);
        by rewrite Enf).
  destruct (csr_matrix_returns entries (nC t) _ Hshape) as (Dm & HD & HDs).
  rewrite (bindM_liftM_Ok _ _ tn' Dm) by exact HD.
  rewrite (bindM_Ok _ _ tn' a tn')
    by (rewrite (area_clean fuel tn' Hclean'); change (_area tn') with (_area tn);
        by rewrite Ea).
  destruct (mat_mul_returns (sdiag (map (fun x => (1 / x)%Qc) v)) Dm)
    as (VD & HVD & HVDs).
  { rewrite shape_sdiag, HDs. cbn [fst snd]. rewrite length_map. exact Hlv. }
  destruct (mat_mul_returns VD (sdiag a)) as (M & HM & HMs).
  { rewrite HVDs, shape_sdiag, HDs. cbn [fst snd]. by rewrite <- Hla. }
  rewrite (bindM_liftM_Ok _ _ tn' M) by (by rewrite HVD).
  unfold bindM, modifyM, retM. cbn [fst snd].
  exists M, (len gx + len gy + len gz).
  split; [done|]. split; [done|]. split; [exact Enf|].
  rewrite HMs, HVDs, shape_sdiag, HDs. cbn [fst snd].
  f_equal; [rewrite length_map; exact Hlv|exact Hla].
Qed.

Lemma faceDiv_returns_witness :
  exists M nf,
    fst (faceDiv recursion_limit S1_mesh) = Ok M
    /\ _faceDiv (snd (faceDiv recursion_limit S1_mesh)) = Some M
    /\ _nF (snd (faceDiv recursion_limit S1_mesh)) = Some nf
    /\ shape M = (nC S1_mesh, nf).
Proof.
  apply (faceDiv_returns recursion_limit S1_mesh).
  - left. reflexivity.
  - by vm_compute.
  - by vm_compute.
  - by vm_compute.
  - by vm_compute.
Defined.

(** ** The lengths of the edges in two dimensions *)

Lemma edge_clean fuel tn a n :
  dim tn = 2 -> __dirty__ tn = false ->
  _area tn = Some a -> _nFx tn = Some n ->
  edge fuel tn = (Ok (Some (py_slice a n (len a) ++ py_slice a 0 n)), tn).
Proof.
  intros D Hc Ea En.
  unfold edge.
  rewrite (bindM_Ok _ _ tn tt tn (number_clean tn fuel Hc)).
  rewrite (bindM_liftM_Ok _ _ tn 2) by (by rewrite D). cbn [Z.eqb Pos.eqb].
  rewrite (bindM_liftM_Ok _ _ tn a) by (by rewrite Ea).
  rewrite (bindM_Ok _ _ tn n tn) by (by rewrite (nFx_clean fuel tn Hc), En).
  rewrite (bindM_liftM_Ok _ _ tn a) by (by rewrite Ea).
  rewrite (bindM_Ok _ _ tn n tn) by (by rewrite (nFx_clean fuel tn Hc), En).
  done.
Qed.

(** X23: in two dimensions [edge], once it has returned on a mesh that
    was to be numbered, is [area] with its two blocks exchanged: the
    areas of the [nFy] faces across y first, then those of the [nFx]
    faces across x; so it has [nF] entries, the same as [area] up to
    their order. *)
Theorem edge_swaps_area (fuel : nat) (t : Tree) (e : option (list Qc)) :
  dim t = 2 -> __dirty__ t = true -> __sortedInds t = None ->
  fst (edge fuel t) = Ok e ->
  let t1 := snd (edge fuel t) in
  exists ax ay,
    area fuel t1 = (Ok (ax ++ ay), t1)
    /\ nFx fuel t1 = (Ok (len ax), t1) /\ nFy fuel t1 = (Ok (len ay), t1)
    /\ e = Some (ay ++ ax)
    /\ edge fuel t1 = (Ok e, t1).
Proof.
  intros D Hd Hs.
  pose proof (number_dirty t fuel false Hd Hs) as Hnum. unfold numbered in Hnum.
  set (inds := sorted (_treeInds t)) in Hnum.
  set (t0 := set_Tree__sortedInds inds t) in Hnum.
  destruct (number_loop t0 fuel inds) as [st|err] eqn:Hloop.
  2:{ unfold edge. rewrite (bindM_Raise _ _ t err t0 Hnum). done. }
  set (tn := number_store st t0) in Hnum.
  pose proof (number_loop_inv t0 fuel inds [] _ st (or_introl D)
                (empty_locals_ok t0) Hloop)
    as ((X1 & X2 & _) & (Y1 & Y2 & _) & _).
  set (ax := ft_area (tX st)). set (ay := ft_area (tY st)).
  assert (dim tn = 2) as Dn by exact D.
  assert (__dirty__ tn = false) as Hc by reflexivity.
  assert (_nFx tn = Some (len ax)) as Ex.
  { change (_nFx tn) with (Some (len (faces (tX st)))). f_equal.
    unfold ax. lia. }
  assert (_nFy tn = Some (len ay)) as Ey.
  { change (_nFy tn) with (Some (len (faces (tY st)))). f_equal.
    unfold ay. lia. }
  assert (_area tn = Some (ax ++ ay)) as Ea.
  { unfold tn, number_store. cbn [_area]. change (dim t0) with (dim t).
    rewrite D. cbn [Z.eqb Pos.eqb]. by rewrite app_nil_r. }
  pose proof (edge_clean fuel tn (ax ++ ay) (len ax) Dn Hc Ea Ex) as Hedge.
  assert (py_slice (ax ++ ay) (len ax) (len (ax ++ ay)) = ay) as S1.
  { unfold len. rewrite py_slice_nonneg by (rewrite length_app; lia).
    rewrite Nat2Z.id, drop_app_length. apply take_ge.
    rewrite length_app. lia. }
  assert (py_slice (ax ++ ay) 0 (len ax) = ax) as S2.
  { unfold len. rewrite py_slice_nonneg by lia. simpl. rewrite drop_0.
    rewrite Z.sub_0_r, Nat2Z.id. by rewrite take_app_length. }
  rewrite S1, S2 in Hedge.
  assert (edge fuel t = (Ok (Some (ay ++ ax)), tn)) as Hrun.
  { rewrite <- Hedge. unfold edge at 1.
    rewrite (bindM_Ok _ _ t tt tn Hnum). unfold edge.
    by rewrite (bindM_Ok _ _ tn tt tn (number_clean tn fuel Hc)). }
  rewrite Hrun. cbn [fst snd]. intros [= <-]. cbv zeta.
  exists ax, ay.
  rewrite (area_clean fuel tn Hc), (nFx_clean fuel tn Hc), (nFy_clean fuel tn Hc).
  rewrite Ea, Ex, Ey. repeat split; done.
Qed.

Lemma edge_swaps_area_witness :
  let t1 := snd (edge recursion_limit S1_mesh) in
  exists ax ay,
    area recursion_limit t1 = (Ok (ax ++ ay), t1)
    /\ nFx recursion_limit t1 = (Ok (len ax), t1)
    /\ nFy recursion_limit t1 = (Ok (len ay), t1)
    /\ fst (edge recursion_limit S1_mesh) = Some <$> Ok (ay ++ ax)
    /\ edge recursion_limit t1 = (fst (edge recursion_limit S1_mesh), t1).
Proof.
  destruct (fst (edge recursion_limit S1_mesh)) as [e|err] eqn:E.
  - destruct (edge_swaps_area recursion_limit S1_mesh e)
      as (ax & ay & H1 & H2 & H3 & H4 & H5);
      [reflexivity|by vm_compute|by vm_compute|exact E|].
    intros t1. exists ax, ay. subst e.
    exact (conj H1 (conj H2 (conj H3 (conj eq_refl H5)))).
  - exfalso. vm_compute in E. discriminate E.
Defined.

(** ** Neighbours of the same size *)

Lemma shift_at_snoc coords l k d :
  0 <= k < Z.of_nat (length coords) ->
  shift_at (coords ++ [l]) k d = shift_at coords k d ++ [l].
Proof.
  intros Hk. unfold shift_at. rewrite imap_app. simpl.
  destruct (Z.eqb_spec (Z.of_nat (length coords + 0)) k); [lia|done].
Qed.

Lemma length_shift_at coords k d : length (shift_at coords k d) = length coords.
Proof. unfold shift_at. by rewrite length_imap. Qed.

Lemma shift_at_back coords k d :
  shift_at (shift_at coords k d) k (- d) = coords.
Proof.
  unfold shift_at. apply list_eq. intros i.
  rewrite !list_lookup_imap. destruct (coords !! i) as [c|]; simpl; [|done].
  destruct (Z.of_nat i =? k); f_equal; lia.
Qed.

Lemma getNextCell_live t fuel (coords : list Z) l k (positive : bool) :
  constructed t -> Z.of_nat (length coords) = dim t -> l <= levels t ->
  0 <= k < dim t ->
  let step := (if positive then 1 else -1) * _levelWidth t l in
  Forall (fun c => 0 <= c < 2 ^ levels t) (shift_at coords k step) ->
  cell_index t (shift_at coords k step) l ∈ _treeInds t ->
  _getNextCell t (S fuel) (coords ++ [l]) k positive
  = Ok (NCInt (cell_index t (shift_at coords k step) l)).
Proof.
  intros C Hlen Hl Hk step Hin Hlive. cbn [_getNextCell].
  rewrite py_last_snoc. cbn [mbind Result_bind]. fold step.
  rewrite shift_at_snoc by lia.
  rewrite (proj2 (_isInsideMesh_spec t _ l) Hin). cbn [negb].
  unfold contains.
  rewrite _index_cell by (done || (rewrite length_shift_at; lia)).
  cbn [mbind Result_bind]. rewrite bool_decide_eq_true_2 by done.
  done.
Qed.

(** X24: a live neighbour of the same size is what [_getNextCell] returns,
    and the relation is mutual: when the cell one width along
    [direction] lies inside the mesh and is live, [_getNextCell] returns
    its index; and if the cell asked from is itself inside the mesh and
    live, the neighbour's [_getNextCell] in the opposite sense returns
    the index of that cell, so that [number] gives the two cells one
    shared face. *)
Theorem getNextCell_same_size
    (t : Tree) (fuel : nat) (coords : list Z) (l direction : Z)
    (positive : bool) :
  constructed t -> Z.of_nat (length coords) = dim t -> l <= levels t ->
  0 <= direction < dim t ->
  let step := (if positive then 1 else -1) * _levelWidth t l in
  let next := shift_at coords direction step in
  Forall (fun c => 0 <= c < 2 ^ levels t) next ->
  cell_index t next l ∈ _treeInds t ->
  _getNextCell t (S fuel) (coords ++ [l]) direction positive
  = Ok (NCInt (cell_index t next l))
  /\ (Forall (fun c => 0 <= c < 2 ^ levels t) coords ->
      cell_index t coords l ∈ _treeInds t ->
      _getNextCell t (S fuel) (next ++ [l]) direction (negb positive)
      = Ok (NCInt (cell_index t coords l))).
Proof.
  intros C Hlen Hl Hk step next Hin Hlive.
  split; [by apply getNextCell_live|]. intros Hin' Hlive'.
  assert (shift_at next direction
            ((if negb positive then 1 else -1) * _levelWidth t l) = coords)
    as Hback.
  { unfold next.
    replace ((if negb positive then 1 else -1) * _levelWidth t l)
      with (- step) by (unfold step; destruct positive; simpl; lia).
    apply shift_at_back. }
  pose proof (getNextCell_live t fuel next l direction (negb positive) C) as H.
  cbv zeta in H. rewrite Hback in H. apply H; try done.
  unfold next. by rewrite length_shift_at.
Qed.

Lemma getNextCell_same_size_witness :
  _getNextCell S1_mesh 1 ([0; 0] ++ [1]) 0 true
  = Ok (NCInt (cell_index S1_mesh
                 (shift_at [0; 0] 0 ((if true then 1 else -1)
                                     * _levelWidth S1_mesh 1)) 1))
  /\ (Forall (fun c => 0 <= c < 2 ^ levels S1_mesh) [0; 0] ->
      cell_index S1_mesh [0; 0] 1 ∈ _treeInds S1_mesh ->
      _getNextCell S1_mesh 1
        (shift_at [0; 0] 0 ((if true then 1 else -1) * _levelWidth S1_mesh 1)
         ++ [1]) 0 (negb true)
      = Ok (NCInt (cell_index S1_mesh [0; 0] 1))).
Proof.
  apply (getNextCell_same_size S1_mesh 0 [0; 0] 1 0 true).
  - apply (constructed_frame (new_tree S1_h 2));
      [by vm_compute|apply new_tree_constructed; simpl; lia].
  - reflexivity.
  - by vm_compute.
  - by vm_compute.
  - vm_compute. repeat constructor; discriminate.
  - vm_compute. reflexivity.
Defined.

(** ** The list [refine] returns and the cells it creates *)

(** The cells [refine] goes over:
    [cells if cells is not None else sorted(self._treeInds)] *)
Definition candidates (t : Tree) (cells : option (list Z)) : list Z :=
  default (sorted (_treeInds t)) cells.

(** The test of the pass on one candidate:
    [function(self._cellC(cell)) > p[-1]] *)
Definition asks (t : Tree) (function : list Qc -> Z) (cell : Z) : bool :=
  match _cellC t (Idx cell), target_level t (Idx cell) with
  | Ok c, Ok l => function c >? l
  | _, _ => false
  end.

(** The children of the cell of an index, in the order [_refineCell]
    adds them *)
Definition children_of (t : Tree) (cell : Z) : list Z :=
  match _pointer t cell with
  | Ok p => match py_last p with
            | Ok l => children t (py_init p) l
            | Raise _ => []
            end
  | Raise _ => []
  end.

(** The children created in a pass over [cells], as the spec has them: the
    children of the candidates that the predicate asks to refine, one
    candidate after the other. *)
Definition first_pass_children (t : Tree) (function : list Qc -> Z)
    (cells : list Z) : list Z :=
  concat (map (fun cell => if asks t function cell then children_of t cell
                           else []) cells).

(** The body of the loop of [refine] *)
Definition visit (function : list Qc -> Z) (recurse : list Z) (cell : Z)
    : M (list Z) :=
  bindM (liftM (fun self => _pointer self cell)) (fun p =>
  bindM (liftM (fun self => _cellC self (Idx cell))) (fun c =>
  bindM (liftM (fun _ => py_last p)) (fun l =>
  if function c >? l
  then bindM (_refineCell (Idx cell)) (fun added => retM (recurse ++ added))
  else retM recurse))).

Lemma refine_pass_visit function cells :
  refine_pass function cells = forM (visit function) cells [].
Proof. reflexivity. Qed.

Lemma _cellC_frame t t' c : frame t' = frame t -> _cellC t' c = _cellC t c.
Proof.
  intros F. pose proof F as [= Hh _ _ _]. unfold _cellC.
  rewrite (_cellH_frame _ _ _ F). unfold _cellN.
  by rewrite (_asPointer_frame _ _ _ F), Hh.
Qed.

Lemma asks_frame t t' function cell :
  frame t' = frame t -> asks t' function cell = asks t function cell.
Proof.
  intros F. unfold asks, target_level.
  by rewrite (_cellC_frame _ _ _ F), (_asPointer_frame _ _ _ F).
Qed.

Lemma children_frame t t' coords l :
  frame t' = frame t -> children t' coords l = children t coords l.
Proof.
  intros F. unfold children.
  rewrite (frame_dim _ _ F), (_levelWidth_frame _ _ _ F).
  apply map_ext. intros off. apply cell_index_frame, F.
Qed.

Lemma children_of_frame t t' cell :
  frame t' = frame t -> children_of t' cell = children_of t cell.
Proof.
  intros F. unfold children_of. rewrite (_pointer_frame _ _ _ F).
  destruct (_pointer t cell) as [p|]; [|done].
  destruct (py_last p); [|done]. by apply children_frame.
Qed.

Lemma first_pass_children_frame t t' function cells :
  frame t' = frame t ->
  first_pass_children t' function cells = first_pass_children t function cells.
Proof.
  intros F. unfold first_pass_children. f_equal. apply map_ext. intros cell.
  by rewrite (asks_frame _ _ _ _ F), (children_of_frame _ _ _ F).
Qed.

(** What the loop does on a live candidate *)
Lemma visit_live function t cell recurse :
  mesh_ok t -> cell ∈ _treeInds t ->
  (asks t function cell = false
   /\ visit function recurse cell t = (Ok recurse, t))
  \/ (asks t function cell = true
      /\ ((exists coords l,
             in_codec t coords l /\ cell = cell_index t coords l
             /\ l < levels t /\ children_of t cell = children t coords l
             /\ visit function recurse cell t
                = (Ok (recurse ++ children_of t cell),
                   set_treeInds
                     ((_treeInds t ∪ list_to_set (children_of t cell))
                      ∖ {[ cell ]})
                     (structure_changed t)))
          \/ exists e t', visit function recurse cell t = (Raise e, t'))).
Proof.
  intros Hok Hlive. pose proof Hok as [C D L Hc _].
  destruct (Hc _ Hlive) as (coords & l & Hb & E).
  pose proof (box_ok_in_codec t coords l L Hb) as Hin.
  pose proof (_pointer_cell t coords l C Hin) as Hp. rewrite <- E in Hp.
  pose proof (_cellC_pointer t coords l (proj1 Hin)) as HC.
  assert (_cellC t (Idx cell)
          = Ok (zip_with (fun w n => (w / Q2Qc 2 + n)%Qc)
                  (cell_widths t coords l) (cell_origin t coords))) as HC'.
  { unfold _cellC, _cellH, _cellN in *. simpl in *. rewrite Hp. exact HC. }
  set (c := zip_with _ _ _) in HC'.
  assert (asks t function cell = (function c >? l)) as Ha.
  { unfold asks, target_level. cbn [_asPointer]. rewrite HC', Hp. simpl.
    by rewrite py_last_snoc. }
  assert (children_of t cell = children t coords l) as Hk.
  { unfold children_of. by rewrite Hp, py_last_snoc, py_init_snoc. }
  unfold visit.
  rewrite (bindM_liftM_Ok _ _ t (coords ++ [l])) by done.
  rewrite (bindM_liftM_Ok _ _ t c) by done.
  rewrite (bindM_liftM_Ok _ _ t l) by apply py_last_snoc.
  rewrite Ha. destruct (function c >? l); [right|by left].
  split; [done|].
  destruct (_refineCell_cases t (Idx cell) C D)
    as [(coords' & l' & ind & Hp' & Hlen & Hi & Hlive' & Hl & Hrun)
       |(e & Hrun & _)].
  - cbn [_asPointer] in Hp'. rewrite Hp in Hp'. injection Hp' as E'.
    apply snoc_inj in E' as [<- <-].
    rewrite _index_cell in Hi by (try done; lia). injection Hi as <-.
    left. exists coords, l. repeat (split; [done|]).
    unfold bindM. rewrite Hrun. unfold retM. by rewrite Hk, <- E.
  - right. unfold bindM. rewrite Hrun. eauto.
Qed.

(** One pass over candidates that are live and distinct: the list it
    builds, and the live cells it leaves. *)
Lemma refine_pass_run function (t0 : Tree) (cells : list Z) :
  forall (t : Tree) (acc r : list Z) (t1 : Tree),
  mesh_ok t -> frame t = frame t0 ->
  NoDup cells -> (forall c, c ∈ cells -> c ∈ _treeInds t) ->
  forM (visit function) cells acc t = (Ok r, t1) ->
  mesh_ok t1 /\ frame t1 = frame t0
  /\ r = acc ++ first_pass_children t0 function cells
  /\ NoDup (first_pass_children t0 function cells)
  /\ (forall i, i ∈ _treeInds t1 <->
        (i ∈ _treeInds t /\ ~ (i ∈ cells /\ asks t0 function i = true))
        \/ i ∈ first_pass_children t0 function cells)
  /\ (forall s, mesh_ok s -> frame s = frame t0 ->
        (forall c, c ∈ cells -> c ∈ _treeInds s) ->
        forall i, i ∈ first_pass_children t0 function cells ->
                  i ∉ _treeInds s).
Proof.
  induction cells as [|cell cells IH]; intros t acc r t1 Hok F Hnd Hlive Hrun.
  - cbn in Hrun. injection Hrun as <- <-.
    unfold first_pass_children. cbn. rewrite app_nil_r.
    split; [done|]. split; [done|]. split; [done|].
    split; [constructor|]. split.
    + intros i. rewrite !elem_of_nil. tauto.
    + intros s _ _ _ i Hi. by apply elem_of_nil in Hi.
  - cbn [forM] in Hrun. apply NoDup_cons in Hnd as [Hcell Hnd].
    assert (cell ∈ _treeInds t) as Hc by (apply Hlive; by left).
    assert (first_pass_children t0 function (cell :: cells)
            = (if asks t0 function cell then children_of t0 cell else [])
              ++ first_pass_children t0 function cells) as Efp by done.
    rewrite Efp.
    destruct (visit_live function t cell acc Hok Hc)
      as [[Ha Hv]|[Ha [(coords & l & Hin & E & Hl & Hk & Hv)|(e & t' & Hv)]]];
      rewrite (asks_frame _ _ _ _ F) in Ha; rewrite Ha.
    + (* the candidate is left as it is *)
      unfold bindM in Hrun. rewrite Hv in Hrun.
      destruct (IH t acc r t1 Hok F Hnd
                  ltac:(intros c' Hc'; apply Hlive; by right) Hrun)
        as (Hok1 & F1 & Er & Hnd1 & Hl1 & Hf1).
      repeat (split; [done|]). split.
      * intros i. rewrite Hl1. cbn [app]. split.
        -- intros [[Hi Hn]|Hi]; [left|by right]. split; [done|].
           intros [Hi' Hai]. apply elem_of_cons in Hi' as [->|Hi'].
           ++ congruence.
           ++ by apply Hn.
        -- intros [[Hi Hn]|Hi]; [left|by right]. split; [done|].
           intros [Hi' Hai]. apply Hn. split; [by right|done].
      * intros s Hs Fs Hls i Hi. cbn [app] in Hi.
        apply (Hf1 s Hs Fs); [|done]. intros c' Hc'. apply Hls. by right.
    + (* the candidate is refined *)
      rewrite (children_of_frame _ _ _ F) in Hv, Hk.
      unfold bindM in Hrun. rewrite Hv in Hrun.
      set (K := children_of t0 cell) in *.
      set (t2 := set_treeInds _ _) in *.
      assert (_treeInds t2 = (_treeInds t ∪ list_to_set K) ∖ {[cell]}) as S2
        by apply _treeInds_set.
      assert (frame t2 = frame t0) as F2.
      { rewrite <- F. exact (structure_changed_frame t). }
      assert (mesh_ok t2) as Hok2.
      { pose proof (refined_mesh_ok t coords l Hok Hin
                      ltac:(by rewrite <- E) Hl) as R.
        rewrite <- E, <- Hk in R. revert R.
        apply mesh_ok_ext; [exact (structure_changed_frame t)|done]. }
      assert (forall i, i ∈ K -> i ∉ _treeInds t) as Hfresh.
      { intros i Hi. rewrite Hk in Hi.
        apply (children_fresh t coords l Hok Hin ltac:(by rewrite <- E) Hl i Hi). }
      assert (forall c', c' ∈ cells -> c' ∈ _treeInds t2) as Hlive2.
      { intros c' Hc'. rewrite S2. apply elem_of_difference. split.
        - apply elem_of_union. left. apply Hlive. by right.
        - rewrite elem_of_singleton. intros ->. done. }
      destruct (IH t2 (acc ++ K) r t1 Hok2 F2 Hnd Hlive2 Hrun)
        as (Hok1 & F1 & Er & Hnd1 & Hl1 & Hf1).
      split; [done|]. split; [done|]. split; [by rewrite app_assoc|].
      split; [|split].
      * apply NoDup_app. split; [|split; [|done]].
        -- rewrite Hk.
           apply (children_NoDup t coords l Hok Hin ltac:(by rewrite <- E) Hl).
        -- intros i Hi Hi'. apply (Hf1 t2 Hok2 F2 Hlive2 i Hi').
           rewrite S2. apply elem_of_difference. split.
           ++ apply elem_of_union. right. by apply elem_of_list_to_set.
           ++ rewrite elem_of_singleton. intros ->. by apply (Hfresh cell).
      * intros i. rewrite Hl1, S2, elem_of_difference, elem_of_union,
          elem_of_list_to_set, elem_of_singleton, elem_of_app. split.
        -- intros [[[[Hi|Hi] Hne] Hn]|Hi]; [left|right; by left|right; by right].
           split; [done|]. intros [Hi' Hai].
           apply elem_of_cons in Hi' as [->|Hi']; [done|]. by apply Hn.
        -- intros [[Hi Hn]|[Hi|Hi]]; [left|left|by right].
           ++ split; [split; [by left|]|].
              ** intros ->. apply Hn. split; [by left|done].
              ** intros [Hi' Hai]. apply Hn. split; [by right|done].
           ++ split; [split; [by right|]|].
              ** intros ->. by apply (Hfresh cell).
              ** intros [Hi' _]. apply (Hfresh i Hi). apply Hlive. by right.
      * intros s Hs Fs Hls i Hi. apply elem_of_app in Hi as [Hi|Hi].
        -- assert (frame s = frame t) as Fst by (by rewrite Fs, F).
           assert (in_codec s coords l) as Hin'.
           { destruct Hin as (? & ? & ?). unfold in_codec.
             by rewrite (frame_dim _ _ Fst), (frame_levels _ _ Fst). }
           rewrite Hk in Hi.
           rewrite <- (children_frame _ _ _ _ Fst) in Hi.
           apply (children_fresh s coords l Hs Hin'); [| |done].
           ++ rewrite (cell_index_frame _ _ _ _ Fst), <- E. apply Hls. by left.
           ++ by rewrite (frame_levels _ _ Fst).
        -- apply (Hf1 s Hs Fs); [|done]. intros c' Hc'. apply Hls. by right.
    + (* [_refineCell] raises: the pass does not return *)
      unfold bindM in Hrun. rewrite Hv in Hrun. done.
Qed.

Lemma candidates_live t cells :
  (forall cs, cells = Some cs ->
     NoDup cs /\ forall c, c ∈ cs -> c ∈ _treeInds t) ->
  NoDup (candidates t cells)
  /\ forall c, c ∈ candidates t cells -> c ∈ _treeInds t.
Proof.
  intros H. destruct cells as [cs|]; [by apply H|]. cbn. split.
  - rewrite sorted_Permutation. apply NoDup_elements.
  - intros c. rewrite sorted_Permutation. apply elem_of_elements.
Qed.

(** C10: take a mesh that refinement reaches from the constructor's, and
    candidate cells that are live and distinct, as the default candidates
    are.  When [refine(function, recursive=True, cells)] returns [r]:
    - [r] is the list that the first pass over the candidates builds,
      which [recursive=False] returns on the same mesh, and it is the
      children of the candidates the predicate asks to refine, in the
      order of the candidates and, for each, in the order [_refineCell]
      adds them, with no repetition;
    - every index of [r] is a cell that was not live before the call and
      is live after the first pass, whose live cells are those of the
      start, without the candidates that were refined, and those of [r];
    - when [r] is not empty the recursive call runs on [r] from that mesh
      and its list is dropped; the cells its own first pass creates are
      the children of the cells of [r] the predicate asks to refine, they
      are live after that pass, they were not live before it and none of
      them is in [r];
    - at the end, a live cell that was not live after the first pass, a
      cell that the recursive passes created, is not in [r]. *)
Theorem refine_returns_first_pass
    (h_in : list h_entry) (L : Z) (t0 t t' : Tree)
    (fuel : nat) (function : list Qc -> Z) (cells : option (list Z))
    (r : list Z) :
  Tree_init h_in L = Ok t0 -> dim t0 <= 3 -> L <= 20 ->
  reachable t0 t ->
  (forall cs, cells = Some cs ->
     NoDup cs /\ forall c, c ∈ cs -> c ∈ _treeInds t) ->
  refine (S fuel) function true cells t = (Ok r, t') ->
  exists t1,
    refine_pass function (candidates t cells) t = (Ok r, t1)
    /\ refine 1 function false cells t = (Ok r, t1)
    /\ r = first_pass_children t function (candidates t cells)
    /\ NoDup r
    /\ (forall i, i ∈ r -> (i ∉ _treeInds t) /\ i ∈ _treeInds t1)
    /\ (forall i, i ∈ _treeInds t1 <->
          (i ∈ _treeInds t
           /\ ~ (i ∈ candidates t cells /\ asks t function i = true))
          \/ i ∈ r)
    /\ (if 0 <? Z.of_nat (length r)
        then exists deeper t2,
               refine fuel function true (Some r) t1 = (Ok deeper, t')
               /\ refine_pass function r t1 = (Ok deeper, t2)
               /\ deeper = first_pass_children t function r
               /\ (forall k, k ∈ deeper ->
                     k ∈ _treeInds t2 /\ (k ∉ _treeInds t1) /\ k ∉ r)
        else t' = t1)
    /\ (forall i, i ∈ _treeInds t' -> i ∉ _treeInds t1 -> i ∉ r).
Proof.
  intros H0 Hd HL Hreach Hcells Hrun.
  destruct (reachable_refined_from t0 t
              (Tree_init_refined_from _ _ _ H0 Hd HL) Hreach)
    as (Hok & F & _ & _).
  destruct (refine_unfold_once fuel function cells t t' r Hrun)
    as (t1 & Hfalse & Hpass & Hrec).
  change (match cells with Some cs => cs | None => sorted (_treeInds t) end)
    with (candidates t cells) in Hpass.
  destruct (candidates_live t cells Hcells) as [Hnd Hlive].
  pose proof Hpass as Hp. rewrite refine_pass_visit in Hp.
  destruct (refine_pass_run function t (candidates t cells) t [] r t1
              Hok eq_refl Hnd Hlive Hp)
    as (Hok1 & F1 & Er & Hnd1 & Hl1 & Hf1).
  cbn [app] in Er. rewrite <- Er in Hnd1, Hl1, Hf1.
  assert (forall i, i ∈ r -> (i ∉ _treeInds t) /\ i ∈ _treeInds t1) as Hr.
  { intros i Hi. split; [by apply (Hf1 t Hok eq_refl Hlive)|].
    apply Hl1. by right. }
  exists t1. repeat (split; [done|]). split.
  - destruct (0 <? Z.of_nat (length r)); [|done].
    destruct Hrec as (deeper & Hrec). destruct fuel as [|fuel]; [done|].
    destruct (refine_unfold_once fuel function (Some r) t1 t' deeper Hrec)
      as (t2 & _ & Hpass2 & _).
    exists deeper, t2. repeat (split; [done|]).
    pose proof Hpass2 as Hp2. rewrite refine_pass_visit in Hp2.
    destruct (refine_pass_run function t r t1 [] deeper t2 Hok1 F1 Hnd1
                ltac:(intros c Hc; by apply Hr) Hp2)
      as (_ & _ & Ed & _ & Hl2 & Hf2).
    cbn [app] in Ed. rewrite <- Ed in Hl2, Hf2. split; [done|].
    intros k Hk.
    assert (k ∉ _treeInds t1) as Hk1.
    { apply (Hf2 t1 Hok1 F1); [|done]. intros c Hc. by apply Hr. }
    split; [apply Hl2; by right|]. split; [done|].
    intros Hkr. apply Hk1. by apply Hr.
  - intros i _ Hi Hir. apply Hi. by apply Hr.
Qed.

Lemma refine_returns_first_pass_witness :
  exists t1,
    refine_pass (fun _ => 2) (candidates (new_tree S1_h 2) None)
      (new_tree S1_h 2)
    = (Ok [1; 33; 65; 97], t1)
    /\ refine 1 (fun _ => 2) false None (new_tree S1_h 2)
       = (Ok [1; 33; 65; 97], t1)
    /\ [1; 33; 65; 97]
       = first_pass_children (new_tree S1_h 2) (fun _ => 2)
           (candidates (new_tree S1_h 2) None)
    /\ NoDup [1; 33; 65; 97]
    /\ (forall i, i ∈ [1; 33; 65; 97] ->
          (i ∉ _treeInds (new_tree S1_h 2)) /\ i ∈ _treeInds t1)
    /\ (forall i, i ∈ _treeInds t1 <->
          (i ∈ _treeInds (new_tree S1_h 2)
           /\ ~ (i ∈ candidates (new_tree S1_h 2) None
                 /\ asks (new_tree S1_h 2) (fun _ => 2) i = true))
          \/ i ∈ [1; 33; 65; 97])
    /\ (if 0 <? Z.of_nat (length [1; 33; 65; 97])
        then exists deeper t2,
               refine 999 (fun _ => 2) true (Some [1; 33; 65; 97]) t1
               = (Ok deeper, snd S5_run)
               /\ refine_pass (fun _ => 2) [1; 33; 65; 97] t1 = (Ok deeper, t2)
               /\ deeper
                  = first_pass_children (new_tree S1_h 2) (fun _ => 2)
                      [1; 33; 65; 97]
               /\ (forall k, k ∈ deeper ->
                     k ∈ _treeInds t2 /\ (k ∉ _treeInds t1)
                     /\ k ∉ [1; 33; 65; 97])
        else snd S5_run = t1)
    /\ (forall i, i ∈ _treeInds (snd S5_run) -> i ∉ _treeInds t1 ->
          i ∉ [1; 33; 65; 97]).
Proof.
  apply (refine_returns_first_pass [HNum 4; HNum 4] 2 (new_tree S1_h 2)
           (new_tree S1_h 2) (snd S5_run) 999 (fun _ => 2) None
           [1; 33; 65; 97]).
  - reflexivity.
  - unfold dim. simpl. lia.
  - lia.
  - apply reach_new.
  - intros cs [=].
  - vm_compute. reflexivity.
Defined.
